(** * Synth: a two-voice wavetable synthesizer (synth.c)

    Shallow embedding of the render callback [paCallback], the per-sample
    oscillator step [getNextFrame], the control API ([playOsc], [restOsc],
    [endOsc]), the table and voice initialisation, and the start and the
    stop of the synthesizer ([initSynth], [termSynth], [error]) of synth.c,
    followed by the properties of the specification that were checked
    against it and by further properties of the code.

    Numeric model.  The C types are modelled as the machine has them:
    - [int] and [unsigned long] are integers in [Z] with the wrap-around of
      a conversion written out ([to_int], [to_ulong], LP64);
    - [double] and [float] are IEEE-754 binary64 and binary32 numbers, taken
      from the Standard Library's executable specification [SpecFloat]
      (round to nearest, ties to even), so that every arithmetic expression
      of the source rounds exactly where the compiled program rounds. *)

From Stdlib Require Import ZArith List Bool Lia Reals Lra.
From Stdlib Require Import Floats.SpecFloat.
From Stdlib Require String Ascii.
Import ListNotations String.StringSyntax.
Local Open Scope Z_scope.
Delimit Scope string_scope with string.

(** ** Machine integers *)

Definition to_ulong (z : Z) : Z := z mod 2 ^ 64.
Definition to_int (z : Z) : Z := (z + 2 ^ 31) mod 2 ^ 32 - 2 ^ 31.

(** ** Floating point *)

(** Truncation toward zero of a finite number, as a C conversion to an
    integer type performs it; [None] on infinities and NaN. *)
Definition SFtrunc (x : spec_float) : option Z :=
  match x with
  | S754_zero _ => Some 0
  | S754_finite s m e =>
      Some (cond_Zopp s (match e with
                         | Zneg p => Zpos m / 2 ^ Zpos p
                         | _ => Zpos m * 2 ^ e
                         end))
  | _ => None
  end.

(** The signed integer mantissa of a finite number. *)
Definition SFmant (s : bool) (m : positive) : Z := cond_Zopp s (Zpos m).

Module Double.
Definition prec : Z := 53.
Definition emax : Z := 1024.
Definition t := spec_float.
Definition of_Z (z : Z) : t := binary_normalize prec emax z 0 false.
Definition add : t -> t -> t := SFadd prec emax.
Definition sub : t -> t -> t := SFsub prec emax.
Definition mul : t -> t -> t := SFmul prec emax.
Definition div : t -> t -> t := SFdiv prec emax.
(** [x >= y] of C *)
Definition geb (x y : t) : bool := SFleb y x.
Definition valid (x : t) : bool := valid_binary prec emax x.
End Double.

Module Single.
Definition prec : Z := 24.
Definition emax : Z := 128.
Definition t := spec_float.
Definition of_Z (z : Z) : t := binary_normalize prec emax z 0 false.
Definition add : t -> t -> t := SFadd prec emax.
Definition div : t -> t -> t := SFdiv prec emax.
(** Conversion of a [double] to [float]: one rounding to binary32. *)
Definition of_double (x : Double.t) : t :=
  match x with
  | S754_finite s m e => binary_normalize prec emax (SFmant s m) e s
  | _ => x
  end.
(** Promotion of a [float] to [double]: exact, the mantissa is only
    renormalised to 53 bits. *)
Definition to_double (x : t) : Double.t :=
  match x with
  | S754_finite s m e =>
      binary_normalize Double.prec Double.emax (SFmant s m) e s
  | _ => x
  end.
Definition valid (x : t) : bool := valid_binary prec emax x.
End Single.

Definition double : Type := Double.t.
Definition float : Type := Single.t.

(** Conversions of a [double] to the integer types.  C leaves the
    conversion undefined when the truncated value does not fit the target
    type; the model then reduces it modulo the width of the type (what an
    x86-64 compiler emits for the values met here) and maps infinities and
    NaN to 0.  The properties below only rely on the defined cases. *)
Definition double_to_ulong (x : double) : Z :=
  match SFtrunc x with Some z => to_ulong z | None => 0 end.
Definition double_to_int (x : double) : Z :=
  match SFtrunc x with Some z => to_int z | None => 0 end.

(** ** Constants and data model *)

Definition SAMPLE_RATE : Z := 44100.
Definition FRAMES_PER_BUFFER : Z := 210.
Definition TABLE_SIZE : Z := 210.
Definition NUM_OSCILLATORS : Z := 2.

(** [enum note_type]; a C enumeration is an integer type, so a stored tag
    can be any integer. *)
Definition NOTE : Z := 0.
Definition REST : Z := 1.
Definition WAITING : Z := 2.
Definition END : Z := 3.

Record frame := mkFrame { left : float; right : float }.

Record note := mkNote { type : Z; ms : Z; hz : double }.

(** [struct osc].  [rbuf] is the content of the ring buffer, oldest element
    first; [finished] is the value of the semaphore. *)
Record osc := mkOsc {
  rbuf : list note;
  table : list float;
  vol : double;
  left_phase : double;
  right_phase : double;
  frames_played : Z;
  num_frames : Z;
  curr_note : note;
  finished : nat
}.

Definition set_rbuf (o : osc) (q : list note) : osc :=
  mkOsc q (table o) (vol o) (left_phase o) (right_phase o)
        (frames_played o) (num_frames o) (curr_note o) (finished o).
Definition set_vol (o : osc) (v : double) : osc :=
  mkOsc (rbuf o) (table o) v (left_phase o) (right_phase o)
        (frames_played o) (num_frames o) (curr_note o) (finished o).
Definition set_phases (o : osc) (l r : double) : osc :=
  mkOsc (rbuf o) (table o) (vol o) l r
        (frames_played o) (num_frames o) (curr_note o) (finished o).
Definition set_frames (o : osc) (played total : Z) : osc :=
  mkOsc (rbuf o) (table o) (vol o) (left_phase o) (right_phase o)
        played total (curr_note o) (finished o).
Definition set_curr_note (o : osc) (n : note) : osc :=
  mkOsc (rbuf o) (table o) (vol o) (left_phase o) (right_phase o)
        (frames_played o) (num_frames o) n (finished o).
Definition set_finished (o : osc) (c : nat) : osc :=
  mkOsc (rbuf o) (table o) (vol o) (left_phase o) (right_phase o)
        (frames_played o) (num_frames o) (curr_note o) c.

(** ** The ring buffer and the semaphore *)

Definition RBUF_SIZE : Z := 1024.

(** Modelled from the spec: the PortAudio ring buffer (pa_ringbuffer.h) is
    not part of the sources.  It is the bounded first-in first-out channel of
    section 4.1: a write of one element appends it unless the buffer is full,
    in which case nothing is written; a read of one element removes the
    oldest element, or reports that none is available. *)
Definition PaUtil_WriteRingBuffer (rb : list note) (n : note) : list note :=
  if Z.of_nat (length rb) <? RBUF_SIZE then rb ++ [n] else rb.

Definition PaUtil_ReadRingBuffer (rb : list note) : option (note * list note) :=
  match rb with
  | [] => None
  | n :: rest => Some (n, rest)
  end.

(** POSIX semaphore on its counter: [sem_post] increments; [sem_wait]
    returns after decrementing a positive counter and otherwise blocks
    ([None]). *)
Definition sem_post (c : nat) : nat := S c.
Definition sem_wait (c : nat) : option nat :=
  match c with
  | O => None
  | S c' => Some c'
  end.

(** ** paCallback, first loop: event refill *)

Definition waiting_note : note := mkNote WAITING 0 (Double.of_Z 0).

(** [(ms / 1000.0) * SAMPLE_RATE] converted to [unsigned long]. *)
Definition frames_of_ms (ms : Z) : Z :=
  double_to_ulong
    (Double.mul (Double.div (Double.of_Z ms) (Double.of_Z 1000))
                (Double.of_Z SAMPLE_RATE)).

Definition refill (o : osc) : osc :=
  if frames_played o =? -1 then
    let o1 :=
      match PaUtil_ReadRingBuffer (rbuf o) with
      | None => set_curr_note o waiting_note
      | Some (n, rest) => set_curr_note (set_rbuf o rest) n
      end in
    let o2 :=
      if type (curr_note o1) =? END
      then set_curr_note (set_finished o1 (sem_post (finished o1))) waiting_note
      else o1 in
    set_frames o2 0 (frames_of_ms (ms (curr_note o2)))
  else o.

(** ** getNextFrame *)

(** [table[k]].  An index outside the table is undefined in C; the model
    reads silence there. *)
Definition table_at (tbl : list float) (k : Z) : float :=
  if (0 <=? k) && (k <? Z.of_nat (length tbl))
  then nth (Z.to_nat k) tbl (S754_zero false)
  else S754_zero false.

Definition wrap_phase (p : double) : double :=
  if Double.geb p (Double.of_Z TABLE_SIZE)
  then Double.sub p (Double.of_Z TABLE_SIZE)
  else p.

Definition advance_phase (p h : double) : double :=
  wrap_phase (Double.add p (Double.div h (Double.of_Z TABLE_SIZE))).

Definition getNextFrame (o : osc) : frame * osc :=
  let ty := type (curr_note o) in
  if (ty =? REST) || (ty =? WAITING) || (ty =? END) then
    (mkFrame (Single.of_Z 0) (Single.of_Z 0), o)
  else
    let f := mkFrame (table_at (table o) (double_to_int (left_phase o)))
                     (table_at (table o) (double_to_int (right_phase o))) in
    (f, set_phases o (advance_phase (left_phase o) (hz (curr_note o)))
                     (advance_phase (right_phase o) (hz (curr_note o)))).

(** ** paCallback, second loop: envelope, rendering and mixing *)

(** The value stored in [vol] for frame [i] of the buffer. *)
Definition buffer_ramp (i framesPerBuffer : Z) : float :=
  Single.div (Single.of_Z (to_int (i + 1))) (Single.of_Z framesPerBuffer).

Definition envelope (i framesPerBuffer : Z) (o : osc) : double :=
  if frames_played o =? 0 then
    Single.to_double (buffer_ramp i framesPerBuffer)
  else if to_ulong (num_frames o - framesPerBuffer)
          <=? to_ulong (frames_played o) then
    Double.sub (Double.of_Z 1) (Single.to_double (buffer_ramp i framesPerBuffer))
  else Double.of_Z 1.

Definition mix (acc temp : frame) : frame :=
  mkFrame
    (Single.add (left acc) (Single.div (left temp) (Single.of_Z NUM_OSCILLATORS)))
    (Single.add (right acc) (Single.div (right temp) (Single.of_Z NUM_OSCILLATORS))).

(** The inner loop over the oscillators for frame [i]. *)
Fixpoint mix_voices (i framesPerBuffer : Z) (oscs : list osc) (curr_frame : frame)
  : list osc * frame :=
  match oscs with
  | [] => ([], curr_frame)
  | o :: rest =>
      let o1 := set_vol o (envelope i framesPerBuffer o) in
      let '(temp_frame, o2) := getNextFrame o1 in
      let '(rest', out) :=
        mix_voices i framesPerBuffer rest (mix curr_frame temp_frame) in
      (o2 :: rest', out)
  end.

(** The loop over the frames: [n] frames remain, [i] is the next one.  The
    output buffer is interleaved: left sample, then right sample. *)
Fixpoint render_frames (n : nat) (i framesPerBuffer : Z) (oscs : list osc)
  : list osc * list float :=
  match n with
  | O => (oscs, [])
  | S n' =>
      let '(oscs1, f) :=
        mix_voices i framesPerBuffer oscs
                   (mkFrame (Single.of_Z 0) (Single.of_Z 0)) in
      let '(oscs2, buffer) := render_frames n' (i + 1) framesPerBuffer oscs1 in
      (oscs2, left f :: right f :: buffer)
  end.

(** ** paCallback, third loop: bookkeeping *)

Definition advance (framesPerBuffer : Z) (o : osc) : osc :=
  if type (curr_note o) =? WAITING then o
  else set_frames o
         (to_int (to_ulong (to_ulong (frames_played o) + framesPerBuffer)))
         (num_frames o).

Definition forget (o : osc) : osc :=
  if num_frames o <=? to_ulong (frames_played o)
  then set_frames o (-1) 0
  else o.

Definition bookkeep (framesPerBuffer : Z) (o : osc) : osc :=
  forget (advance framesPerBuffer o).

Definition paCallback (framesPerBuffer : Z) (oscs : list osc)
  : list osc * list float :=
  let oscs1 := map refill oscs in
  let '(oscs2, buffer) :=
    render_frames (Z.to_nat framesPerBuffer) 0 framesPerBuffer oscs1 in
  (map (bookkeep framesPerBuffer) oscs2, buffer).

(** ** The control API *)

Fixpoint update_osc (id : nat) (f : osc -> osc) (oscs : list osc) : list osc :=
  match oscs, id with
  | [], _ => []
  | o :: rest, O => f o :: rest
  | o :: rest, S id' => o :: update_osc id' f rest
  end.

Definition enqueue (n : note) (o : osc) : osc :=
  set_rbuf o (PaUtil_WriteRingBuffer (rbuf o) n).

(** [id] and [ms] are [unsigned int]; [n.ms = ms] converts to [int]. *)
Definition playOsc (id ms : Z) (hz : double) (oscillators : list osc) : list osc :=
  if NUM_OSCILLATORS <=? id then oscillators
  else update_osc (Z.to_nat id) (enqueue (mkNote NOTE (to_int ms) hz)) oscillators.

Definition restOsc (id ms : Z) (oscillators : list osc) : list osc :=
  if NUM_OSCILLATORS <=? id then oscillators
  else update_osc (Z.to_nat id)
         (enqueue (mkNote REST (to_int ms) (Double.of_Z 0))) oscillators.

Definition endOsc (id : Z) (oscillators : list osc) : list osc :=
  if NUM_OSCILLATORS <=? id then oscillators
  else update_osc (Z.to_nat id)
         (enqueue (mkNote END 0 (Double.of_Z 0))) oscillators.

(** ** Tables and oscillators *)

Record tables := mkTables {
  noise : list float;
  sine : list float;
  saw : list float
}.

(** The double nearest to 3.14159265358979323846 *)
Definition M_PI : double := S754_finite false 7074237752028440 (-51).

(** The indices [0 .. TABLE_SIZE - 1] of a table-filling loop. *)
Definition table_indices : list Z :=
  map Z.of_nat (seq 0 (Z.to_nat TABLE_SIZE)).

Section InitTables.

(** [sin] of the C mathematical library, on doubles. *)
Variable sin : double -> double.

Definition sine_sample (i : Z) : float :=
  Single.of_double
    (sin (Double.mul
            (Double.mul (Double.div (Double.of_Z i) (Double.of_Z TABLE_SIZE))
                        M_PI)
            (Double.of_Z 2))).

Definition saw_sample (i : Z) : float :=
  Single.of_double
    (Double.sub (Double.of_Z 1)
       (Double.mul (Double.of_Z 2)
          (Single.to_double
             (Single.div (Single.of_Z i) (Single.of_Z TABLE_SIZE))))).

Definition noise_sample (i : Z) : float :=
  Single.of_double
    (sin (Double.mul
            (Double.mul (Double.div (Double.of_Z i) (Double.of_Z TABLE_SIZE))
                        M_PI)
            (Double.of_Z 2))).

Definition initTables : tables :=
  let sine := map sine_sample table_indices in
  let saw := map saw_sample table_indices in
  let noise := map noise_sample table_indices in
  mkTables noise sine saw.

End InitTables.

(** One iteration of the loop of initOscillators; the table is assigned
    after the loop.  [curr_note] is not assigned: the array is a global and
    starts zeroed. *)
Definition init_osc (tbl : list float) : osc :=
  mkOsc [] tbl (Double.of_Z 0) (Double.of_Z 0) (Double.of_Z 0)
        (-1) (to_ulong (-1)) (mkNote 0 0 (S754_zero false)) 0.

Definition initOscillators (t : tables) : list osc :=
  [init_osc (sine t); init_osc (saw t)].


(** [termSynth], for one voice: wait on its semaphore. *)
Definition termSynth_wait (o : osc) : option osc :=
  match sem_wait (finished o) with
  | Some c => Some (set_finished o c)
  | None => None
  end.

(** * Notions for the properties *)

(** ** One voice through a callback

    The callback treats the oscillators independently, apart from the mixed
    output; [voice_callback] is what one invocation does to one of them. *)

Definition voice_frame (i framesPerBuffer : Z) (o : osc) : osc :=
  snd (getNextFrame (set_vol o (envelope i framesPerBuffer o))).

Fixpoint voice_frames (n : nat) (i framesPerBuffer : Z) (o : osc) : osc :=
  match n with
  | O => o
  | S n' => voice_frames n' (i + 1) framesPerBuffer (voice_frame i framesPerBuffer o)
  end.

Definition voice_callback (framesPerBuffer : Z) (o : osc) : osc :=
  bookkeep framesPerBuffer
    (voice_frames (Z.to_nat framesPerBuffer) 0 framesPerBuffer (refill o)).

(** [k] callbacks on a voice whose queue is left alone. *)
Definition run (k : nat) (o : osc) : osc :=
  Nat.iter k (voice_callback FRAMES_PER_BUFFER) o.

(** [n] consecutive calls of getNextFrame on a voice. *)
Definition render_samples (n : nat) (o : osc) : osc :=
  Nat.iter n (fun o' => snd (getNextFrame o')) o.

Arguments voice_callback : simpl never.
Arguments frames_of_ms : simpl never.
Arguments to_ulong : simpl never.
Arguments to_int : simpl never.

(** Record projections applied to updated records. *)
Ltac fields :=
  cbn [rbuf table vol left_phase right_phase frames_played num_frames
       curr_note finished set_rbuf set_vol set_phases set_frames
       set_curr_note set_finished type ms hz] in *.

(** Rendering a frame touches the volume and the phases only. *)
Definition same_control (a b : osc) : Prop :=
  rbuf a = rbuf b /\ table a = table b /\
  frames_played a = frames_played b /\ num_frames a = num_frames b /\
  curr_note a = curr_note b /\ finished a = finished b.

Definition silence : frame := mkFrame (Single.of_Z 0) (Single.of_Z 0).

Definition saw_table : list float := map saw_sample table_indices.

(** A voice as initOscillators leaves the second oscillator, with [q] in its
    ring buffer. *)
Definition saw_voice (q : list note) : osc := set_rbuf (init_osc saw_table) q.

(** The event of a voice with another tag. *)
Definition retag (o : osc) (ty : Z) : osc :=
  set_curr_note o (mkNote ty (ms (curr_note o)) (hz (curr_note o))).

(** ** Schedules of control calls and callbacks *)

Inductive action :=
| Play (id ms : Z) (hz : double)
| Rest (id ms : Z)
| End (id : Z)
| Callback.

Definition step (a : action) (oscs : list osc) : list osc :=
  match a with
  | Play id ms hz => playOsc id ms hz oscs
  | Rest id ms => restOsc id ms oscs
  | End id => endOsc id oscs
  | Callback => fst (paCallback FRAMES_PER_BUFFER oscs)
  end.

(** The states that control calls and callbacks lead to from
    initialisation. *)
Inductive reachable (sin : double -> double) : list osc -> Prop :=
| reachable_init : reachable sin (initOscillators (initTables sin))
| reachable_step a oscs : reachable sin oscs -> reachable sin (step a oscs).

(** A control call whose duration fits the [int] field of the event. *)
Definition api_action (a : action) : Prop :=
  match a with
  | Play _ ms _ => 0 <= ms < 2 ^ 31
  | Rest _ ms => 0 <= ms < 2 ^ 31
  | End _ => True
  | Callback => True
  end.

(** The states that such control calls and callbacks lead to. *)
Inductive well_used (sin : double -> double) : list osc -> Prop :=
| well_used_init : well_used sin (initOscillators (initTables sin))
| well_used_step a oscs :
    api_action a -> well_used sin oscs -> well_used sin (step a oscs).

(** What happens to one voice: the control thread enqueues an event, or
    the audio thread runs the callback. *)
Inductive voice_action :=
| Enqueue (n : note)
| Render.

Definition voice_step (a : voice_action) (o : osc) : osc :=
  match a with
  | Enqueue n => enqueue n o
  | Render => voice_callback FRAMES_PER_BUFFER o
  end.

Fixpoint voice_exec (s : list voice_action) (o : osc) : osc :=
  match s with
  | [] => o
  | a :: s' => voice_exec s' (voice_step a o)
  end.

(** The number of callbacks of a schedule. *)
Fixpoint renders (s : list voice_action) : nat :=
  match s with
  | [] => 0
  | Render :: s' => S (renders s')
  | Enqueue _ :: s' => renders s'
  end.

Definition not_end_enqueue (a : voice_action) : Prop :=
  match a with
  | Enqueue n => type n <> END
  | Render => True
  end.

(** ** The states of a voice *)

(** A voice between two callbacks is idle, or it is on an event that it
    has not finished. *)
Definition idle (o : osc) : Prop := frames_played o = -1.

Definition busy (o : osc) : Prop :=
  210 <= frames_played o < 2 ^ 31 /\
  frames_played o < num_frames o <= 2 ^ 64 - 2 ^ 31 /\
  type (curr_note o) <> WAITING.

(** Callbacks until the voice leaves an event on which it has played [fp]
    of [nf] frames: the count of buffers up to [nf], or up to the point
    where the [int] counter [frames_played] passes [INT_MAX]. *)
Definition buffers_left (fp nf : Z) : Z :=
  (Z.min nf (2 ^ 31) - fp + 209) / 210.

(** Callbacks a voice spends on a newly loaded event of [nf] frames. *)
Definition buffers_of (nf : Z) : Z := Z.max 1 (buffers_left 0 nf).

(** The voice holds event [n], with [q] still queued and the semaphore
    at [c]. *)
Definition on_event (o : osc) (q : list note) (n : note) (c : nat) : Prop :=
  rbuf o = q /\ curr_note o = n /\ finished o = c.

(** An event that the voice plays or rests on: its tag is neither [END]
    nor [WAITING], and its frame count leaves room for the counter. *)
Definition playable (n : note) : Prop :=
  type n <> END /\ type n <> WAITING /\
  frames_of_ms (ms n) <= 2 ^ 64 - 2 ^ 31.

(** An event as playOsc and restOsc enqueue it, with a duration that the
    [int] field [ms] holds. *)
Definition api_event (n : note) : Prop :=
  (type n = NOTE \/ type n = REST) /\ 0 <= ms n < 2 ^ 31.

Definition queued_ok (n : note) : Prop := api_event n \/ type n = END.

Definition voice_inv (o : osc) : Prop :=
  (idle o \/ busy o) /\ Forall queued_ok (rbuf o).

(** The callbacks event [n] keeps a voice. *)
Definition event_buffers (n : note) : nat :=
  Z.to_nat (buffers_of (frames_of_ms (ms n))).

(** Callbacks until a voice is through with the event it is on, if any. *)
Definition settle_time (o : osc) : nat :=
  if frames_played o =? -1 then 0%nat
  else Z.to_nat (buffers_left (frames_played o) (num_frames o)).

(** Callbacks an idle voice needs to play the events [evs]. *)
Fixpoint drain_time (evs : list note) : nat :=
  match evs with
  | [] => 0
  | n :: rest => event_buffers n + drain_time rest
  end.

Definition no_end (q : list note) : Prop := Forall (fun n => type n <> END) q.

(** The queue of a voice holds the events [evs] of the control API, then
    an End event, then events that are not End events. *)
Definition end_pending (o : osc) (evs : list note) : Prop :=
  (idle o \/ busy o) /\ Forall api_event evs /\
  exists e later, type e = END /\ no_end later /\ rbuf o = evs ++ e :: later.

(** Both channels of a voice read the table at the same place. *)
Definition phases_eq (o : osc) : Prop := left_phase o = right_phase o.

(** An interleaved buffer whose right sample repeats the left one. *)
Fixpoint channels_equal (buffer : list float) : Prop :=
  match buffer with
  | [] => True
  | l :: r :: rest => l = r /\ channels_equal rest
  | _ => False
  end.

(** ** Real values of floating-point numbers *)

Definition bpow (e : Z) : R := powerRZ 2 e.

(** The real number a finite float stands for; 0 for the others. *)
Definition SFval (x : spec_float) : R :=
  match x with
  | S754_finite s m e =>
      ((if s then - IZR (Zpos m) else IZR (Zpos m)) * bpow e)%R
  | _ => 0%R
  end.

(** A zero or a positive finite number of the format. *)
Definition Fin (prec emax : Z) (x : spec_float) : Prop :=
  match x with
  | S754_zero _ => True
  | S754_finite false m e => bounded prec emax m e = true
  | _ => False
  end.

(** The error bound of one rounding of the non-negative real [x]: one unit
    in the last place. *)
Definition ulp_bound (prec emax : Z) (x : R) : R :=
  Rmax (x * bpow (1 - prec)) (bpow (emin prec emax)).

(** 2^-52 *)
Definition eps64 : R := (/ 4503599627370496)%R.

(** One double rounding of a real [X] of moderate size. *)
Definition near64 (v X : R) : Prop :=
  (X - (X * eps64 + eps64) <= v <= X + (X * eps64 + eps64))%R.

(** A phase accumulator in [0, TABLE_SIZE): a double of the format that
    compares so. *)
Definition phase_ok (p : double) : Prop :=
  Double.valid p = true /\
  Double.geb p (Double.of_Z 0) = true /\
  SFltb p (Double.of_Z TABLE_SIZE) = true.

(** A frequency in [0, 20000] Hz. *)
Definition hz_ok (h : double) : Prop :=
  Double.valid h = true /\
  Double.geb h (Double.of_Z 0) = true /\
  SFleb h (Double.of_Z 20000) = true.

(** [x] is the rational [num / den] up to the rounding of a [float] of
    magnitude at most 1: [| x - num / den | <= 2^-25], decided on integers. *)
Definition float_near (x : spec_float) (num den : Z) : bool :=
  match x with
  | S754_zero _ => Z.abs num * 2 ^ 25 <=? den
  | S754_finite s m (Zneg k) =>
      Z.abs (cond_Zopp s (Zpos m) * den - num * 2 ^ Zpos k) * 2 ^ 25
      <=? den * 2 ^ Zpos k
  | _ => false
  end.

(** The indices [0 .. FRAMES_PER_BUFFER - 1] of the frames of a buffer. *)
Definition frame_indices : list Z :=
  map Z.of_nat (seq 0 (Z.to_nat FRAMES_PER_BUFFER)).

(** ** Formulas of the specification *)

(** The frame count of the specification: [duration_ms / 1000 *
    sample_rate] rounded to the nearest integer. *)
Definition spec_frames_total (ms : Z) : Z :=
  (2 * (ms * SAMPLE_RATE) + 1000) / 2000.

(** The rendered duration of the specification, in samples:
    [ceil (duration_ms / 1000 * sample_rate / frames_per_buffer)
     * frames_per_buffer]. *)
Definition spec_rendered_samples (ms : Z) : Z :=
  (ms * SAMPLE_RATE + (1000 * FRAMES_PER_BUFFER - 1))
  / (1000 * FRAMES_PER_BUFFER) * FRAMES_PER_BUFFER.

(** The longest duration, in ms, whose frames the [int] counter
    [frames_played] can count: about thirteen and a half hours. *)
Definition MS_MAX : Z := 48695776.

(** * Further notions: the callback, the control calls and the tables *)

(** The state after the control calls and callbacks [s], the oldest first. *)
Definition exec (s : list action) (oscs : list osc) : list osc :=
  fold_left (fun st a => step a st) s oscs.

(** The tags that getNextFrame renders as silence. *)
Definition quiet_tag (ty : Z) : Prop := ty = REST \/ ty = WAITING \/ ty = END.

(** A voice that will not sound in the next callback: it is on an event
    with a silent tag, or it is idle and the oldest event of its queue, if
    there is one, has a silent tag. *)
Definition silent (o : osc) : Prop :=
  if frames_played o =? -1 then
    match rbuf o with
    | [] => True
    | n :: _ => quiet_tag (type n)
    end
  else quiet_tag (type (curr_note o)).

(** The End events of a queue. *)
Definition count_end (q : list note) : nat :=
  length (filter (fun n => type n =? END) q).

(** The event an idle voice is on after the first loop of the callback,
    given its queue. *)
Definition next_event (q : list note) : note :=
  match q with
  | [] => waiting_note
  | n :: _ => if type n =? END then waiting_note else n
  end.

(** [o'] is [o] with at most one more event at the tail of its queue, and
    nothing else changed. *)
Definition queue_grown (o o' : osc) : Prop :=
  o' = set_rbuf o (rbuf o') /\
  (rbuf o' = rbuf o \/ exists n, rbuf o' = rbuf o ++ [n]).

(** What a control call on oscillator [id] may do to the oscillators. *)
Definition control_call (f : list osc -> list osc) (id : Z) : Prop :=
  forall oscs,
    Forall2 queue_grown oscs (f oscs) /\
    (NUM_OSCILLATORS <= id -> f oscs = oscs) /\
    (forall k, k <> Z.to_nat id -> nth_error (f oscs) k = nth_error oscs k).

(** A control call whose frequency, if it has one, is in [0, 20000] Hz. *)
Definition in_range (a : action) : Prop :=
  match a with
  | Play _ _ h => hz_ok h
  | _ => True
  end.

(** Both table reads of getNextFrame are inside the table of the voice. *)
Definition lookups_in_table (o : osc) : Prop :=
  0 <= double_to_int (left_phase o) < Z.of_nat (length (table o)) /\
  0 <= double_to_int (right_phase o) < Z.of_nat (length (table o)).

(** The control call [a] enqueues an End event on voice [k]. *)
Definition ends_voice (k : nat) (a : action) : Prop :=
  match a with
  | End id => id < NUM_OSCILLATORS /\ Z.to_nat id = k
  | _ => False
  end.

(** [x] is the rational [num / den] up to [2^-k], decided on integers. *)
Definition float_close (k : Z) (x : spec_float) (num den : Z) : bool :=
  match x with
  | S754_zero _ => Z.abs num * 2 ^ k <=? den
  | S754_finite s m (Zneg e) =>
      Z.abs (cond_Zopp s (Zpos m) * den - num * 2 ^ Zpos e) * 2 ^ k
      <=? den * 2 ^ Zpos e
  | _ => false
  end.

(** The sawtooth table at index [i] is [1 - 2 i / TABLE_SIZE] up to
    [2^-k]. *)
Definition saw_entry_close (k i : Z) : bool :=
  float_close k (table_at saw_table i) (TABLE_SIZE - 2 * i) TABLE_SIZE.

(** The callbacks after which an event of more than [MS_MAX] ms is
    dropped: the buffers that fit below INT_MAX frames. *)
Definition CUT_BUFFERS : Z := 10226113.

(** The phases of a voice are in [0, TABLE_SIZE), and the frequencies of
    its event and of the events of its queue are in [0, 20000] Hz. *)
Definition phase_inv (o : osc) : Prop :=
  phase_ok (left_phase o) /\ phase_ok (right_phase o) /\
  hz_ok (hz (curr_note o)) /\ Forall (fun n => hz_ok (hz n)) (rbuf o).

(** The tags that the control calls and the callback give to the event of
    a voice and to the events of its queue. *)
Definition api_tags (o : osc) : Prop :=
  In (type (curr_note o)) [NOTE; REST; WAITING] /\
  Forall (fun n => In (type n) [NOTE; REST; END]) (rbuf o).

(** A voice in the middle of an event that playOsc or restOsc enqueued:
    the frame count is that of the duration, and the frames played are a
    whole number of buffers, at least one, below the frame count. *)
Definition on_api_event (o : osc) : Prop :=
  (type (curr_note o) = NOTE \/ type (curr_note o) = REST) /\
  0 <= ms (curr_note o) < 2 ^ 31 /\
  num_frames o = frames_of_ms (ms (curr_note o)) /\
  FRAMES_PER_BUFFER <= frames_played o < num_frames o /\
  frames_played o < 2 ^ 31 /\
  frames_played o mod FRAMES_PER_BUFFER = 0.

(** The state of a voice between two callbacks. *)
Definition between_callbacks (o : osc) : Prop :=
  (idle o \/ on_api_event o) /\ Forall queued_ok (rbuf o).

(** [ends_voice], decided. *)
Definition ends_voiceb (k : nat) (a : action) : bool :=
  match a with
  | End id => (id <? NUM_OSCILLATORS) && (Z.to_nat id =? k)%nat
  | _ => false
  end.

(** The endOsc calls for voice [k] in a schedule. *)
Definition endOsc_calls (k : nat) (s : list action) : nat :=
  length (filter (ends_voiceb k) s).

(** A mixed frame that a silent voice leaves as it is. *)
Definition settled (f : frame) : Prop := mix f silence = f.

(** The control call with oscillator id [id] writes to the queue of voice
    [k]. *)
Definition targets (id : Z) (k : nat) : bool :=
  (id <? NUM_OSCILLATORS) && (Z.to_nat id =? k)%nat.

(** What a control call or a callback is for voice [k]: the event that it
    enqueues on that voice, a callback, or nothing. *)
Definition voice_view (k : nat) (a : action) : list voice_action :=
  match a with
  | Play id m h =>
      if targets id k then [Enqueue (mkNote NOTE (to_int m) h)] else []
  | Rest id m =>
      if targets id k then [Enqueue (mkNote REST (to_int m) (Double.of_Z 0))]
      else []
  | End id =>
      if targets id k then [Enqueue (mkNote END 0 (Double.of_Z 0))] else []
  | Callback => [Render]
  end.

Definition is_callback (a : action) : bool :=
  match a with
  | Callback => true
  | _ => false
  end.

(** The callbacks of a schedule. *)
Definition callbacks (s : list action) : nat := length (filter is_callback s).

(** A Note or a Rest whose frames the [int] counter frames_played can
    count. *)
Definition short_event (n : note) : Prop :=
  (type n = NOTE \/ type n = REST) /\ 0 <= ms n <= MS_MAX.

(** * The process: PortAudio, the standard output and exit

    initSynth and termSynth drive the PortAudio library, print and may end
    the process.  PortAudio is not part of the sources: the model takes the
    value that each of its functions returns as given, and records the
    calls that the program makes, in their order. *)

Inductive call :=
| printf (text : String.string)
| Pa_Initialize
| Pa_GetDefaultOutputDevice
| Pa_OpenStream (device channelCount sampleRate framesPerBuffer : Z)
| Pa_StartStream
| Pa_StopStream
| Pa_CloseStream
| Pa_Terminate
| Pa_GetErrorText (err : Z)
| free (i : nat).

(** The library as the program meets it: the two constants that the
    program compares with, the text that Pa_GetErrorText returns for an
    error code, and the value each of the other calls returns (each of
    them is called at most once). *)
Record portaudio := mkPortaudio {
  paNoError : Z;
  paNoDevice : Z;
  error_text_result : Z -> String.string;
  initialize_result : Z;
  default_output_device : Z;
  open_stream_result : Z;
  start_stream_result : Z;
  stop_stream_result : Z;
  close_stream_result : Z
}.

(** How a function ends: it returns, the process exits, or the thread
    blocks in sem_wait. *)
Inductive outcome (A : Type) : Type :=
| Returns (a : A)
| Exits (status : Z)
| Blocks.

Arguments Returns {A} a.
Arguments Exits {A} status.
Arguments Blocks {A}.

(** A computation: the calls made, and how it ends. *)
Definition io (A : Type) : Type := (list call * outcome A)%type.

Definition ret {A : Type} (a : A) : io A := ([], Returns a).

Definition bind {A B : Type} (m : io A) (k : A -> io B) : io B :=
  match m with
  | (t, Returns a) => let (t', r) := k a in (t ++ t', r)
  | (t, Exits status) => (t, Exits status)
  | (t, Blocks) => (t, Blocks)
  end.

Notation "x <- m ;; k" := (bind m (fun x => k))
  (at level 61, m at next level, right associativity).
Notation "m ;; k" := (bind m (fun _ => k))
  (at level 61, right associativity).

Definition perform (c : call) : io unit := ([c], Returns tt).

Definition exit {A : Type} (status : Z) : io A := ([], Exits status).

Definition newline : String.string :=
  String.String (Ascii.ascii_of_nat 10) String.EmptyString.

(** What [error] prints, given the text of the error. *)
Definition error_message (text : String.string) : String.string :=
  String.append "Error message: "%string (String.append text newline).

(** [error]: ask PortAudio for the text of the error, print it and exit
    with -1. *)
Definition error {A : Type} (pa : portaudio) (err : Z) : io A :=
  perform (Pa_GetErrorText err);;
  perform (printf (error_message (error_text_result pa err)));;
  exit (-1).

(** [if (err != paNoError) { printf(msg); error(err); }] *)
Definition check (pa : portaudio) (err : Z) (msg : String.string) : io unit :=
  if err =? paNoError pa then ret tt
  else perform (printf (String.append msg newline));; error pa err.

Definition initSynth (pa : portaudio) (sin : double -> double)
  : io (tables * list osc) :=
  let t := initTables sin in
  let oscillators := initOscillators t in
  perform Pa_Initialize;;
  check pa (initialize_result pa) "Failed to initialize"%string;;
  perform Pa_GetDefaultOutputDevice;;
  (if default_output_device pa =? paNoDevice pa
   then perform (printf (String.append "No default output device"%string
                                       newline));;
        error pa (paNoError pa)
   else ret tt);;
  perform (Pa_OpenStream (default_output_device pa) 2 SAMPLE_RATE
                         FRAMES_PER_BUFFER);;
  check pa (open_stream_result pa) "Failed to open stream"%string;;
  perform Pa_StartStream;;
  check pa (start_stream_result pa) "StartStream failed"%string;;
  ret (t, oscillators).

(** The loop of termSynth: wait for oscillator [i], then free its ring
    buffer. *)
Fixpoint termSynth_loop (i : nat) (oscs : list osc) : io (list osc) :=
  match oscs with
  | [] => ret []
  | o :: rest =>
      match termSynth_wait o with
      | None => ([], Blocks)
      | Some o' =>
          perform (free i);;
          rest' <- termSynth_loop (S i) rest;;
          ret (o' :: rest')
      end
  end.

Definition termSynth (pa : portaudio) (oscillators : list osc)
  : io (list osc) :=
  oscs <- termSynth_loop 0 oscillators;;
  perform Pa_StopStream;;
  check pa (stop_stream_result pa) "StopStream failed"%string;;
  perform Pa_CloseStream;;
  check pa (close_stream_result pa) "Failed to close stream"%string;;
  perform Pa_Terminate;;
  ret oscs.

(** A call of the PortAudio library. *)
Definition is_pa_call (c : call) : bool :=
  match c with
  | printf _ | free _ => false
  | _ => true
  end.

(** The calls of initSynth when nothing fails. *)
Definition init_calls (pa : portaudio) : list call :=
  [Pa_Initialize; Pa_GetDefaultOutputDevice;
   Pa_OpenStream (default_output_device pa) 2 44100 210; Pa_StartStream].

(** The calls that [error] makes for the error code [err], after the
    message [msg] was printed. *)
Definition error_calls (pa : portaudio) (msg : String.string) (err : Z)
  : list call :=
  [printf msg; Pa_GetErrorText err;
   printf (error_message (error_text_result pa err))].

(** The four checks of initSynth pass. *)
Definition init_ok (pa : portaudio) : bool :=
  (initialize_result pa =? paNoError pa)
  && negb (default_output_device pa =? paNoDevice pa)
  && (open_stream_result pa =? paNoError pa)
  && (start_stream_result pa =? paNoError pa).



(** * Properties *)

(** ** The callback, voice by voice *)

Lemma mix_voices_fst i fpb oscs acc :
  fst (mix_voices i fpb oscs acc) = map (voice_frame i fpb) oscs.
Proof.
  revert acc; induction oscs as [|o rest IH]; intros acc; simpl; [reflexivity|].
  unfold voice_frame at 1.
  destruct (getNextFrame (set_vol o (envelope i fpb o))) as [tf o2]; simpl.
  specialize (IH (mix acc tf)).
  destruct (mix_voices i fpb rest (mix acc tf)) as [rest' out]; simpl in *.
  now rewrite IH.
Qed.

Lemma render_frames_fst n : forall i fpb oscs,
  fst (render_frames n i fpb oscs) = map (voice_frames n i fpb) oscs.
Proof.
  induction n as [|n IH]; intros i fpb oscs; simpl.
  - now rewrite map_id.
  - pose proof (mix_voices_fst i fpb oscs silence) as Hm.
    unfold silence in Hm.
    destruct (mix_voices i fpb oscs _) as [oscs1 f]; simpl in Hm.
    specialize (IH (i + 1) fpb oscs1).
    destruct (render_frames n (i + 1) fpb oscs1) as [oscs2 buffer]; simpl in *.
    now rewrite IH, Hm, map_map.
Qed.

Lemma paCallback_fst fpb oscs :
  fst (paCallback fpb oscs) = map (voice_callback fpb) oscs.
Proof.
  unfold paCallback.
  pose proof (render_frames_fst (Z.to_nat fpb) 0 fpb (map refill oscs)) as Hr.
  destruct (render_frames _ 0 fpb (map refill oscs)) as [oscs2 buffer]; simpl in *.
  rewrite Hr, !map_map. reflexivity.
Qed.

Lemma same_control_refl o : same_control o o.
Proof. repeat split. Qed.

Lemma same_control_trans a b c :
  same_control a b -> same_control b c -> same_control a c.
Proof. unfold same_control; intuition congruence. Qed.

Lemma getNextFrame_control o : same_control (snd (getNextFrame o)) o.
Proof.
  unfold getNextFrame.
  destruct ((type (curr_note o) =? REST) || (type (curr_note o) =? WAITING)
            || (type (curr_note o) =? END)); simpl; repeat split.
Qed.

Lemma voice_frame_control i fpb o : same_control (voice_frame i fpb o) o.
Proof.
  unfold voice_frame.
  eapply same_control_trans; [apply getNextFrame_control|]. repeat split.
Qed.

Lemma voice_frames_control n : forall i fpb o,
  same_control (voice_frames n i fpb o) o.
Proof.
  induction n as [|n IH]; intros i fpb o; simpl.
  - apply same_control_refl.
  - eapply same_control_trans; [apply IH | apply voice_frame_control].
Qed.

Lemma bookkeep_control fpb a b :
  same_control a b -> same_control (bookkeep fpb a) (bookkeep fpb b).
Proof.
  intros (Hq & Ht & Hp & Hn & Hc & Hf).
  unfold bookkeep, advance, forget. rewrite Hc, Hp, Hn.
  destruct (type (curr_note b) =? WAITING); simpl; rewrite ?Hn, ?Hp;
    match goal with |- context [if ?c then _ else _] => destruct c end;
    simpl; repeat split; assumption.
Qed.

Lemma voice_callback_control fpb o :
  same_control (voice_callback fpb o) (bookkeep fpb (refill o)).
Proof. apply bookkeep_control, voice_frames_control. Qed.

(** ** Machine integer facts *)

Lemma to_ulong_small z : 0 <= z < 2 ^ 64 -> to_ulong z = z.
Proof. intros H. unfold to_ulong. now apply Z.mod_small. Qed.

Lemma to_ulong_range z : 0 <= to_ulong z < 2 ^ 64.
Proof. apply Z.mod_pos_bound. reflexivity. Qed.

Lemma to_ulong_neg z : - 2 ^ 64 <= z < 0 -> to_ulong z = z + 2 ^ 64.
Proof.
  intros H. unfold to_ulong.
  replace z with (z + 2 ^ 64 + (-1) * 2 ^ 64) at 1 by lia.
  rewrite Z_mod_plus_full. apply Z.mod_small. lia.
Qed.

Lemma to_int_small z : - 2 ^ 31 <= z < 2 ^ 31 -> to_int z = z.
Proof.
  intros H. unfold to_int. rewrite Z.mod_small; lia.
Qed.

Lemma to_int_wrap z : 2 ^ 31 <= z < 2 ^ 32 + 2 ^ 31 -> to_int z = z - 2 ^ 32.
Proof.
  intros H. unfold to_int.
  replace (z + 2 ^ 31) with (z - 2 ^ 32 + 2 ^ 31 + 1 * 2 ^ 32) by lia.
  rewrite Z_mod_plus_full, Z.mod_small; lia.
Qed.

(** [frames_played += framesPerBuffer] from a non-negative count. *)
Lemma advance_count fp :
  0 <= fp < 2 ^ 31 ->
  let fp' := to_int (to_ulong (to_ulong fp + FRAMES_PER_BUFFER)) in
  (fp + 210 < 2 ^ 31 -> fp' = fp + 210 /\ to_ulong fp' = fp + 210) /\
  (2 ^ 31 <= fp + 210 -> fp' = fp + 210 - 2 ^ 32 /\
                         to_ulong fp' = fp + 210 - 2 ^ 32 + 2 ^ 64).
Proof.
  intros H fp'. subst fp'. unfold FRAMES_PER_BUFFER.
  rewrite (to_ulong_small fp) by lia.
  rewrite (to_ulong_small (fp + 210)) by lia.
  split; intros H1.
  - rewrite to_int_small by lia. split; [reflexivity|]. apply to_ulong_small; lia.
  - rewrite to_int_wrap by lia. split; [reflexivity|]. apply to_ulong_neg; lia.
Qed.

(** * Floating-point rounding *)

(** ** Digits of the mantissa *)

Lemma digits2_pos_bounds p :
  2 ^ (Zpos (digits2_pos p) - 1) <= Zpos p < 2 ^ Zpos (digits2_pos p).
Proof.
  induction p as [p IH|p IH|]; cbn [digits2_pos].
  - rewrite Pos2Z.inj_succ. change (Zpos p~1) with (2 * Zpos p + 1).
    replace (Z.succ (Zpos (digits2_pos p)) - 1)
      with (Z.succ (Zpos (digits2_pos p) - 1)) by lia.
    rewrite !Z.pow_succ_r by lia.
    set (a := 2 ^ (Zpos (digits2_pos p) - 1)) in *.
    set (b := 2 ^ Zpos (digits2_pos p)) in *. clearbody a b. lia.
  - rewrite Pos2Z.inj_succ. change (Zpos p~0) with (2 * Zpos p).
    replace (Z.succ (Zpos (digits2_pos p)) - 1)
      with (Z.succ (Zpos (digits2_pos p) - 1)) by lia.
    rewrite !Z.pow_succ_r by lia.
    set (a := 2 ^ (Zpos (digits2_pos p) - 1)) in *.
    set (b := 2 ^ Zpos (digits2_pos p)) in *. clearbody a b. lia.
  - cbn. lia.
Qed.

Lemma Zdigits2_bounds m :
  0 < m -> 2 ^ (Zdigits2 m - 1) <= m < 2 ^ Zdigits2 m.
Proof.
  destruct m as [|p|p]; try lia. intros _. apply digits2_pos_bounds.
Qed.

Lemma Zdigits2_pos m : 0 < m -> 0 < Zdigits2 m.
Proof. destruct m; cbn; lia. Qed.

Lemma Zdigits2_nonneg m : 0 <= Zdigits2 m.
Proof. destruct m; cbn; lia. Qed.

Lemma Zdigits2_unique m d :
  0 < m -> 2 ^ (d - 1) <= m < 2 ^ d -> Zdigits2 m = d.
Proof.
  intros Hm [Hlo Hhi].
  pose proof (Zdigits2_bounds m Hm) as [Blo Bhi].
  pose proof (Zdigits2_pos m Hm) as Hd.
  assert (Hd0 : 0 < d).
  { destruct (Z_lt_le_dec 0 d) as [C|C]; [assumption|exfalso].
    assert (2 ^ d <= 2 ^ 0) by (apply Z.pow_le_mono_r; lia).
    change (2 ^ 0) with 1 in *. lia. }
  destruct (Z.lt_trichotomy (Zdigits2 m) d) as [C|[C|C]]; [exfalso| assumption |exfalso].
  - assert (2 ^ Zdigits2 m <= 2 ^ (d - 1)) by (apply Z.pow_le_mono_r; lia). lia.
  - assert (2 ^ d <= 2 ^ (Zdigits2 m - 1)) by (apply Z.pow_le_mono_r; lia). lia.
Qed.

Lemma Zdigits2_div_pow2 m k :
  0 < m -> 0 <= k < Zdigits2 m -> Zdigits2 (m / 2 ^ k) = Zdigits2 m - k.
Proof.
  intros Hm Hk. pose proof (Zdigits2_bounds m Hm) as [Blo Bhi].
  assert (Hp : 0 < 2 ^ k) by (apply Z.pow_pos_nonneg; lia).
  assert (E1 : 2 ^ (Zdigits2 m - 1) = 2 ^ (Zdigits2 m - k - 1) * 2 ^ k)
    by (rewrite <- Z.pow_add_r by lia; f_equal; lia).
  assert (E2 : 2 ^ Zdigits2 m = 2 ^ (Zdigits2 m - k) * 2 ^ k)
    by (rewrite <- Z.pow_add_r by lia; f_equal; lia).
  assert (Hlo : 2 ^ (Zdigits2 m - k - 1) <= m / 2 ^ k)
    by (apply Z.div_le_lower_bound; lia).
  assert (Hhi : m / 2 ^ k < 2 ^ (Zdigits2 m - k))
    by (apply Z.div_lt_upper_bound; lia).
  apply Zdigits2_unique; [|split; assumption].
  assert (0 < 2 ^ (Zdigits2 m - k - 1)) by (apply Z.pow_pos_nonneg; lia). lia.
Qed.

Lemma div_pow2_small m k :
  0 <= m -> Zdigits2 m <= k -> m / 2 ^ k = 0.
Proof.
  intros Hm Hk. destruct (Z.eq_dec m 0) as [->|Hne].
  - apply Z.div_0_l. apply Z.pow_nonzero; [lia|].
    pose proof (Zdigits2_nonneg 0). cbn in Hk. lia.
  - pose proof (Zdigits2_bounds m ltac:(lia)) as [_ Bhi].
    apply Z.div_small. split; [lia|].
    assert (2 ^ Zdigits2 m <= 2 ^ k)
      by (apply Z.pow_le_mono_r; pose proof (Zdigits2_nonneg m); lia).
    lia.
Qed.

(** ** Shifting the mantissa right *)

Lemma shr_1_m mrs :
  0 <= shr_m mrs -> shr_m (shr_1 mrs) = shr_m mrs / 2.
Proof.
  destruct mrs as [m r s]; cbn [shr_m shr_1]. intros Hm.
  destruct m as [|[p|p|]|p]; cbn [shr_m].
  - reflexivity.
  - change (Zpos p~1) with (2 * Zpos p + 1).
    apply Z.div_unique with (r := 1); lia.
  - change (Zpos p~0) with (2 * Zpos p).
    apply Z.div_unique with (r := 0); lia.
  - reflexivity.
  - lia.
Qed.

Lemma iter_pos_shr_1 p : forall mrs,
  0 <= shr_m mrs ->
  shr_m (iter_pos shr_1 p mrs) = shr_m mrs / 2 ^ Zpos p.
Proof.
  assert (Hnn : forall mrs, 0 <= shr_m mrs -> 0 <= shr_m (shr_1 mrs)).
  { intros mrs H. rewrite shr_1_m by assumption. apply Z.div_pos; lia. }
  induction p as [p IH|p IH|]; intros mrs Hm; cbn [iter_pos].
  - assert (H1 := Hnn _ Hm).
    assert (H2 : 0 <= shr_m (iter_pos shr_1 p (shr_1 mrs))).
    { rewrite IH by assumption. apply Z.div_pos; [assumption|].
      apply Z.pow_pos_nonneg; lia. }
    rewrite IH, IH, shr_1_m by assumption.
    rewrite !Z.div_div by (try apply Z.pow_pos_nonneg; lia).
    f_equal. change (Zpos p~1) with (2 * Zpos p + 1).
    replace (2 * Zpos p + 1) with (1 + Zpos p + Zpos p) by lia.
    rewrite !Z.pow_add_r by lia. change (2 ^ 1) with 2. ring.
  - assert (H2 : 0 <= shr_m (iter_pos shr_1 p mrs)).
    { rewrite IH by assumption. apply Z.div_pos; [assumption|].
      apply Z.pow_pos_nonneg; lia. }
    rewrite IH, IH by assumption.
    rewrite !Z.div_div by (try apply Z.pow_pos_nonneg; lia).
    f_equal. change (Zpos p~0) with (2 * Zpos p).
    replace (2 * Zpos p) with (Zpos p + Zpos p) by lia.
    rewrite !Z.pow_add_r by lia. ring.
  - rewrite shr_1_m by assumption. reflexivity.
Qed.

Lemma shr_m_shr mrs e n :
  0 <= shr_m mrs ->
  shr_m (fst (shr mrs e n)) = shr_m mrs / 2 ^ Z.max 0 n /\
  snd (shr mrs e n) = e + Z.max 0 n.
Proof.
  intros Hm. destruct n as [|p|p]; cbn [shr fst snd].
  - rewrite Z.max_id. change (2 ^ 0) with 1. rewrite Z.div_1_r. split; lia.
  - rewrite Z.max_r by lia. split; [apply iter_pos_shr_1; assumption | lia].
  - rewrite Z.max_l by lia. change (2 ^ 0) with 1. rewrite Z.div_1_r. split; lia.
Qed.

Lemma Zdigits2_succ m :
  0 <= m ->
  Zdigits2 (m + 1) = Zdigits2 m \/
  (m + 1 = 2 ^ Zdigits2 m /\ Zdigits2 (m + 1) = Zdigits2 m + 1).
Proof.
  intros Hm. destruct (Z.eq_dec m 0) as [->|Hne].
  - right. split; reflexivity.
  - pose proof (Zdigits2_bounds m ltac:(lia)) as [Blo Bhi].
    pose proof (Zdigits2_pos m ltac:(lia)) as Hd.
    destruct (Z.eq_dec (m + 1) (2 ^ Zdigits2 m)) as [E|E].
    + right. split; [assumption|].
      apply Zdigits2_unique; [lia|].
      replace (Zdigits2 m + 1 - 1) with (Zdigits2 m) by lia.
      rewrite Z.pow_add_r by lia. change (2 ^ 1) with 2. lia.
    + left. apply Zdigits2_unique; lia.
Qed.

Lemma Zdigits2_pow2 k : 0 <= k -> Zdigits2 (2 ^ k) = k + 1.
Proof.
  intros Hk. assert (0 < 2 ^ k) by (apply Z.pow_pos_nonneg; lia).
  apply Zdigits2_unique; [assumption|].
  replace (k + 1 - 1) with k by lia.
  rewrite Z.pow_add_r by lia. change (2 ^ 1) with 2. lia.
Qed.

(** ** Rounding a mantissa to the format *)

Section Rounding.

Variables prec emax : Z.
Hypothesis prec_pos : 0 < prec.
Hypothesis prec_lt_emax : prec < emax.

Local Abbreviation fexp := (SpecFloat.fexp prec emax).
Local Abbreviation emin := (SpecFloat.emin prec emax).
Local Abbreviation shr_fexp := (SpecFloat.shr_fexp prec emax).

Lemma fexp_spec z : fexp z = Z.max (z - prec) emin.
Proof. reflexivity. Qed.

Lemma emin_spec : emin = 3 - emax - prec.
Proof. reflexivity. Qed.

Lemma shr_record_of_loc_m m l : shr_m (shr_record_of_loc m l) = m.
Proof. destruct l as [|[| |]]; reflexivity. Qed.

Lemma shr_fexp_spec m e l :
  0 <= m ->
  let k := Z.max 0 (fexp (Zdigits2 m + e) - e) in
  shr_m (fst (shr_fexp m e l)) = m / 2 ^ k /\ snd (shr_fexp m e l) = e + k.
Proof.
  intros Hm k. unfold shr_fexp.
  pose proof (shr_m_shr (shr_record_of_loc m l) e
                (fexp (Zdigits2 m + e) - e)) as H.
  rewrite shr_record_of_loc_m in H. apply H, Hm.
Qed.

Lemma round_nearest_even_cases m l :
  round_nearest_even m l = m \/ round_nearest_even m l = m + 1.
Proof.
  destruct l as [|[| |]]; cbn [round_nearest_even]; auto.
  destruct (Z.even m); auto.
Qed.

(** The truncated mantissa is in the format. *)
Lemma truncated_canonical m e :
  0 <= m -> e <= fexp (Zdigits2 m + e) ->
  let e1 := fexp (Zdigits2 m + e) in
  fexp (Zdigits2 (m / 2 ^ (e1 - e)) + e1) = e1.
Proof.
  intros Hm Hal e1.
  destruct (Z_lt_le_dec (e1 - e) (Zdigits2 m)) as [C|C].
  - assert (0 < m) by (destruct m; cbn in C; lia).
    rewrite Zdigits2_div_pow2 by lia.
    replace (Zdigits2 m - (e1 - e) + e1) with (Zdigits2 m + e) by lia.
    reflexivity.
  - rewrite div_pow2_small by lia. cbn [Zdigits2].
    subst e1. rewrite !fexp_spec in *. lia.
Qed.

(** The second shift of binary_round_aux: the rounded mantissa is in the
    format, or it is the power of two above it. *)
Lemma renormalise m2 e1 :
  0 <= m2 ->
  fexp (Zdigits2 m2 + e1) = e1 \/
  (m2 = 2 ^ prec /\ fexp (Zdigits2 m2 + e1) = e1 + 1) ->
  let r := shr_fexp m2 e1 loc_Exact in
  0 <= shr_m (fst r) /\
  shr_m (fst r) * 2 ^ (snd r - e1) = m2 /\ e1 <= snd r /\
  fexp (Zdigits2 (shr_m (fst r)) + snd r) = snd r.
Proof.
  intros Hm H r. subst r.
  destruct (shr_fexp_spec m2 e1 loc_Exact Hm) as [E1 E2].
  rewrite E1, E2. destruct H as [H|[Hp H]]; rewrite H.
  - replace (e1 - e1) with 0 by lia. rewrite Z.max_id.
    replace (e1 + 0 - e1) with 0 by lia. replace (e1 + 0) with e1 by lia.
    change (2 ^ 0) with 1. rewrite Z.div_1_r, Z.mul_1_r.
    repeat split; first [lia | exact H].
  - replace (e1 + 1 - e1) with 1 by lia. rewrite Z.max_r by lia.
    replace (e1 + 1 - e1) with 1 by lia. change (2 ^ 1) with 2.
    assert (Hhalf : m2 / 2 = 2 ^ (prec - 1)).
    { rewrite Hp. replace prec with (prec - 1 + 1) at 1 by lia.
      rewrite Z.pow_add_r by lia. change (2 ^ 1) with 2.
      apply Z.div_mul. lia. }
    rewrite Hhalf.
    assert (0 < 2 ^ (prec - 1)) by (apply Z.pow_pos_nonneg; lia).
    repeat split; try lia.
    + rewrite Hp. replace prec with (prec - 1 + 1) at 2 by lia.
      rewrite Z.pow_add_r by lia. reflexivity.
    + rewrite Zdigits2_pow2 by lia.
      rewrite Hp, Zdigits2_pow2 in H by lia.
      rewrite !fexp_spec in *. lia.
Qed.

Lemma rounded_canonical m1 e1 :
  0 <= m1 -> fexp (Zdigits2 m1 + e1) = e1 ->
  fexp (Zdigits2 (m1 + 1) + e1) = e1 \/
  (m1 + 1 = 2 ^ prec /\ fexp (Zdigits2 (m1 + 1) + e1) = e1 + 1).
Proof.
  intros Hm Hc.
  destruct (Zdigits2_succ m1 Hm) as [E|[Ep E]]; rewrite E.
  - left. exact Hc.
  - pose proof (Zdigits2_nonneg m1) as Hd.
    rewrite !fexp_spec in *.
    destruct (Z_lt_le_dec (Zdigits2 m1 + e1 - prec) emin) as [C|C].
    + left. lia.
    + right. assert (Zdigits2 m1 = prec) by lia.
      split; [congruence | lia].
Qed.

(** The result of binary_round_aux on an aligned mantissa: the mantissa
    is truncated to the exponent of the format and then kept or
    incremented. *)
Lemma binary_round_aux_spec s m e l :
  0 <= m -> e <= fexp (Zdigits2 m + e) ->
  let e1 := fexp (Zdigits2 m + e) in
  let m1 := m / 2 ^ (e1 - e) in
  exists m2, (m2 = m1 \/ m2 = m1 + 1) /\
    ((m2 = 0 /\ binary_round_aux prec emax s m e l = S754_zero s) \/
     (exists m3 e3,
        Zpos m3 * 2 ^ (e3 - e1) = m2 /\ e1 <= e3 /\
        canonical_mantissa prec emax m3 e3 = true /\
        binary_round_aux prec emax s m e l =
          if e3 <=? emax - prec then S754_finite s m3 e3
          else S754_infinity s)).
Proof.
  intros Hm Hal e1 m1.
  assert (Hm1 : 0 <= m1) by (apply Z.div_pos; [|apply Z.pow_pos_nonneg]; lia).
  pose proof (truncated_canonical m e Hm Hal) as Hc1. fold e1 m1 in Hc1.
  unfold binary_round_aux.
  destruct (shr_fexp_spec m e l Hm) as [E1 E2].
  rewrite Z.max_r in E1, E2 by lia. fold e1 in E1, E2. fold m1 in E1.
  destruct (shr_fexp m e l) as [mrs' e'].
  cbn [fst snd] in E1, E2. rewrite E1.
  replace e' with e1 by lia.
  set (m2 := round_nearest_even m1 (loc_of_shr_record mrs')).
  assert (Hm2 : m2 = m1 \/ m2 = m1 + 1) by apply round_nearest_even_cases.
  assert (Hm2n : 0 <= m2) by lia.
  assert (Hc2 : fexp (Zdigits2 m2 + e1) = e1 \/
                (m2 = 2 ^ prec /\ fexp (Zdigits2 m2 + e1) = e1 + 1)).
  { destruct Hm2 as [->| ->]; [left; exact Hc1|].
    apply rounded_canonical; assumption. }
  destruct (renormalise m2 e1 Hm2n Hc2) as (R0 & R1 & R2 & R3).
  destruct (shr_fexp m2 e1 loc_Exact) as [mrs'' e''].
  cbn [fst snd] in R0, R1, R2, R3.
  exists m2. split; [exact Hm2|].
  destruct (shr_m mrs'') as [|m3|m3] eqn:E3; [left|right|lia].
  - split; [lia | reflexivity].
  - exists m3, e''. repeat split; try assumption.
    unfold canonical_mantissa. apply Z.eqb_eq. exact R3.
Qed.

End Rounding.

Lemma bpow_pos e : (0 < bpow e)%R.
Proof. apply powerRZ_lt. lra. Qed.

Lemma bpow_add a b : bpow (a + b) = (bpow a * bpow b)%R.
Proof. apply powerRZ_add. lra. Qed.

Lemma bpow_IZR k : 0 <= k -> bpow k = IZR (2 ^ k).
Proof.
  intros Hk. unfold bpow. rewrite <- (Z2Nat.id k Hk).
  rewrite <- pow_powerRZ, <- pow_IZR. reflexivity.
Qed.

Lemma bpow_le a b : a <= b -> (bpow a <= bpow b)%R.
Proof.
  intros H. replace b with (a + (b - a)) by lia.
  rewrite bpow_add, (bpow_IZR (b - a)) by lia.
  assert (0 < 2 ^ (b - a)) by (apply Z.pow_pos_nonneg; lia).
  assert (1 <= 2 ^ (b - a)) by lia.
  apply IZR_le in H1. pose proof (bpow_pos a). nra.
Qed.

(** [m * 2^k], in reals, moves the factor into the exponent. *)
Lemma IZR_shift m k e :
  0 <= k -> (IZR (m * 2 ^ k) * bpow e = IZR m * bpow (e + k))%R.
Proof.
  intros Hk. rewrite mult_IZR, <- bpow_IZR, bpow_add by assumption. ring.
Qed.

Lemma ulp_bound_pos prec emax x : (0 < ulp_bound prec emax x)%R.
Proof.
  unfold ulp_bound. pose proof (bpow_pos (emin prec emax)).
  pose proof (Rmax_r (x * bpow (1 - prec)) (bpow (emin prec emax))). lra.
Qed.

Lemma ulp_bound_mono prec emax x y :
  (x <= y)%R -> (ulp_bound prec emax x <= ulp_bound prec emax y)%R.
Proof.
  intros H. unfold ulp_bound. apply Rle_max_compat_r.
  pose proof (bpow_pos (1 - prec)). nra.
Qed.

Section RoundingReal.

Variables prec emax : Z.
Hypothesis prec_pos : 0 < prec.
Hypothesis prec_lt_emax : prec < emax.

Local Abbreviation fexp := (SpecFloat.fexp prec emax).
Local Abbreviation emin := (SpecFloat.emin prec emax).

(** The unit in the last place of an aligned mantissa. *)
Lemma ulp_aligned m e :
  0 <= m -> e <= fexp (Zdigits2 m + e) ->
  (bpow (fexp (Zdigits2 m + e)) <= ulp_bound prec emax (IZR m * bpow e))%R.
Proof.
  intros Hm Hal. unfold ulp_bound. rewrite fexp_spec in *.
  destruct (Z_le_gt_dec (Zdigits2 m + e - prec) emin) as [C|C].
  - rewrite Z.max_r by assumption. apply Rmax_r.
  - rewrite Z.max_l by lia.
    assert (0 < m).
    { destruct (Z.eq_dec m 0) as [->|]; [cbn [Zdigits2] in *; lia | lia]. }
    pose proof (Zdigits2_bounds m H) as [Blo _].
    pose proof (Zdigits2_pos m H).
    eapply Rle_trans; [|apply Rmax_l].
    replace (Zdigits2 m + e - prec)
      with ((Zdigits2 m - 1) + (e + (1 - prec))) by lia.
    rewrite 2!bpow_add, (bpow_IZR (Zdigits2 m - 1)) by lia.
    apply IZR_le in Blo.
    pose proof (bpow_pos e). pose proof (bpow_pos (1 - prec)).
    assert (0 < bpow e * bpow (1 - prec))%R by nra. nra.
Qed.

(** A canonical mantissa whose exponent is above the format's range
    stands for a number of at least [2^emax]. *)
Lemma canonical_overflow m3 e3 :
  canonical_mantissa prec emax m3 e3 = true -> emax - prec < e3 ->
  (bpow emax <= IZR (Zpos m3) * bpow e3)%R.
Proof.
  intros Hc He. unfold canonical_mantissa in Hc. apply Z.eqb_eq in Hc.
  rewrite fexp_spec, emin_spec in Hc.
  assert (Hd : Zpos (digits2_pos m3) = prec) by lia.
  pose proof (digits2_pos_bounds m3) as [Blo _]. rewrite Hd in Blo.
  apply IZR_le in Blo. rewrite <- bpow_IZR in Blo by lia.
  eapply Rle_trans; [apply (bpow_le emax (prec - 1 + e3)); lia|].
  rewrite bpow_add. pose proof (bpow_pos e3). nra.
Qed.

(** Rounding an aligned mantissa that brackets the real [X]: when [X]
    is not too large the result is a finite number of the format, at most
    one unit in the last place from [X]. *)
Lemma binary_round_aux_real m e l (X : R) :
  0 <= m -> e <= fexp (Zdigits2 m + e) ->
  (IZR m * bpow e <= X <= IZR (m + 1) * bpow e)%R ->
  (X + ulp_bound prec emax X < bpow emax)%R ->
  let r := binary_round_aux prec emax false m e l in
  Fin prec emax r /\ (Rabs (SFval r - X) <= ulp_bound prec emax X)%R.
Proof.
  intros Hm Hal [HXlo HXhi] Hov r.
  set (e1 := fexp (Zdigits2 m + e)) in *.
  set (m1 := m / 2 ^ (e1 - e)).
  assert (Hk : 0 <= e1 - e) by lia.
  assert (Hp : 0 < 2 ^ (e1 - e)) by (apply Z.pow_pos_nonneg; lia).
  assert (Hm1 : 0 <= m1) by (apply Z.div_pos; lia).
  assert (Hdiv : m1 * 2 ^ (e1 - e) <= m < (m1 + 1) * 2 ^ (e1 - e)).
  { pose proof (Z.div_mod m (2 ^ (e1 - e)) ltac:(lia)) as D.
    pose proof (Z.mod_pos_bound m (2 ^ (e1 - e)) Hp). fold m1 in D. nia. }
  assert (Hlo : (IZR m1 * bpow e1 <= IZR m * bpow e)%R).
  { replace e1 with (e + (e1 - e)) at 1 by lia.
    rewrite <- IZR_shift by lia. pose proof (bpow_pos e).
    apply Rmult_le_compat_r; [lra|]. apply IZR_le. lia. }
  assert (Hhi : (IZR (m + 1) * bpow e <= IZR (m1 + 1) * bpow e1)%R).
  { replace e1 with (e + (e1 - e)) at 1 by lia.
    rewrite <- IZR_shift by lia. pose proof (bpow_pos e).
    apply Rmult_le_compat_r; [lra|]. apply IZR_le. lia. }
  assert (Hu : (bpow e1 <= ulp_bound prec emax X)%R).
  { eapply Rle_trans; [apply ulp_aligned; assumption|].
    apply ulp_bound_mono. exact HXlo. }
  rewrite !plus_IZR in Hhi. rewrite plus_IZR in HXhi.
  destruct (binary_round_aux_spec prec emax prec_pos false m e l Hm Hal)
    as (m2 & Hm2 & Hr).
  fold e1 m1 in Hm2, Hr. fold r in Hr.
  assert (Hv : (IZR m2 * bpow e1 = IZR m1 * bpow e1 \/
                IZR m2 * bpow e1 = IZR m1 * bpow e1 + bpow e1)%R).
  { destruct Hm2 as [->| ->]; [left; reflexivity|right].
    rewrite plus_IZR. ring. }
  assert (Hclose : (Rabs (IZR m2 * bpow e1 - X) <= ulp_bound prec emax X)%R).
  { apply Rabs_le. destruct Hv as [-> | ->]; lra. }
  destruct Hr as [[H0 ->]|(m3 & e3 & Hval & He3 & Hcan & ->)].
  - split; [exact I|]. cbn [SFval]. rewrite H0 in Hclose.
    rewrite Rmult_0_l in Hclose. exact Hclose.
  - assert (Hreal : (IZR (Zpos m3) * bpow e3 = IZR m2 * bpow e1)%R).
    { rewrite <- Hval. replace e3 with (e1 + (e3 - e1)) at 1 by lia.
      symmetry. apply IZR_shift. lia. }
    destruct (Z.leb_spec e3 (emax - prec)) as [C|C].
    + split.
      * cbn [Fin]. unfold bounded. rewrite Hcan. apply Z.leb_le in C.
        rewrite C. reflexivity.
      * cbn [SFval]. rewrite Hreal. exact Hclose.
    + exfalso. pose proof (canonical_overflow m3 e3 Hcan C) as Hbig.
      rewrite Hreal in Hbig.
      pose proof (ulp_bound_pos prec emax X).
      destruct Hv as [E|E]; rewrite E in Hbig; lra.
Qed.

End RoundingReal.

(** ** Aligning a mantissa to a smaller exponent *)

Lemma Pos_iter_xO m d : Zpos (Pos.iter xO m d) = Zpos m * 2 ^ Zpos d.
Proof.
  induction d as [|d IH] using Pos.peano_ind.
  - cbn [Pos.iter]. change (Zpos m~0) with (2 * Zpos m). change (2 ^ 1) with 2. lia.
  - rewrite Pos.iter_succ, Pos2Z.inj_succ, Z.pow_succ_r by lia.
    change (Zpos (Pos.iter xO m d)~0) with (2 * Zpos (Pos.iter xO m d)).
    rewrite IH. ring.
Qed.

Lemma shl_align_spec mx ex ex' :
  snd (shl_align mx ex ex') = Z.min ex ex' /\
  Zpos (fst (shl_align mx ex ex'))
  = Zpos mx * 2 ^ (ex - snd (shl_align mx ex ex')).
Proof.
  unfold shl_align. destruct (ex' - ex) as [|d|d] eqn:E; cbn [fst snd].
  - split; [lia|]. rewrite Z.sub_diag. change (2 ^ 0) with 1. lia.
  - split; [lia|]. rewrite Z.sub_diag. change (2 ^ 0) with 1. lia.
  - split; [lia|]. rewrite Pos_iter_xO. f_equal. f_equal. lia.
Qed.

Lemma Zdigits2_mul_pow2 m k :
  0 < m -> 0 <= k -> Zdigits2 (m * 2 ^ k) = Zdigits2 m + k.
Proof.
  intros Hm Hk. pose proof (Zdigits2_bounds m Hm) as [Blo Bhi].
  pose proof (Zdigits2_pos m Hm).
  assert (0 < 2 ^ k) by (apply Z.pow_pos_nonneg; lia).
  apply Zdigits2_unique; [nia|].
  replace (Zdigits2 m + k - 1) with (Zdigits2 m - 1 + k) by lia.
  rewrite !Z.pow_add_r by lia. nia.
Qed.

Section Operations.

Variables prec emax : Z.
Hypothesis prec_pos : 0 < prec.
Hypothesis prec_lt_emax : prec < emax.

Local Abbreviation fexp := (SpecFloat.fexp prec emax).
Local Abbreviation emin := (SpecFloat.emin prec emax).
Local Abbreviation Fin := (Fin prec emax).
Local Abbreviation ulp_bound := (ulp_bound prec emax).

Lemma binary_round_real (m : positive) e :
  let X := (IZR (Zpos m) * bpow e)%R in
  (X + ulp_bound X < bpow emax)%R ->
  let r := binary_round prec emax false m e in
  Fin r /\ (Rabs (SFval r - X) <= ulp_bound X)%R.
Proof.
  intros X Hov. unfold binary_round.
  pose proof (shl_align_spec m e (fexp (Zpos (digits2_pos m) + e)))
    as [E1 E2].
  destruct (shl_align m e (fexp (Zpos (digits2_pos m) + e))) as [mz ez].
  cbn [fst snd] in E1, E2.
  assert (Hval : (IZR (Zpos mz) * bpow ez = X)%R).
  { rewrite E2. rewrite IZR_shift by lia. subst X. f_equal. f_equal. lia. }
  assert (Hal : ez <= fexp (Zdigits2 (Zpos mz) + ez)).
  { rewrite E2, Zdigits2_mul_pow2 by lia.
    replace (Zdigits2 (Zpos m) + (e - ez) + ez) with (Zdigits2 (Zpos m) + e)
      by lia.
    cbn [Zdigits2]. lia. }
  apply binary_round_aux_real; try assumption; try lia.
  rewrite plus_IZR, Hval. pose proof (bpow_pos ez). lra.
Qed.

Lemma binary_normalize_real z e b :
  0 <= z ->
  let X := (IZR z * bpow e)%R in
  (X + ulp_bound X < bpow emax)%R ->
  let r := binary_normalize prec emax z e b in
  Fin r /\ (Rabs (SFval r - X) <= ulp_bound X)%R.
Proof.
  intros Hz X Hov. destruct z as [|m|m]; [|apply binary_round_real, Hov|lia].
  cbn. split; [exact I|]. subst X. rewrite Rmult_0_l, Rminus_diag, Rabs_R0.
  pose proof (ulp_bound_pos prec emax 0). lra.
Qed.

Lemma Fin_nonneg x : Fin x -> (0 <= SFval x)%R.
Proof.
  destruct x as [s|s| |[|] m e]; cbn; try lra; try contradiction.
  intros _. pose proof (bpow_pos e).
  assert (0 < IZR (Zpos m))%R by (apply IZR_lt; lia). nra.
Qed.

Lemma Rabs_exact (x : R) : (Rabs (x - x) <= ulp_bound x)%R.
Proof.
  rewrite Rminus_diag, Rabs_R0. pose proof (ulp_bound_pos prec emax x). lra.
Qed.

(** The mantissas of two finite numbers on their common exponent. *)
Lemma aligned_value mx ex ez :
  ez <= ex ->
  (IZR (Zpos (fst (shl_align mx ex ez))) * bpow ez
   = IZR (Zpos mx) * bpow ex)%R.
Proof.
  intros H. pose proof (shl_align_spec mx ex ez) as [E1 E2].
  rewrite E2, E1, Z.min_r by assumption.
  rewrite IZR_shift by lia. f_equal. f_equal. lia.
Qed.

Theorem SFadd_real x y :
  Fin x -> Fin y ->
  let X := (SFval x + SFval y)%R in
  (X + ulp_bound X < bpow emax)%R ->
  Fin (SFadd prec emax x y) /\
  (Rabs (SFval (SFadd prec emax x y) - X) <= ulp_bound X)%R.
Proof.
  intros Hx Hy X Hov. subst X.
  destruct x as [sx|sx| |[|] mx ex]; try contradiction;
    destruct y as [sy|sy| |[|] my ey]; try contradiction.
  - split; [destruct sx, sy; exact I|].
    replace (SFval (SFadd prec emax (S754_zero sx) (S754_zero sy)))
      with (SFval (S754_zero sx) + SFval (S754_zero sy))%R
      by (destruct sx, sy; cbn; lra).
    apply Rabs_exact.
  - cbn [SFadd]. split; [exact Hy|].
    replace (SFval (S754_finite false my ey))
      with (SFval (S754_zero sx) + SFval (S754_finite false my ey))%R at 1
      by (cbn; lra).
    apply Rabs_exact.
  - cbn [SFadd]. split; [exact Hx|].
    replace (SFval (S754_finite false mx ex))
      with (SFval (S754_finite false mx ex) + SFval (S754_zero sy))%R at 1
      by (cbn; lra).
    apply Rabs_exact.
  - cbn [SFadd cond_Zopp]. cbn [SFval] in *.
    set (ez := Z.min ex ey).
    pose proof (aligned_value mx ex ez ltac:(lia)) as Ex.
    pose proof (aligned_value my ey ez ltac:(lia)) as Ey.
    set (M := Zpos (fst (shl_align mx ex ez)) + Zpos (fst (shl_align my ey ez))).
    assert (HM : (IZR M * bpow ez
                  = IZR (Zpos mx) * bpow ex + IZR (Zpos my) * bpow ey)%R).
    { subst M. rewrite plus_IZR, Rmult_plus_distr_r, Ex, Ey. reflexivity. }
    rewrite <- HM in *.
    apply binary_normalize_real; [subst M; lia | exact Hov].
Qed.

Theorem SFsub_real x y :
  Fin x -> Fin y ->
  (SFval y <= SFval x)%R ->
  let X := (SFval x - SFval y)%R in
  (X + ulp_bound X < bpow emax)%R ->
  Fin (SFsub prec emax x y) /\
  (Rabs (SFval (SFsub prec emax x y) - X) <= ulp_bound X)%R.
Proof.
  intros Hx Hy Hle X Hov. subst X.
  destruct x as [sx|sx| |[|] mx ex]; try contradiction;
    destruct y as [sy|sy| |[|] my ey]; try contradiction.
  - split; [destruct sx, sy; exact I|].
    replace (SFval (SFsub prec emax (S754_zero sx) (S754_zero sy)))
      with (SFval (S754_zero sx) - SFval (S754_zero sy))%R
      by (destruct sx, sy; cbn; lra).
    apply Rabs_exact.
  - exfalso. pose proof (Fin_nonneg _ Hy) as H0. cbn [SFval] in *.
    pose proof (bpow_pos ey).
    assert (0 < IZR (Zpos my))%R by (apply IZR_lt; lia). nra.
  - cbn [SFsub]. split; [exact Hx|].
    replace (SFval (S754_finite false mx ex))
      with (SFval (S754_finite false mx ex) - SFval (S754_zero sy))%R at 1
      by (cbn; lra).
    apply Rabs_exact.
  - cbn [SFsub cond_Zopp]. cbn [SFval] in *.
    set (ez := Z.min ex ey).
    pose proof (aligned_value mx ex ez ltac:(lia)) as Ex.
    pose proof (aligned_value my ey ez ltac:(lia)) as Ey.
    set (M := Zpos (fst (shl_align mx ex ez)) - Zpos (fst (shl_align my ey ez))).
    assert (HM : (IZR M * bpow ez
                  = IZR (Zpos mx) * bpow ex - IZR (Zpos my) * bpow ey)%R).
    { subst M. rewrite minus_IZR, Rmult_minus_distr_r, Ex, Ey. reflexivity. }
    assert (HM0 : 0 <= M).
    { apply le_IZR. pose proof (bpow_pos ez).
      assert (0 <= IZR M * bpow ez)%R by lra.
      destruct (Rle_lt_dec 0 (IZR M)) as [C|C]; [exact C|nra]. }
    rewrite <- HM in *.
    apply binary_normalize_real; [exact HM0 | exact Hov].
Qed.

Lemma Zdigits2_ge m k : 0 < m -> 2 ^ (k - 1) <= m -> k <= Zdigits2 m.
Proof.
  intros Hm Hk. pose proof (Zdigits2_bounds m Hm) as [_ Bhi].
  destruct (Z_le_gt_dec k (Zdigits2 m)) as [C|C]; [assumption|exfalso].
  assert (2 ^ Zdigits2 m <= 2 ^ (k - 1))
    by (apply Z.pow_le_mono_r; pose proof (Zdigits2_nonneg m); lia).
  lia.
Qed.

Lemma bounded_canonical m e :
  bounded prec emax m e = true ->
  fexp (Zpos (digits2_pos m) + e) = e /\ e <= emax - prec.
Proof.
  unfold bounded, canonical_mantissa. intros H.
  apply andb_true_iff in H. destruct H as [H1 H2].
  apply Z.eqb_eq in H1. apply Z.leb_le in H2. split; assumption.
Qed.

Lemma mul_aligned mx ex my ey :
  bounded prec emax mx ex = true -> bounded prec emax my ey = true ->
  ex + ey <= fexp (Zdigits2 (Zpos (mx * my)) + (ex + ey)).
Proof.
  intros Hx Hy.
  destruct (bounded_canonical mx ex Hx) as [Cx _].
  destruct (bounded_canonical my ey Hy) as [Cy _].
  pose proof (digits2_pos_bounds mx) as [Bx _].
  pose proof (digits2_pos_bounds my) as [By _].
  assert (Hd : Zpos (digits2_pos mx) + Zpos (digits2_pos my) - 1
               <= Zdigits2 (Zpos (mx * my))).
  { apply Zdigits2_ge; [lia|]. rewrite Pos2Z.inj_mul.
    replace (Zpos (digits2_pos mx) + Zpos (digits2_pos my) - 1 - 1)
      with ((Zpos (digits2_pos mx) - 1) + (Zpos (digits2_pos my) - 1)) by lia.
    rewrite Z.pow_add_r by lia.
    apply Z.mul_le_mono_nonneg; try assumption;
      apply Z.pow_nonneg; lia. }
  rewrite !fexp_spec, emin_spec in *. lia.
Qed.

Theorem SFmul_real x y :
  Fin x -> Fin y ->
  let X := (SFval x * SFval y)%R in
  (X + ulp_bound X < bpow emax)%R ->
  Fin (SFmul prec emax x y) /\
  (Rabs (SFval (SFmul prec emax x y) - X) <= ulp_bound X)%R.
Proof.
  intros Hx Hy X Hov. subst X.
  destruct x as [sx|sx| |[|] mx ex]; try contradiction;
    destruct y as [sy|sy| |[|] my ey]; try contradiction;
    cbn [SFmul xorb].
  - split; [exact I|]. cbn [SFval]. rewrite Rmult_0_l. apply Rabs_exact.
  - split; [exact I|]. cbn [SFval]. rewrite Rmult_0_l. apply Rabs_exact.
  - split; [exact I|]. cbn [SFval]. rewrite Rmult_0_r. apply Rabs_exact.
  - cbn [SFval Fin] in *.
    assert (HM : (IZR (Zpos (mx * my)) * bpow (ex + ey)
                  = IZR (Zpos mx) * bpow ex * (IZR (Zpos my) * bpow ey))%R).
    { rewrite Pos2Z.inj_mul, mult_IZR, bpow_add. ring. }
    rewrite <- HM in *.
    apply binary_round_aux_real; try assumption; try lia.
    + apply mul_aligned; assumption.
    + rewrite plus_IZR. pose proof (bpow_pos (ex + ey)). lra.
Qed.

Lemma div_core_spec mx ex my ey :
  let '(q, e', l) := SFdiv_core_binary prec emax (Zpos mx) ex (Zpos my) ey in
  let X := (IZR (Zpos mx) * bpow ex / (IZR (Zpos my) * bpow ey))%R in
  0 <= q /\ e' <= fexp (Zdigits2 q + e') /\
  (IZR q * bpow e' <= X <= IZR (q + 1) * bpow e')%R.
Proof.
  unfold SFdiv_core_binary.
  set (d1 := Zdigits2 (Zpos mx)). set (d2 := Zdigits2 (Zpos my)).
  set (e' := Z.min (fexp (d1 + ex - (d2 + ey))) (ex - ey)).
  set (s := ex - ey - e').
  assert (Hs : 0 <= s) by (subst s e'; lia).
  set (m' := match s with
             | 0 => Zpos mx
             | Zpos _ => Z.shiftl (Zpos mx) s
             | Zneg _ => 0
             end).
  assert (Hm' : m' = Zpos mx * 2 ^ s).
  { subst m'. destruct s as [|p|p] eqn:E; [|apply Z.shiftl_mul_pow2|]; lia. }
  destruct (Z.div_eucl m' (Zpos my)) as [q r] eqn:Ediv.
  assert (Hq : q = m' / Zpos my) by (unfold Z.div; now rewrite Ediv).
  assert (Hp : 0 < 2 ^ s) by (apply Z.pow_pos_nonneg; lia).
  assert (Hdm : q * Zpos my <= m' < (q + 1) * Zpos my).
  { pose proof (Z.div_mod m' (Zpos my) ltac:(lia)) as D.
    pose proof (Z.mod_pos_bound m' (Zpos my) ltac:(lia)). rewrite <- Hq in D.
    nia. }
  assert (Hq0 : 0 <= q) by (rewrite Hq; apply Z.div_pos; lia).
  split; [exact Hq0|]. split.
  - destruct (Z_le_gt_dec e' emin) as [C|C]; [rewrite fexp_spec; lia|].
    assert (He' : e' <= d1 + ex - (d2 + ey) - prec).
    { subst e'. rewrite fexp_spec in *. lia. }
    pose proof (digits2_pos_bounds mx) as [Bx _].
    pose proof (digits2_pos_bounds my) as [_ By].
    fold (Zdigits2 (Zpos mx)) in Bx. fold (Zdigits2 (Zpos my)) in By.
    fold d1 in Bx. fold d2 in By.
    assert (Hd1 : 0 < d1) by (subst d1; cbn; lia).
    assert (Hd2 : 0 < d2) by (subst d2; cbn; lia).
    assert (Hbig : 2 ^ (prec - 1) * Zpos my <= m').
    { rewrite Hm'.
      assert (E : 2 ^ (d1 - 1) * 2 ^ s
                  = 2 ^ (prec - 1) * 2 ^ d2 * 2 ^ (d1 + s - d2 - prec)).
      { rewrite <- !Z.pow_add_r by lia. f_equal. lia. }
      assert (0 < 2 ^ (prec - 1)) by (apply Z.pow_pos_nonneg; lia).
      assert (0 < 2 ^ (d1 + s - d2 - prec)) by (apply Z.pow_pos_nonneg; lia).
      assert (0 < 2 ^ d2) by (apply Z.pow_pos_nonneg; lia).
      apply Z.le_trans with (2 ^ (prec - 1) * 2 ^ d2);
        [apply Z.mul_le_mono_nonneg_l; lia|].
      apply Z.le_trans with (2 ^ (d1 - 1) * 2 ^ s);
        [|apply Z.mul_le_mono_nonneg_r; lia].
      rewrite E.
      replace (2 ^ (prec - 1) * 2 ^ d2)
        with (2 ^ (prec - 1) * 2 ^ d2 * 1) at 1 by ring.
      apply Z.mul_le_mono_nonneg_l; [|lia].
      apply Z.mul_nonneg_nonneg; lia. }
    assert (Hqbig : 2 ^ (prec - 1) <= q).
    { rewrite Hq. apply Z.div_le_lower_bound; lia. }
    assert (0 < 2 ^ (prec - 1)) by (apply Z.pow_pos_nonneg; lia).
    pose proof (Zdigits2_ge q prec ltac:(lia) Hqbig).
    rewrite fexp_spec. lia.
  - assert (Hmy : (0 < IZR (Zpos my))%R) by (apply IZR_lt; lia).
    pose proof (bpow_pos ey) as Hey. pose proof (bpow_pos e') as He'.
    assert (HX : (IZR (Zpos mx) * bpow ex / (IZR (Zpos my) * bpow ey)
                  = IZR m' / IZR (Zpos my) * bpow e')%R).
    { rewrite Hm', mult_IZR, <- bpow_IZR by lia.
      replace ex with (s + e' + ey) at 1 by (subst s; lia).
      rewrite !bpow_add. field. split; lra. }
    rewrite HX.
    destruct Hdm as [D1 D2]. apply IZR_le in D1. apply IZR_lt in D2.
    rewrite mult_IZR in D1, D2.
    assert (IZR q <= IZR m' / IZR (Zpos my))%R.
    { apply Rmult_le_reg_r with (IZR (Zpos my)); [exact Hmy|].
      unfold Rdiv. rewrite Rmult_assoc, Rinv_l by lra. lra. }
    assert (IZR m' / IZR (Zpos my) <= IZR (q + 1))%R.
    { apply Rmult_le_reg_r with (IZR (Zpos my)); [exact Hmy|].
      unfold Rdiv. rewrite Rmult_assoc, Rinv_l by lra. lra. }
    split; apply Rmult_le_compat_r; lra.
Qed.

Theorem SFdiv_real x y :
  Fin x -> Fin y -> (0 < SFval y)%R ->
  let X := (SFval x / SFval y)%R in
  (X + ulp_bound X < bpow emax)%R ->
  Fin (SFdiv prec emax x y) /\
  (Rabs (SFval (SFdiv prec emax x y) - X) <= ulp_bound X)%R.
Proof.
  intros Hx Hy Hpos X Hov. subst X.
  destruct y as [sy|sy| |[|] my ey]; try contradiction;
    try (cbn [SFval] in Hpos; lra).
  destruct x as [sx|sx| |[|] mx ex]; try contradiction; cbn [SFdiv xorb].
  - split; [exact I|]. cbn [SFval]. unfold Rdiv. rewrite Rmult_0_l.
    apply Rabs_exact.
  - pose proof (div_core_spec mx ex my ey) as H.
    destruct (SFdiv_core_binary prec emax (Zpos mx) ex (Zpos my) ey)
      as [[q e'] l].
    cbn zeta in H. destruct H as (Hq & Hal & Hbr).
    cbn [SFval] in *.
    apply binary_round_aux_real; assumption.
Qed.

(** Comparisons decide the order of the values. *)
Lemma finite_lt_exp m1 e1 m2 e2 :
  bounded prec emax m1 e1 = true -> bounded prec emax m2 e2 = true ->
  e1 < e2 ->
  (IZR (Zpos m1) * bpow e1 < IZR (Zpos m2) * bpow e2)%R.
Proof.
  intros H1 H2 He.
  destruct (bounded_canonical m1 e1 H1) as [C1 _].
  destruct (bounded_canonical m2 e2 H2) as [C2 _].
  pose proof (digits2_pos_bounds m1) as [_ B1].
  pose proof (digits2_pos_bounds m2) as [B2 _].
  rewrite !fexp_spec in *.
  assert (Hd2 : Zpos (digits2_pos m2) = prec) by lia.
  assert (Hd1 : Zpos (digits2_pos m1) <= prec) by lia.
  rewrite Hd2 in B2.
  assert (Hm1 : Zpos m1 < 2 ^ prec).
  { eapply Z.lt_le_trans; [exact B1|]. apply Z.pow_le_mono_r; lia. }
  apply IZR_lt in Hm1. apply IZR_le in B2.
  rewrite <- bpow_IZR in Hm1, B2 by lia.
  pose proof (bpow_pos e1) as P1. pose proof (bpow_pos e2) as P2.
  assert (Hb : (bpow (prec + e1) <= bpow (prec - 1 + e2))%R)
    by (apply bpow_le; lia).
  rewrite !bpow_add in Hb.
  assert (IZR (Zpos m1) * bpow e1 < bpow prec * bpow e1)%R by nra.
  assert (bpow (prec - 1) * bpow e2 <= IZR (Zpos m2) * bpow e2)%R by nra.
  lra.
Qed.

Lemma SFcompare_real x y :
  Fin x -> Fin y ->
  (SFcompare x y = Some Lt /\ SFval x < SFval y)%R \/
  (SFcompare x y = Some Eq /\ SFval x = SFval y) \/
  (SFcompare x y = Some Gt /\ SFval y < SFval x)%R.
Proof.
  intros Hx Hy.
  destruct x as [sx|sx| |[|] mx ex]; try contradiction;
    destruct y as [sy|sy| |[|] my ey]; try contradiction;
    cbn [SFcompare SFval Fin] in *.
  - right; left. split; reflexivity.
  - left. split; [reflexivity|]. pose proof (bpow_pos ey).
    assert (0 < IZR (Zpos my))%R by (apply IZR_lt; lia). nra.
  - right; right. split; [reflexivity|]. pose proof (bpow_pos ex).
    assert (0 < IZR (Zpos mx))%R by (apply IZR_lt; lia). nra.
  - destruct (Z.compare_spec ex ey) as [E|E|E].
    + subst ey. rewrite Pos.compare_cont_spec. cbn [Pos.switch_Eq].
      pose proof (bpow_pos ex).
      destruct (Pos.compare_spec mx my) as [C|C|C].
      * right; left. split; [reflexivity | now subst].
      * left. split; [reflexivity|].
        apply Rmult_lt_compat_r; [assumption | apply IZR_lt; lia].
      * right; right. split; [reflexivity|].
        apply Rmult_lt_compat_r; [assumption | apply IZR_lt; lia].
    + left. split; [reflexivity | now apply finite_lt_exp].
    + right; right. split; [reflexivity | now apply finite_lt_exp].
Qed.

Lemma SFleb_real x y :
  Fin x -> Fin y ->
  (SFleb x y = true -> SFval x <= SFval y)%R /\
  (SFleb x y = false -> SFval y < SFval x)%R.
Proof.
  intros Hx Hy. unfold SFleb.
  destruct (SFcompare_real x y Hx Hy) as [[-> H]|[[-> H]|[-> H]]];
    split; intros E; try discriminate; lra.
Qed.

Lemma SFltb_real x y :
  Fin x -> Fin y ->
  (SFltb x y = true -> SFval x < SFval y)%R /\
  (SFltb x y = false -> SFval y <= SFval x)%R.
Proof.
  intros Hx Hy. unfold SFltb.
  destruct (SFcompare_real x y Hx Hy) as [[-> H]|[[-> H]|[-> H]]];
    split; intros E; try discriminate; lra.
Qed.

End Operations.

(** ** Truncation to an integer *)

Lemma bpow_0 : bpow 0 = 1%R.
Proof. reflexivity. Qed.

Lemma bpow_opp k : bpow (- k) = (/ bpow k)%R.
Proof. apply powerRZ_neg'. Qed.

Lemma SFtrunc_real prec emax x :
  Fin prec emax x ->
  exists z, SFtrunc x = Some z /\ (IZR z <= SFval x < IZR z + 1)%R.
Proof.
  destruct x as [s|s| |[|] m e]; try contradiction; intros _.
  - exists 0. split; [reflexivity|]. cbn. lra.
  - cbn [SFtrunc cond_Zopp SFval].
    destruct e as [|p|p].
    + exists (Zpos m * 2 ^ 0). split; [reflexivity|].
      change (2 ^ 0) with 1. rewrite Z.mul_1_r, bpow_0. lra.
    + exists (Zpos m * 2 ^ Zpos p). split; [reflexivity|].
      rewrite mult_IZR, <- bpow_IZR by lia. lra.
    + exists (Zpos m / 2 ^ Zpos p). split; [reflexivity|].
      change (Zneg p) with (- Zpos p). rewrite bpow_opp, bpow_IZR by lia.
      assert (Hp : 0 < 2 ^ Zpos p) by (apply Z.pow_pos_nonneg; lia).
      pose proof (Z.div_mod (Zpos m) (2 ^ Zpos p) ltac:(lia)) as D.
      pose proof (Z.mod_pos_bound (Zpos m) (2 ^ Zpos p) Hp) as B.
      set (z := Zpos m / 2 ^ Zpos p) in *.
      assert (D1 : z * 2 ^ Zpos p <= Zpos m) by nia.
      assert (D2 : Zpos m < (z + 1) * 2 ^ Zpos p) by nia.
      apply IZR_le in D1. apply IZR_lt in D2. apply IZR_lt in Hp.
      rewrite mult_IZR in D1, D2. rewrite plus_IZR in D2.
      set (P := IZR (2 ^ Zpos p)) in *.
      split.
      * apply Rmult_le_reg_r with P; [exact Hp|].
        rewrite Rmult_assoc, Rinv_l by lra. lra.
      * apply Rmult_lt_reg_r with P; [exact Hp|].
        rewrite Rmult_assoc, Rinv_l by lra. lra.
Qed.

(** ** Double precision *)

Lemma bpow_m52 : bpow (-52) = eps64.
Proof.
  change (-52) with (- (52)). rewrite bpow_opp, bpow_IZR by lia.
  reflexivity.
Qed.

Lemma bpow_emin64 : (0 < bpow (emin Double.prec Double.emax) <= eps64)%R.
Proof.
  split; [apply bpow_pos|]. rewrite <- bpow_m52. apply bpow_le.
  vm_compute. discriminate.
Qed.

Lemma bpow_emax64 : (4398046511104 <= bpow Double.emax)%R.
Proof.
  change 4398046511104%R with (IZR (2 ^ 42)). rewrite <- bpow_IZR by lia.
  apply bpow_le. vm_compute. discriminate.
Qed.

Lemma ulp_bound64 X :
  (0 <= X)%R -> (ulp_bound Double.prec Double.emax X <= X * eps64 + eps64)%R.
Proof.
  intros HX. unfold ulp_bound.
  change (1 - Double.prec) with (-52). rewrite bpow_m52.
  pose proof bpow_emin64 as [T0 T1]. unfold eps64 in *.
  apply Rmax_lub; lra.
Qed.

Lemma no_overflow64 X :
  (0 <= X <= 1099511627776)%R ->
  (X + ulp_bound Double.prec Double.emax X < bpow Double.emax)%R.
Proof.
  intros HX. pose proof (ulp_bound64 X ltac:(lra)). pose proof bpow_emax64.
  unfold eps64 in *. lra.
Qed.

Lemma near64_of_Rabs v X :
  (0 <= X)%R ->
  (Rabs (v - X) <= ulp_bound Double.prec Double.emax X)%R -> near64 v X.
Proof.
  intros HX H. pose proof (ulp_bound64 X HX).
  assert (H' : (Rabs (v - X) <= X * eps64 + eps64)%R) by lra.
  unfold near64. revert H'. unfold Rabs.
  destruct (Rcase_abs (v - X)); lra.
Qed.

Lemma double_prec_ok : 0 < Double.prec /\ Double.prec < Double.emax.
Proof. split; reflexivity. Qed.

Lemma Double_of_Z_real z :
  0 <= z <= 2 ^ 40 ->
  Fin Double.prec Double.emax (Double.of_Z z) /\
  near64 (SFval (Double.of_Z z)) (IZR z).
Proof.
  intros Hz. destruct double_prec_ok as [P1 P2].
  assert (HR : (0 <= IZR z <= 1099511627776)%R).
  { split; [apply IZR_le; lia|].
    change 1099511627776%R with (IZR (2 ^ 40)). apply IZR_le. lia. }
  destruct (binary_normalize_real Double.prec Double.emax P1 P2 z 0 false)
    as [HF HA]; [lia| |].
  - rewrite bpow_0, Rmult_1_r. apply no_overflow64, HR.
  - rewrite bpow_0, Rmult_1_r in HA. split; [exact HF|].
    apply near64_of_Rabs; [lra | exact HA].
Qed.

Lemma Double_div_real x y :
  Fin Double.prec Double.emax x -> Fin Double.prec Double.emax y ->
  (0 < SFval y)%R -> (SFval x / SFval y <= 1099511627776)%R ->
  Fin Double.prec Double.emax (Double.div x y) /\
  near64 (SFval (Double.div x y)) (SFval x / SFval y).
Proof.
  intros Hx Hy Hpos Hb. destruct double_prec_ok as [P1 P2].
  assert (H0 : (0 <= SFval x / SFval y)%R).
  { pose proof (Fin_nonneg _ _ x Hx). apply Rmult_le_pos; [assumption|].
    apply Rlt_le, Rinv_0_lt_compat, Hpos. }
  destruct (SFdiv_real Double.prec Double.emax P1 P2 x y Hx Hy Hpos) as [HF HA].
  - apply no_overflow64. lra.
  - split; [exact HF|]. apply near64_of_Rabs; assumption.
Qed.

Lemma Double_mul_real x y :
  Fin Double.prec Double.emax x -> Fin Double.prec Double.emax y ->
  (SFval x * SFval y <= 1099511627776)%R ->
  Fin Double.prec Double.emax (Double.mul x y) /\
  near64 (SFval (Double.mul x y)) (SFval x * SFval y).
Proof.
  intros Hx Hy Hb. destruct double_prec_ok as [P1 P2].
  assert (H0 : (0 <= SFval x * SFval y)%R).
  { apply Rmult_le_pos; eapply Fin_nonneg; eassumption. }
  destruct (SFmul_real Double.prec Double.emax P1 P2 x y Hx Hy) as [HF HA].
  - apply no_overflow64. lra.
  - split; [exact HF|]. apply near64_of_Rabs; assumption.
Qed.

Lemma Double_add_real x y :
  Fin Double.prec Double.emax x -> Fin Double.prec Double.emax y ->
  (SFval x + SFval y <= 1099511627776)%R ->
  Fin Double.prec Double.emax (Double.add x y) /\
  near64 (SFval (Double.add x y)) (SFval x + SFval y).
Proof.
  intros Hx Hy Hb. destruct double_prec_ok as [P1 P2].
  assert (H0 : (0 <= SFval x + SFval y)%R).
  { pose proof (Fin_nonneg _ _ x Hx). pose proof (Fin_nonneg _ _ y Hy). lra. }
  destruct (SFadd_real Double.prec Double.emax P1 P2 x y Hx Hy) as [HF HA].
  - apply no_overflow64. lra.
  - split; [exact HF|]. apply near64_of_Rabs; assumption.
Qed.

Lemma Double_sub_real x y :
  Fin Double.prec Double.emax x -> Fin Double.prec Double.emax y ->
  (SFval y <= SFval x)%R -> (SFval x - SFval y <= 1099511627776)%R ->
  Fin Double.prec Double.emax (Double.sub x y) /\
  near64 (SFval (Double.sub x y)) (SFval x - SFval y).
Proof.
  intros Hx Hy Hle Hb. destruct double_prec_ok as [P1 P2].
  destruct (SFsub_real Double.prec Double.emax P1 P2 x y Hx Hy Hle) as [HF HA].
  - apply no_overflow64. lra.
  - split; [exact HF|]. apply near64_of_Rabs; [lra | assumption].
Qed.

(** Small integer constants are exact. *)
Lemma SFval_const m k z :
  Zpos m = z * 2 ^ k -> 0 <= k ->
  SFval (S754_finite false m (- k)) = IZR z.
Proof.
  intros E Hk. cbn [SFval]. rewrite E, IZR_shift by assumption.
  replace (- k + k) with 0 by lia. rewrite bpow_0. ring.
Qed.

Lemma const_1000 :
  Fin Double.prec Double.emax (Double.of_Z 1000) /\
  SFval (Double.of_Z 1000) = 1000%R.
Proof.
  split; [reflexivity|]. apply (SFval_const _ 43 1000); [reflexivity | lia].
Qed.

Lemma const_44100 :
  Fin Double.prec Double.emax (Double.of_Z SAMPLE_RATE) /\
  SFval (Double.of_Z SAMPLE_RATE) = 44100%R.
Proof.
  split; [reflexivity|]. apply (SFval_const _ 37 44100); [reflexivity | lia].
Qed.

Lemma const_210 :
  Fin Double.prec Double.emax (Double.of_Z TABLE_SIZE) /\
  SFval (Double.of_Z TABLE_SIZE) = 210%R.
Proof.
  split; [reflexivity|]. apply (SFval_const _ 45 210); [reflexivity | lia].
Qed.

Lemma const_20000 :
  Fin Double.prec Double.emax (Double.of_Z 20000) /\
  SFval (Double.of_Z 20000) = 20000%R.
Proof.
  split; [reflexivity|]. apply (SFval_const _ 38 20000); [reflexivity | lia].
Qed.

(** ** The frame count of a duration *)

Lemma IZR_le_half a b : (IZR a <= IZR b + / 2)%R -> a <= b.
Proof.
  intros H. destruct (Z_le_gt_dec a b) as [C|C]; [assumption|exfalso].
  assert (b + 1 <= a) by lia. apply IZR_le in H0. rewrite plus_IZR in H0. lra.
Qed.

(** [frames_of_ms] is the exact product [ms * 44.1] truncated, or one less
    when the two double roundings fall just below an integral product. *)
Lemma frames_of_ms_bounds m :
  0 <= m < 2 ^ 31 ->
  441 * m - 10 <= 10 * frames_of_ms m <= 441 * m.
Proof.
  intros Hm.
  assert (HM : (0 <= IZR m <= 2147483647)%R).
  { split; apply IZR_le; lia. }
  destruct (Double_of_Z_real m) as [F0 N0]; [lia|].
  destruct const_1000 as [F1000 V1000].
  destruct const_44100 as [F44100 V44100].
  unfold near64, eps64 in N0.
  destruct (Double_div_real (Double.of_Z m) (Double.of_Z 1000) F0 F1000)
    as [Fa Na]; rewrite ?V1000; try lra.
  unfold near64, eps64 in Na. rewrite V1000 in Na.
  destruct (Double_mul_real _ (Double.of_Z SAMPLE_RATE) Fa F44100)
    as [Fb Nb]; rewrite ?V44100; try lra.
  unfold near64, eps64 in Nb. rewrite V44100 in Nb.
  destruct (SFtrunc_real _ _ _ Fb) as (z & Ez & Hz).
  set (a0 := SFval (Double.of_Z m)) in *.
  set (a := SFval (Double.div (Double.of_Z m) (Double.of_Z 1000))) in *.
  set (b := SFval (Double.mul (Double.div (Double.of_Z m) (Double.of_Z 1000))
                              (Double.of_Z SAMPLE_RATE))) in *.
  pose proof (Fin_nonneg _ _ _ F0) as Ha0. fold a0 in Ha0.
  pose proof (Fin_nonneg _ _ _ Fa) as Ha. fold a in Ha.
  pose proof (Fin_nonneg _ _ _ Fb) as Hb. fold b in Hb.
  assert (Hz0 : 0 <= z).
  { assert (-1 < z) by (apply lt_IZR; lra). lia. }
  assert (Hzhi : 10 * z <= 441 * m).
  { apply IZR_le_half. rewrite !mult_IZR. lra. }
  assert (Hzlo : 441 * m - 10 <= 10 * z).
  { apply IZR_le_half. rewrite minus_IZR, !mult_IZR. lra. }
  unfold frames_of_ms, double_to_ulong. rewrite Ez.
  rewrite to_ulong_small by lia. lia.
Qed.

Lemma frames_of_ms_small m :
  0 <= m < 2 ^ 31 -> frames_of_ms m <= 2 ^ 64 - 2 ^ 31.
Proof.
  intros Hm. pose proof (frames_of_ms_bounds m Hm). lia.
Qed.

(** ** The phase accumulator *)

Lemma Fin_valid x :
  Fin Double.prec Double.emax x -> Double.valid x = true.
Proof.
  destruct x as [s|s| |[|] m e]; cbn; try contradiction; auto.
Qed.

Lemma Fin_of_bounds x c :
  Double.valid x = true -> Fin Double.prec Double.emax c ->
  SFleb (Double.of_Z 0) x = true ->
  SFleb x c = true \/ SFltb x c = true ->
  Fin Double.prec Double.emax x.
Proof.
  intros Hv Hc H0 Hle.
  destruct x as [s|[|]| |[|] m e]; try exact I; try exact Hv;
    try discriminate H0.
  exfalso. unfold SFleb, SFltb in Hle.
  destruct c as [sc|sc| |[|] mc ec]; try contradiction;
    cbn in Hle; destruct Hle; discriminate.
Qed.

Lemma phase_ok_real p :
  phase_ok p <-> Fin Double.prec Double.emax p /\ (SFval p < 210)%R.
Proof.
  destruct const_210 as [F210 V210]. destruct double_prec_ok as [P1 P2].
  unfold phase_ok, Double.geb. split.
  - intros (Hv & H0 & Hlt).
    assert (HF : Fin Double.prec Double.emax p)
      by (eapply Fin_of_bounds; eauto).
    split; [exact HF|].
    destruct (SFltb_real _ _ P1 p _ HF F210) as [H _].
    rewrite <- V210. apply H, Hlt.
  - intros [HF Hlt]. split; [apply Fin_valid, HF|]. split.
    + destruct (SFleb (Double.of_Z 0) p) eqn:E; [reflexivity|exfalso].
      destruct (SFleb_real _ _ P1 (Double.of_Z 0) p I HF) as [_ H].
      pose proof (H E) as C. pose proof (Fin_nonneg _ _ p HF).
      change (SFval (Double.of_Z 0)) with 0%R in C. lra.
    + destruct (SFltb p (Double.of_Z TABLE_SIZE)) eqn:E; [reflexivity|exfalso].
      destruct (SFltb_real _ _ P1 p _ HF F210) as [_ H].
      pose proof (H E) as C. lra.
Qed.

Lemma hz_ok_real h :
  hz_ok h -> Fin Double.prec Double.emax h /\ (SFval h <= 20000)%R.
Proof.
  destruct const_20000 as [F V]. destruct double_prec_ok as [P1 P2].
  unfold hz_ok, Double.geb. intros (Hv & H0 & Hle).
  assert (HF : Fin Double.prec Double.emax h)
    by (eapply Fin_of_bounds; eauto).
  split; [exact HF|].
  destruct (SFleb_real _ _ P1 h _ HF F) as [H _].
  rewrite <- V. apply H, Hle.
Qed.

(** One step of a phase accumulator stays in [0, TABLE_SIZE). *)
Lemma advance_phase_ok p h :
  phase_ok p -> hz_ok h -> phase_ok (advance_phase p h).
Proof.
  intros Hp Hh. apply phase_ok_real in Hp. destruct Hp as [Fp Vp].
  apply hz_ok_real in Hh. destruct Hh as [Fh Vh].
  destruct const_210 as [F210 V210]. destruct double_prec_ok as [P1 P2].
  pose proof (Fin_nonneg _ _ p Fp) as Hp0.
  pose proof (Fin_nonneg _ _ h Fh) as Hh0.
  apply phase_ok_real. unfold advance_phase.
  destruct (Double_div_real h (Double.of_Z TABLE_SIZE) Fh F210)
    as [Fd Nd]; rewrite ?V210; try lra.
  unfold near64, eps64 in Nd. rewrite V210 in Nd.
  set (d := Double.div h (Double.of_Z TABLE_SIZE)) in *.
  destruct (Double_add_real p d Fp Fd) as [Fs Ns]; [lra|].
  unfold near64, eps64 in Ns.
  set (s := Double.add p d) in *.
  unfold wrap_phase, Double.geb.
  destruct (SFleb_real _ _ P1 (Double.of_Z TABLE_SIZE) s F210 Fs) as [Hge Hlt].
  destruct (SFleb (Double.of_Z TABLE_SIZE) s).
  - specialize (Hge eq_refl). rewrite V210 in Hge.
    destruct (Double_sub_real s (Double.of_Z TABLE_SIZE) Fs F210)
      as [Fr Nr]; rewrite ?V210; try lra.
    unfold near64, eps64 in Nr. rewrite V210 in Nr.
    split; [exact Fr | lra].
  - specialize (Hlt eq_refl). rewrite V210 in Hlt. split; [exact Fs | lra].
Qed.

(** The truncation of a phase in [0, TABLE_SIZE) is an index of the table. *)
Lemma phase_index p :
  phase_ok p -> 0 <= double_to_int p < TABLE_SIZE.
Proof.
  intros Hp. apply phase_ok_real in Hp. destruct Hp as [Fp Vp].
  pose proof (Fin_nonneg _ _ p Fp) as Hp0.
  destruct (SFtrunc_real _ _ p Fp) as (z & Ez & Hz).
  assert (Hz0 : 0 <= z).
  { destruct (Z_le_gt_dec 0 z) as [C|C]; [assumption|exfalso].
    assert (z + 1 <= 0) by lia. apply IZR_le in H. rewrite plus_IZR in H. lra. }
  assert (Hz1 : z < 210).
  { apply lt_IZR. lra. }
  unfold double_to_int. rewrite Ez, to_int_small by lia.
  unfold TABLE_SIZE. lia.
Qed.

(** * The voices *)

(** ** One voice across callbacks *)

Lemma run_0 o : run 0 o = o.
Proof. reflexivity. Qed.

Lemma run_S k o : run (S k) o = run k (voice_callback FRAMES_PER_BUFFER o).
Proof. unfold run. apply Nat.iter_succ_r. Qed.

Lemma run_add a b o : run (a + b) o = run b (run a o).
Proof.
  unfold run. rewrite Nat.add_comm. apply Nat.iter_add.
Qed.

Lemma voice_callback_fields o :
  let o' := voice_callback FRAMES_PER_BUFFER o in
  let b := bookkeep FRAMES_PER_BUFFER (refill o) in
  rbuf o' = rbuf (refill o) /\ curr_note o' = curr_note (refill o) /\
  finished o' = finished (refill o) /\
  frames_played o' = frames_played b /\ num_frames o' = num_frames b.
Proof.
  intros o' b.
  destruct (voice_callback_control FRAMES_PER_BUFFER o)
    as (Hq & _ & Hp & Hn & Hc & Hf).
  fold o' in Hq, Hp, Hn, Hc, Hf. fold b in Hq, Hp, Hn, Hc, Hf.
  assert (Hb : rbuf b = rbuf (refill o) /\ curr_note b = curr_note (refill o)
               /\ finished b = finished (refill o)).
  { subst b. unfold bookkeep, advance, forget.
    destruct (type (curr_note (refill o)) =? WAITING); simpl;
      match goal with |- context [if ?c then _ else _] => destruct c end;
      simpl; repeat split. }
  destruct Hb as (Hbq & Hbc & Hbf).
  repeat split; congruence.
Qed.

Lemma refill_busy o : frames_played o <> -1 -> refill o = o.
Proof.
  intros H. unfold refill.
  destruct (Z.eqb_spec (frames_played o) (-1)); [contradiction|reflexivity].
Qed.

(** The third loop on a voice that is on an event. *)
Lemma bookkeep_event o :
  0 <= frames_played o < 2 ^ 31 ->
  num_frames o <= 2 ^ 64 - 2 ^ 31 ->
  type (curr_note o) <> WAITING ->
  let b := bookkeep FRAMES_PER_BUFFER o in
  (Z.min (num_frames o) (2 ^ 31) <= frames_played o + 210 ->
     frames_played b = -1 /\ num_frames b = 0) /\
  (frames_played o + 210 < Z.min (num_frames o) (2 ^ 31) ->
     frames_played b = frames_played o + 210 /\ num_frames b = num_frames o).
Proof.
  intros Hfp Hnf Hty b. subst b. unfold bookkeep, advance.
  destruct (Z.eqb_spec (type (curr_note o)) WAITING) as [E|_]; [contradiction|].
  destruct (advance_count (frames_played o) Hfp) as [Hlo Hhi].
  unfold forget; simpl.
  destruct (Z.leb_spec (num_frames o)
              (to_ulong (to_int (to_ulong (to_ulong (frames_played o)
                                            + FRAMES_PER_BUFFER))))) as [L|L];
    simpl; split; intros H; try (split; reflexivity).
  - exfalso. destruct Hlo as [_ Hlo]; lia.
  - exfalso.
    destruct (Z_lt_le_dec (frames_played o + 210) (2 ^ 31)) as [C|C].
    + destruct (Hlo C) as [_ Hu]. lia.
    + destruct (Hhi C) as [_ Hu]. lia.
  - destruct Hlo as [Hlo _]; [lia|]. split; [exact Hlo | reflexivity].
Qed.

Lemma busy_step o :
  busy o ->
  let o' := voice_callback FRAMES_PER_BUFFER o in
  rbuf o' = rbuf o /\ curr_note o' = curr_note o /\ finished o' = finished o /\
  ((buffers_left (frames_played o) (num_frames o) = 1 /\
    idle o' /\ num_frames o' = 0) \/
   (1 < buffers_left (frames_played o) (num_frames o) /\ busy o' /\
    num_frames o' = num_frames o /\
    buffers_left (frames_played o') (num_frames o') =
      buffers_left (frames_played o) (num_frames o) - 1)).
Proof.
  intros (Hfp & Hnf & Hty) o'.
  destruct (voice_callback_fields o) as (Hq & Hc & Hf & Hp & Hn).
  fold o' in Hq, Hc, Hf, Hp, Hn.
  rewrite refill_busy in Hq, Hc, Hf, Hp, Hn by lia.
  assert (Hfp0 : 0 <= frames_played o < 2 ^ 31) by lia.
  destruct (bookkeep_event o Hfp0 (proj2 Hnf) Hty) as [Hend Hgo].
  repeat split; try assumption.
  unfold buffers_left, idle, busy.
  destruct (Z_le_gt_dec (Z.min (num_frames o) (2 ^ 31)) (frames_played o + 210))
    as [C|C].
  - left. destruct (Hend C) as [E1 E2]. rewrite Hp, Hn.
    repeat split; try assumption.
    Z.to_euclidean_division_equations; lia.
  - right. destruct Hgo as [E1 E2]; [lia|]. rewrite Hp, Hn, Hc, E1, E2.
    repeat split; try lia; try assumption;
      Z.to_euclidean_division_equations; lia.
Qed.

(** A voice on an event leaves it after [buffers_left] callbacks. *)
Lemma busy_run : forall (k : nat) o,
  busy o ->
  buffers_left (frames_played o) (num_frames o) = Z.of_nat k ->
  (forall j, (j < k)%nat ->
     busy (run j o) /\ on_event (run j o) (rbuf o) (curr_note o) (finished o)) /\
  idle (run k o) /\ num_frames (run k o) = 0 /\
  on_event (run k o) (rbuf o) (curr_note o) (finished o).
Proof.
  induction k as [|k IH]; intros o Hb Hk.
  - exfalso. destruct (busy_step o Hb) as (_ & _ & _ & [[E _]|[E _]]); lia.
  - destruct (busy_step o Hb) as (Hq & Hc & Hf & [(E & Hi & Hn)|(E & Hb' & Hn & E')]).
    + assert (k = 0%nat) by lia. subst k. split.
      * intros j Hj. assert (j = 0%nat) by lia. subst j. rewrite run_0.
        split; [assumption | repeat split].
      * rewrite run_S, run_0. repeat split; assumption.
    + destruct (IH _ Hb') as (Hlt & Hidle & Hnf & Hev); [lia|].
      rewrite Hq, Hc, Hf in Hlt, Hev. split.
      * intros [|j] Hj; [rewrite run_0; split; [assumption | repeat split]|].
        rewrite run_S. apply Hlt. lia.
      * rewrite run_S. repeat split; try assumption; apply Hev.
Qed.

Lemma frames_of_ms_range m : 0 <= frames_of_ms m < 2 ^ 64.
Proof.
  unfold frames_of_ms, double_to_ulong.
  destruct (SFtrunc _); [apply to_ulong_range | lia].
Qed.

Lemma refill_idle_event o n q :
  idle o -> rbuf o = n :: q -> type n <> END ->
  refill o = set_frames (set_curr_note (set_rbuf o q) n) 0 (frames_of_ms (ms n)).
Proof.
  intros Hi Hq Hty. unfold refill. rewrite Hi, Hq. simpl.
  destruct (Z.eqb_spec (type n) END); [contradiction | reflexivity].
Qed.

Lemma refill_idle_end o n q :
  idle o -> rbuf o = n :: q -> type n = END ->
  refill o = set_frames (set_curr_note
                           (set_finished (set_curr_note (set_rbuf o q) n)
                                         (S (finished o))) waiting_note) 0 0.
Proof.
  intros Hi Hq Hty. unfold refill. rewrite Hi, Hq. simpl.
  rewrite Hty. reflexivity.
Qed.

Lemma refill_idle_empty o :
  idle o -> rbuf o = [] ->
  refill o = set_frames (set_curr_note o waiting_note) 0 0.
Proof.
  intros Hi Hq. unfold refill. rewrite Hi, Hq. reflexivity.
Qed.

(** An idle voice takes an event that sounds or rests. *)
Lemma idle_step_event o n q :
  idle o -> rbuf o = n :: q -> type n <> END -> type n <> WAITING ->
  frames_of_ms (ms n) <= 2 ^ 64 - 2 ^ 31 ->
  let o' := voice_callback FRAMES_PER_BUFFER o in
  let nf := frames_of_ms (ms n) in
  on_event o' q n (finished o) /\
  ((nf <= 210 /\ idle o' /\ num_frames o' = 0) \/
   (210 < nf /\ busy o' /\ frames_played o' = 210 /\ num_frames o' = nf)).
Proof.
  intros Hi Hq Hend Hwait Hnf o' nf.
  destruct (voice_callback_fields o) as (Eq & Ec & Ef & Ep & En).
  fold o' in Eq, Ec, Ef, Ep, En.
  rewrite (refill_idle_event o n q Hi Hq Hend) in Eq, Ec, Ef, Ep, En.
  fold nf in Ep, En, Eq, Ec, Ef.
  set (r := set_frames (set_curr_note (set_rbuf o q) n) 0 nf) in Ep, En.
  pose proof (frames_of_ms_range (ms n)) as Hr. fold nf in Hr, Hnf.
  destruct (bookkeep_event r) as [Hstop Hgo]; subst r; fields;
    try lia; try assumption.
  split; [repeat split; assumption|].
  destruct (Z_le_gt_dec nf 210) as [C|C].
  - left. destruct Hstop as [E1 E2]; [lia|]. unfold idle.
    repeat split; congruence.
  - right. destruct Hgo as [E1 E2]; [lia|]. unfold busy.
    rewrite Ep, En, Ec, E1, E2. repeat split; try lia; assumption.
Qed.

(** An idle voice takes the End event: one post, and it is idle again. *)
Lemma idle_step_end o n q :
  idle o -> rbuf o = n :: q -> type n = END ->
  let o' := voice_callback FRAMES_PER_BUFFER o in
  on_event o' q waiting_note (S (finished o)) /\ idle o' /\ num_frames o' = 0.
Proof.
  intros Hi Hq Hend o'.
  destruct (voice_callback_fields o) as (Eq & Ec & Ef & Ep & En).
  fold o' in Eq, Ec, Ef, Ep, En.
  rewrite (refill_idle_end o n q Hi Hq Hend) in Eq, Ec, Ef, Ep, En.
  fields.
  unfold idle, on_event. rewrite Ep, En. repeat split; assumption.
Qed.

(** An idle voice with an empty queue stays idle. *)
Lemma idle_step_empty o :
  idle o -> rbuf o = [] ->
  let o' := voice_callback FRAMES_PER_BUFFER o in
  on_event o' [] waiting_note (finished o) /\ idle o' /\ num_frames o' = 0.
Proof.
  intros Hi Hq o'.
  destruct (voice_callback_fields o) as (Eq & Ec & Ef & Ep & En).
  fold o' in Eq, Ec, Ef, Ep, En.
  rewrite (refill_idle_empty o Hi Hq) in Eq, Ec, Ef, Ep, En.
  fields.
  unfold idle, on_event. rewrite Ep, En, Eq. repeat split; assumption.
Qed.

(** An idle voice that takes a playable event holds it for
    [event_buffers n] callbacks and is idle again. *)
Lemma event_run o n q :
  idle o -> rbuf o = n :: q -> playable n ->
  let k := event_buffers n in
  (0 < k)%nat /\
  (forall j, (0 < j < k)%nat ->
     busy (run j o) /\ on_event (run j o) q n (finished o)) /\
  idle (run k o) /\ on_event (run k o) q n (finished o).
Proof.
  intros Hi Hq (Hend & Hwait & Hnf) k.
  destruct (idle_step_event o n q Hi Hq Hend Hwait Hnf)
    as (Hev & [(C & Hi' & _)|(C & Hb & Hp & Hn)]).
  - assert (Hk : k = 1%nat).
    { subst k. unfold event_buffers, buffers_of, buffers_left.
      pose proof (frames_of_ms_range (ms n)).
      assert ((Z.min (frames_of_ms (ms n)) (2 ^ 31) - 0 + 209) / 210 <= 1)
        by (Z.to_euclidean_division_equations; lia).
      lia. }
    rewrite Hk. split; [lia|]. split; [intros j Hj; lia|].
    rewrite run_S, run_0. split; assumption.
  - set (o' := voice_callback FRAMES_PER_BUFFER o) in *.
    assert (Hk : buffers_left (frames_played o') (num_frames o')
                 = Z.of_nat (Nat.pred k) /\ (0 < k)%nat).
    { subst k. unfold event_buffers, buffers_of. rewrite Hp, Hn.
      unfold buffers_left. Z.to_euclidean_division_equations; lia. }
    destruct Hk as [Hk Hpos].
    destruct (busy_run _ o' Hb Hk) as (Hlt & Hidle & _ & Hon).
    destruct Hev as (Eq & Ec & Ef). rewrite Eq, Ec, Ef in Hlt, Hon.
    replace k with (S (Nat.pred k)) by lia.
    split; [lia|]. split.
    + intros [|j] Hj; [lia|]. rewrite run_S. apply Hlt. lia.
    + rewrite run_S. split; assumption.
Qed.

(** Only an End event taken from the queue posts. *)
Lemma no_end_step o :
  no_end (rbuf o) ->
  let o' := voice_callback FRAMES_PER_BUFFER o in
  finished o' = finished o /\ no_end (rbuf o').
Proof.
  intros H o'. destruct (voice_callback_fields o) as (Eq & _ & Ef & _).
  fold o' in Eq, Ef. rewrite Eq, Ef. clear Eq Ef o'.
  unfold refill, PaUtil_ReadRingBuffer.
  destruct (frames_played o =? -1); [|split; [reflexivity|exact H]].
  destruct (rbuf o) as [|n rest] eqn:E; fields.
  - change (type waiting_note =? END) with false. fields.
    rewrite E. split; [reflexivity | constructor].
  - inversion H as [|? ? Hn Hrest]; subst.
    destruct (Z.eqb_spec (type n) END) as [C|_]; [contradiction|].
    fields. split; [reflexivity | exact Hrest].
Qed.

Lemma api_playable n : api_event n -> playable n.
Proof.
  intros [[H|H] Hm]; unfold playable; rewrite H;
    (split; [discriminate | split; [discriminate|]]);
    apply frames_of_ms_small, Hm.
Qed.


(** ** The states of a voice *)

Lemma voice_inv_callback o :
  voice_inv o -> voice_inv (voice_callback FRAMES_PER_BUFFER o).
Proof.
  intros [[Hi|Hb] Hq].
  - destruct (rbuf o) as [|n q] eqn:E.
    + destruct (idle_step_empty o Hi E) as ((Eq & _) & Hi' & _).
      split; [left; exact Hi' | rewrite Eq; constructor].
    + inversion Hq as [|? ? Hn Hrest]; subst.
      destruct Hn as [Hn|Hn].
      * destruct (api_playable n Hn) as (P1 & P2 & P3).
        destruct (idle_step_event o n q Hi E P1 P2 P3)
          as ((Eq & _) & [(_ & Hi' & _)|(_ & Hb' & _)]);
          (split; [auto | rewrite Eq; exact Hrest]).
      * destruct (idle_step_end o n q Hi E Hn) as ((Eq & _) & Hi' & _).
        split; [left; exact Hi' | rewrite Eq; exact Hrest].
  - destruct (busy_step o Hb) as (Eq & _ & _ & [(_ & Hi' & _)|(_ & Hb' & _)]);
      (split; [auto | rewrite Eq; exact Hq]).
Qed.

Lemma voice_inv_enqueue o n :
  voice_inv o -> queued_ok n -> voice_inv (enqueue n o).
Proof.
  intros [Hs Hq] Hn. split; [exact Hs|].
  unfold enqueue, PaUtil_WriteRingBuffer; fields.
  destruct (Z.of_nat (length (rbuf o)) <? RBUF_SIZE); [|exact Hq].
  apply Forall_app. split; [exact Hq | constructor; [exact Hn | constructor]].
Qed.

Lemma update_osc_Forall (P : osc -> Prop) f :
  (forall o, P o -> P (f o)) ->
  forall oscs id, Forall P oscs -> Forall P (update_osc id f oscs).
Proof.
  intros Hf. induction oscs as [|o rest IH]; intros id Hall;
    [destruct id; constructor|].
  inversion Hall; subst.
  destruct id; cbn [update_osc]; constructor; auto.
Qed.

Lemma step_voice_inv a oscs :
  api_action a -> Forall voice_inv oscs -> Forall voice_inv (step a oscs).
Proof.
  intros Ha Hall. destruct a as [id m h|id m|id|]; cbn [step api_action] in *.
  - unfold playOsc. destruct (NUM_OSCILLATORS <=? id); [assumption|].
    apply update_osc_Forall; [|assumption]. intros o Ho.
    apply voice_inv_enqueue; [exact Ho|]. left. split; [left; reflexivity|].
    cbn [ms]. rewrite to_int_small; lia.
  - unfold restOsc. destruct (NUM_OSCILLATORS <=? id); [assumption|].
    apply update_osc_Forall; [|assumption]. intros o Ho.
    apply voice_inv_enqueue; [exact Ho|]. left. split; [right; reflexivity|].
    cbn [ms]. rewrite to_int_small; lia.
  - unfold endOsc. destruct (NUM_OSCILLATORS <=? id); [assumption|].
    apply update_osc_Forall; [|assumption]. intros o Ho.
    apply voice_inv_enqueue; [exact Ho|]. right. reflexivity.
  - rewrite paCallback_fst, Forall_map.
    eapply Forall_impl; [|exact Hall]. apply voice_inv_callback.
Qed.

Lemma well_used_voice_inv sin oscs :
  well_used sin oscs -> Forall voice_inv oscs.
Proof.
  induction 1 as [|a oscs Ha _ IH].
  - repeat constructor.
  - apply step_voice_inv; assumption.
Qed.

(** * The claims of the specification *)

(** ** The envelope is computed and not used (C1) *)

Lemma getNextFrame_set_vol o v :
  getNextFrame (set_vol o v)
  = (fst (getNextFrame o), set_vol (snd (getNextFrame o)) v).
Proof.
  unfold getNextFrame; fields.
  destruct ((type (curr_note o) =? REST) || (type (curr_note o) =? WAITING)
            || (type (curr_note o) =? END)); reflexivity.
Qed.

(** C1, at the failing input: the second oscillator (sawtooth table) has
    taken a Note of 1000 ms at 440 Hz.  For frame 0 of the buffer the
    envelope volume is the float nearest to 1/210, the table sample is 1, and
    the sample that getNextFrame returns and the callback mixes in
    (sample / NUM_OSCILLATORS = 1/2) is the table sample itself, for that
    volume and for any other: the volume is never multiplied in.  The first
    sample that the callback writes to the output buffer, the first
    oscillator being silent, is that 1/2. *)
Theorem C1_envelope_not_applied :
  let o := refill (saw_voice [mkNote NOTE 1000 (Double.of_Z 440)]) in
  let v := envelope 0 FRAMES_PER_BUFFER o in
  let f := fst (getNextFrame (set_vol o v)) in
  let oscillators :=
    step (Play 1 1000 (Double.of_Z 440))
         (initOscillators (initTables (fun x => x))) in
  type (curr_note o) = NOTE /\
  v = S754_finite false 5490102612525056 (-60) /\
  left f = table_at (table o) 0 /\
  left f = S754_finite false 8388608 (-23) /\
  left (mix silence f) = S754_finite false 8388608 (-24) /\
  Double.mul (Single.to_double (left f)) v <> Single.to_double (left f) /\
  (forall v', fst (getNextFrame (set_vol o v')) = f) /\
  nth 0 (snd (paCallback FRAMES_PER_BUFFER oscillators)) (S754_zero false)
  = S754_finite false 8388608 (-24).
Proof.
  cbv zeta.
  split; [reflexivity|]. split; [vm_compute; reflexivity|].
  split; [vm_compute; reflexivity|]. split; [vm_compute; reflexivity|].
  split; [vm_compute; reflexivity|]. split; [vm_compute; discriminate|].
  split; [|vm_compute; reflexivity].
  intros v'. rewrite !getNextFrame_set_vol. reflexivity.
Qed.

(** ** The completion signal (C2) *)

Lemma busy_buffers_left o :
  busy o -> 1 <= buffers_left (frames_played o) (num_frames o).
Proof.
  intros Hb. destruct (busy_step o Hb) as (_ & _ & _ & [[E _]|[E _]]); lia.
Qed.

Lemma settle_time_idle o : idle o -> settle_time o = 0%nat.
Proof. intros H. unfold settle_time. rewrite H. reflexivity. Qed.

Lemma settle_time_busy o :
  busy o ->
  settle_time o = Z.to_nat (buffers_left (frames_played o) (num_frames o)) /\
  (0 < settle_time o)%nat.
Proof.
  intros Hb. pose proof (busy_buffers_left o Hb). unfold settle_time.
  destruct (Z.eqb_spec (frames_played o) (-1)) as [E|_];
    [destruct Hb as [Hb _]; lia|]. split; [reflexivity | lia].
Qed.

Lemma event_buffers_pos n : (0 < event_buffers n)%nat.
Proof. unfold event_buffers, buffers_of. lia. Qed.

Lemma enqueue_state o n :
  frames_played (enqueue n o) = frames_played o /\
  num_frames (enqueue n o) = num_frames o /\
  curr_note (enqueue n o) = curr_note o /\
  finished (enqueue n o) = finished o /\
  (rbuf (enqueue n o) = rbuf o ++ [n] \/ rbuf (enqueue n o) = rbuf o).
Proof.
  unfold enqueue, PaUtil_WriteRingBuffer; fields.
  destruct (Z.of_nat (length (rbuf o)) <? RBUF_SIZE); auto 6.
Qed.

(** Enqueueing behind the End event changes neither the state of the voice
    nor the events before End. *)
Lemma end_pending_enqueue o evs n :
  end_pending o evs -> type n <> END ->
  end_pending (enqueue n o) evs /\
  settle_time (enqueue n o) = settle_time o /\
  finished (enqueue n o) = finished o.
Proof.
  intros (Hs & Hevs & e & later & He & Hl & Hq) Hn.
  destruct (enqueue_state o n) as (Ep & En & Ec & Ef & Eq).
  split; [|split; [unfold settle_time; now rewrite Ep, En | exact Ef]].
  split; [|split; [exact Hevs|]].
  - unfold idle, busy in *. rewrite Ep, En, Ec. exact Hs.
  - destruct Eq as [Eq|Eq]; rewrite Eq, Hq.
    + exists e, (later ++ [n]). split; [exact He|]. split.
      * apply Forall_app. split; [exact Hl | constructor; [exact Hn | constructor]].
      * rewrite <- app_assoc. reflexivity.
    + exists e, later. repeat split; assumption.
Qed.

(** A callback before the post is due: no post, and one callback less to
    go. *)
Lemma end_pending_render o evs :
  end_pending o evs ->
  (0 < settle_time o + drain_time evs)%nat ->
  let o' := voice_callback FRAMES_PER_BUFFER o in
  exists evs',
    end_pending o' evs' /\ finished o' = finished o /\
    (settle_time o' + drain_time evs' + 1
     = settle_time o + drain_time evs)%nat.
Proof.
  intros (Hs & Hevs & e & later & He & Hl & Hq) HT o'.
  destruct Hs as [Hi|Hb].
  - rewrite (settle_time_idle o Hi) in *.
    destruct evs as [|n evs]; [cbn in HT; lia|].
    inversion Hevs as [|? ? Hn Hrest]; subst.
    destruct (api_playable n Hn) as (P1 & P2 & P3).
    destruct (idle_step_event o n (evs ++ e :: later) Hi Hq P1 P2 P3)
      as ((Eq & _ & Ef) & Hcases).
    fold o' in Eq, Ef, Hcases. exists evs. cbn [drain_time].
    pose proof (frames_of_ms_range (ms n)) as Hr.
    destruct Hcases as [(C & Hi' & _)|(C & Hb' & Ep & En)].
    + split; [|split; [exact Ef|]].
      * split; [left; exact Hi'|]. split; [exact Hrest|].
        exists e, later. repeat split; assumption.
      * rewrite (settle_time_idle o' Hi').
        assert (event_buffers n = 1%nat).
        { unfold event_buffers, buffers_of, buffers_left.
          assert ((Z.min (frames_of_ms (ms n)) (2 ^ 31) - 0 + 209) / 210 <= 1)
            by (Z.to_euclidean_division_equations; lia).
          lia. }
        lia.
    + split; [|split; [exact Ef|]].
      * split; [right; exact Hb'|]. split; [exact Hrest|].
        exists e, later. repeat split; assumption.
      * destruct (settle_time_busy o' Hb') as [-> _]. rewrite Ep, En.
        unfold event_buffers, buffers_of, buffers_left.
        Z.to_euclidean_division_equations; lia.
  - destruct (settle_time_busy o Hb) as [Es Hpos].
    destruct (busy_step o Hb) as (Eq & _ & Ef & Hcases).
    fold o' in Eq, Ef, Hcases. exists evs.
    destruct Hcases as [(C & Hi' & _)|(C & Hb' & _ & Ed)].
    + split; [|split; [exact Ef|]].
      * split; [left; exact Hi'|]. split; [exact Hevs|].
        exists e, later. rewrite Eq. repeat split; assumption.
      * rewrite (settle_time_idle o' Hi'), Es, C. lia.
    + split; [|split; [exact Ef|]].
      * split; [right; exact Hb'|]. split; [exact Hevs|].
        exists e, later. rewrite Eq. repeat split; assumption.
      * destruct (settle_time_busy o' Hb') as [-> _]. rewrite Es, Ed. lia.
Qed.

(** The callback at which the post is due: the voice is idle, End is the
    oldest element of the queue, and the callback posts. *)
Lemma end_pending_post o evs :
  end_pending o evs ->
  (settle_time o + drain_time evs = 0)%nat ->
  let o' := voice_callback FRAMES_PER_BUFFER o in
  idle o /\ evs = [] /\
  finished o' = S (finished o) /\ no_end (rbuf o').
Proof.
  intros (Hs & Hevs & e & later & He & Hl & Hq) HT o'.
  assert (Hi : idle o).
  { destruct Hs as [Hi|Hb]; [exact Hi|].
    destruct (settle_time_busy o Hb) as [_ Hpos]. lia. }
  assert (Hnil : evs = []).
  { destruct evs as [|n evs]; [reflexivity|]. cbn [drain_time] in HT.
    pose proof (event_buffers_pos n). lia. }
  subst evs. cbn [app] in Hq.
  destruct (idle_step_end o e later Hi Hq He) as ((Eq & _ & Ef) & _).
  fold o' in Eq, Ef. rewrite Eq. repeat split; assumption.
Qed.

(** After the post, nothing posts again. *)
Lemma no_end_exec s : forall o,
  Forall not_end_enqueue s -> no_end (rbuf o) ->
  finished (voice_exec s o) = finished o.
Proof.
  induction s as [|a s IH]; intros o Hs Hq; [reflexivity|].
  inversion Hs as [|? ? Ha Hrest]; subst. cbn [voice_exec].
  destruct a as [n|]; cbn [voice_step not_end_enqueue] in *.
  - destruct (enqueue_state o n) as (_ & _ & _ & Ef & Eq).
    rewrite IH; [exact Ef | exact Hrest|].
    destruct Eq as [-> | ->]; [|exact Hq].
    apply Forall_app. split; [exact Hq | constructor; [exact Ha | constructor]].
  - destruct (no_end_step o Hq) as [Ef Hq'].
    rewrite IH; assumption.
Qed.

Lemma end_pending_exec s : forall o evs,
  Forall not_end_enqueue s -> end_pending o evs ->
  let k := (settle_time o + drain_time evs)%nat in
  ((renders s <= k)%nat ->
     finished (voice_exec s o) = finished o /\
     exists evs', end_pending (voice_exec s o) evs' /\
       (settle_time (voice_exec s o) + drain_time evs' + renders s = k)%nat) /\
  ((k < renders s)%nat -> finished (voice_exec s o) = S (finished o)).
Proof.
  induction s as [|a s IH]; intros o evs Hs Hp k.
  - cbn [voice_exec renders]. split; [|lia].
    intros _. split; [reflexivity|]. exists evs. split; [exact Hp | lia].
  - inversion Hs as [|? ? Ha Hrest]; subst. cbn [voice_exec].
    destruct a as [n|]; cbn [voice_step renders not_end_enqueue] in *.
    + destruct (end_pending_enqueue o evs n Hp Ha) as (Hp' & Et & Ef).
      destruct (IH (enqueue n o) evs Hrest Hp') as [IH1 IH2].
      rewrite Et, Ef in *. split; assumption.
    + destruct (Nat.eq_dec k 0) as [K0|K0].
      * destruct (end_pending_post o evs Hp K0) as (_ & _ & Ef & Hq).
        split; [lia|]. intros _.
        rewrite no_end_exec by assumption. exact Ef.
      * destruct (end_pending_render o evs Hp ltac:(fold k; lia))
          as (evs' & Hp' & Ef & Et).
        destruct (IH _ evs' Hrest Hp') as [IH1 IH2]. rewrite Ef in *.
        fold k in Et. split.
        -- intros Hle. destruct IH1 as [E (evs'' & Hp'' & Et'')]; [lia|].
           split; [exact E|]. exists evs''. split; [exact Hp''|lia].
        -- intros Hlt. apply IH2. lia.
Qed.

Lemma update_osc_other f : forall oscs k j,
  j <> k -> nth_error (update_osc k f oscs) j = nth_error oscs j.
Proof.
  induction oscs as [|o rest IH]; intros [|k] [|j] H; cbn [update_osc nth_error];
    try reflexivity; try contradiction.
  apply IH. congruence.
Qed.

Lemma update_osc_same f : forall oscs k o,
  nth_error oscs k = Some o -> nth_error (update_osc k f oscs) k = Some (f o).
Proof.
  induction oscs as [|o' rest IH]; intros [|k] o H; cbn [update_osc nth_error] in *;
    try discriminate.
  - congruence.
  - apply IH, H.
Qed.

(** *** Schedules of the synthesizer, seen from one voice *)

Lemma exec_app s1 s2 oscs : exec (s1 ++ s2) oscs = exec s2 (exec s1 oscs).
Proof. unfold exec. apply fold_left_app. Qed.

Lemma exec_callbacks k : forall oscs,
  exec (repeat Callback k) oscs = map (run k) oscs.
Proof.
  induction k as [|k IH]; intros oscs.
  - cbn [repeat]. unfold exec, run. cbn [fold_left Nat.iter].
    now rewrite map_id.
  - cbn [repeat]. unfold exec in *. cbn [fold_left step].
    rewrite IH, paCallback_fst, map_map. apply map_ext.
    intros o. now rewrite run_S.
Qed.

Lemma voice_exec_app s1 : forall s2 o,
  voice_exec (s1 ++ s2) o = voice_exec s2 (voice_exec s1 o).
Proof.
  induction s1 as [|a s1 IH]; intros s2 o; [reflexivity|].
  cbn [app voice_exec]. apply IH.
Qed.

Lemma step_view a oscs k o :
  nth_error oscs k = Some o ->
  nth_error (step a oscs) k = Some (voice_exec (voice_view k a) o).
Proof.
  intros H.
  assert (Henq : forall id n,
            nth_error
              (if NUM_OSCILLATORS <=? id then oscs
               else update_osc (Z.to_nat id) (enqueue n) oscs) k
            = Some (voice_exec (if targets id k then [Enqueue n] else []) o)).
  { intros id n. unfold targets.
    destruct (Z.leb_spec NUM_OSCILLATORS id) as [L|L];
      destruct (Z.ltb_spec id NUM_OSCILLATORS) as [L'|L']; try lia;
      cbn [andb voice_exec]; [exact H|].
    destruct (Nat.eqb_spec (Z.to_nat id) k) as [E|E]; cbn [voice_exec voice_step].
    - rewrite E. apply update_osc_same, H.
    - rewrite update_osc_other by congruence. exact H. }
  destruct a as [id m h|id m|id|]; cbn [step voice_view].
  - apply Henq.
  - apply Henq.
  - apply Henq.
  - rewrite paCallback_fst, nth_error_map, H.
    cbn [option_map voice_exec voice_step]. reflexivity.
Qed.

Lemma exec_view s : forall oscs k o,
  nth_error oscs k = Some o ->
  nth_error (exec s oscs) k = Some (voice_exec (flat_map (voice_view k) s) o).
Proof.
  induction s as [|a s IH]; intros oscs k o H; [exact H|].
  cbn [flat_map]. rewrite voice_exec_app.
  change (exec (a :: s) oscs) with (exec s (step a oscs)).
  apply IH, step_view, H.
Qed.

Lemma view_renders k s : renders (flat_map (voice_view k) s) = callbacks s.
Proof.
  unfold callbacks.
  induction s as [|a s IH]; [reflexivity|].
  cbn [flat_map filter].
  assert (Happ : forall s1 s2, renders (s1 ++ s2) = (renders s1 + renders s2)%nat).
  { induction s1 as [|[n|] s1 IH1]; intros s2; cbn [app renders];
      [reflexivity | apply IH1 | now rewrite IH1]. }
  rewrite Happ, IH.
  destruct a as [id m h|id m|id|]; cbn [voice_view is_callback];
    try (destruct (targets id k)); reflexivity.
Qed.

Lemma view_not_end k s :
  Forall (fun a => ~ ends_voice k a) s ->
  Forall not_end_enqueue (flat_map (voice_view k) s).
Proof.
  induction 1 as [|a s Ha _ IH]; [constructor|].
  cbn [flat_map]. apply Forall_app. split; [|exact IH].
  destruct a as [id m h|id m|id|]; cbn [voice_view ends_voice] in *.
  - destruct (targets id k); repeat constructor. discriminate.
  - destruct (targets id k); repeat constructor. discriminate.
  - unfold targets.
    destruct (Z.ltb_spec id NUM_OSCILLATORS) as [L|L]; [|constructor].
    destruct (Nat.eqb_spec (Z.to_nat id) k) as [E|E]; [|constructor].
    exfalso. apply Ha. split; assumption.
  - repeat constructor.
Qed.

(** C2 fails at a note of more than [MS_MAX] ms: oscillator 1 is given,
    after initialisation, a Note of 48695777 ms at 440 Hz and then End.
    The note has 2147483765 frames and the specification gives it 10226114
    buffers.  The voice is on the note for [CUT_BUFFERS] = 10226113
    callbacks only, 2147483730 samples: at the last of them the [int]
    counter frames_played passes INT_MAX and the test of the third loop
    (forget the note if we finished playing it) succeeds.  After these
    callbacks the voice is idle, End is the oldest event of its queue, the
    semaphore has not been posted and a wait on it blocks; the next
    callback takes End and posts, and the wait returns, before the note
    has been rendered to its end. *)
Theorem C2_long_note_posts_early :
  let note := mkNote NOTE (MS_MAX + 1) (Double.of_Z 440) in
  let end_event := mkNote END 0 (Double.of_Z 0) in
  let queued :=
    exec [Play 1 (MS_MAX + 1) (Double.of_Z 440); End 1]
         (initOscillators (initTables (fun x => x))) in
  let voice j := nth_error (exec (repeat Callback j) queued) 1 in
  let k := Z.to_nat CUT_BUFFERS in
  frames_of_ms (ms note) = 2147483765 /\
  spec_rendered_samples (ms note) = 10226114 * FRAMES_PER_BUFFER /\
  CUT_BUFFERS * FRAMES_PER_BUFFER = 2147483730 /\
  (exists o, voice 0%nat = Some o /\ idle o /\
             rbuf o = [note; end_event] /\ finished o = 0%nat) /\
  (forall j, (0 < j < k)%nat ->
     exists o, voice j = Some o /\ busy o /\ curr_note o = note /\
               rbuf o = [end_event] /\ finished o = 0%nat) /\
  (exists o, voice k = Some o /\ idle o /\ curr_note o = note /\
             rbuf o = [end_event] /\ finished o = 0%nat /\
             termSynth_wait o = None) /\
  (exists o, voice (S k) = Some o /\ finished o = 1%nat /\
             exists o', termSynth_wait o = Some o').
Proof.
  cbv zeta.
  set (note := mkNote NOTE (MS_MAX + 1) (Double.of_Z 440)).
  set (end_event := mkNote END 0 (Double.of_Z 0)).
  set (queued := exec [Play 1 (MS_MAX + 1) (Double.of_Z 440); End 1]
                      (initOscillators (initTables (fun x => x)))).
  set (o1 := voice_exec [Enqueue note; Enqueue end_event]
                        (init_osc (saw (initTables (fun x => x))))).
  assert (Hq1 : nth_error queued 1 = Some o1).
  { subst queued.
    rewrite (exec_view _ _ 1 (init_osc (saw (initTables (fun x => x)))))
      by reflexivity.
    reflexivity. }
  assert (Hvoice : forall j,
            nth_error (exec (repeat Callback j) queued) 1 = Some (run j o1)).
  { intros j. rewrite exec_callbacks, nth_error_map, Hq1. reflexivity. }
  assert (Hi : idle o1) by reflexivity.
  assert (Hq : rbuf o1 = [note; end_event]) by reflexivity.
  assert (Hf : finished o1 = 0%nat) by reflexivity.
  assert (Hplay : playable note).
  { split; [discriminate|]. split; [discriminate|].
    vm_compute. discriminate. }
  assert (Hk : event_buffers note = Z.to_nat CUT_BUFFERS).
  { unfold event_buffers.
    apply (f_equal Z.to_nat). vm_compute. reflexivity. }
  destruct (event_run o1 note [end_event] Hi Hq Hplay)
    as (_ & Hbusy & Hidle & (Eq & Ec & Ef)).
  rewrite Hk in Hbusy, Hidle, Eq, Ec, Ef.
  set (k := Z.to_nat CUT_BUFFERS) in *. clearbody k.
  split; [vm_compute; reflexivity|]. split; [vm_compute; reflexivity|].
  split; [reflexivity|]. split.
  { exists o1. rewrite Hvoice, run_0. repeat split. }
  split.
  { intros j Hj. exists (run j o1). rewrite Hvoice.
    destruct (Hbusy j Hj) as (Hb & Eq' & Ec' & Ef').
    split; [reflexivity|]. split; [exact Hb|]. split; [exact Ec'|].
    split; [exact Eq' | congruence]. }
  split.
  { exists (run k o1). rewrite Hvoice.
    split; [reflexivity|]. split; [exact Hidle|]. split; [exact Ec|].
    split; [exact Eq|]. split; [congruence|].
    unfold termSynth_wait. rewrite Ef, Hf. reflexivity. }
  exists (run (S k) o1). rewrite Hvoice. split; [reflexivity|].
  replace (S k) with (k + 1)%nat by lia.
  rewrite run_add, run_S, run_0.
  destruct (idle_step_end (run k o1) end_event [] Hidle Eq eq_refl)
    as ((_ & _ & Ef1) & _).
  rewrite Ef, Hf in Ef1.
  split; [exact Ef1|]. unfold termSynth_wait. rewrite Ef1.
  cbn [sem_wait]. eexists. reflexivity.
Qed.

(** ** The rendered duration of an event (C3) *)

(** C3 as stated fails: a Rest of 0 ms keeps the voice for one buffer, 210
    samples, where the formula gives 0 samples. *)
Lemma C3_zero_duration_one_buffer :
  let n := mkNote REST 0 (Double.of_Z 0) in
  let o := saw_voice [n] in
  curr_note (refill o) = n /\
  idle (run 1 o) /\ rbuf (run 1 o) = [] /\
  Z.of_nat (event_buffers n) * FRAMES_PER_BUFFER = 210 /\
  spec_rendered_samples (ms n) = 0.
Proof.
  cbv zeta. repeat split; try reflexivity.
Qed.

(** An event of more than [MS_MAX] ms is cut short when the [int] counter
    frames_played passes INT_MAX: at 48695777 ms the voice is released
    after 10226113 buffers, one less than the duration asks for. *)
Lemma long_event_cut_short :
  let n := mkNote NOTE (MS_MAX + 1) (Double.of_Z 440) in
  buffers_of (frames_of_ms (ms n)) = 10226113 /\
  spec_rendered_samples (ms n) = 10226114 * FRAMES_PER_BUFFER.
Proof. cbv zeta. split; vm_compute; reflexivity. Qed.

Lemma event_buffers_formula m :
  0 < m <= MS_MAX ->
  Z.of_nat (Z.to_nat (buffers_of (frames_of_ms m))) * FRAMES_PER_BUFFER
  = spec_rendered_samples m.
Proof.
  intros Hm. unfold MS_MAX in Hm.
  pose proof (frames_of_ms_bounds m ltac:(lia)) as B.
  unfold spec_rendered_samples, buffers_of, buffers_left,
    FRAMES_PER_BUFFER, SAMPLE_RATE.
  set (nf := frames_of_ms m) in *.
  assert (Hmin : Z.min nf (2 ^ 31) = nf \/
                 (Z.min nf (2 ^ 31) = 2 ^ 31 /\ 2 ^ 31 < nf)) by lia.
  rewrite Z2Nat.id by (Z.to_euclidean_division_equations; lia).
  f_equal.
  destruct Hmin as [->|[-> Hbig]]; Z.to_euclidean_division_equations; lia.
Qed.

(** C3, amended: an event of at most [MS_MAX] ms that an idle voice takes
    from its queue keeps the voice for exactly [k] callbacks, that is
    [k * frames_per_buffer] samples, where for a duration above 0 ms
    [k * frames_per_buffer] is
    [ceil (duration_ms / 1000 * sample_rate / frames_per_buffer)
     * frames_per_buffer], and for 0 ms it is one buffer; the rendered
    duration is a whole number of buffers, at least one, and not shorter
    than the requested duration. *)
Theorem C3_rendered_duration (o : osc) (n : note) (q : list note) :
  idle o -> rbuf o = n :: q ->
  type n = NOTE \/ type n = REST ->
  0 <= ms n <= MS_MAX ->
  let k := event_buffers n in
  let samples := Z.of_nat k * FRAMES_PER_BUFFER in
  (forall j, (0 < j < k)%nat ->
     busy (run j o) /\ curr_note (run j o) = n /\ rbuf (run j o) = q) /\
  idle (run k o) /\ rbuf (run k o) = q /\
  (0 < ms n -> samples = spec_rendered_samples (ms n)) /\
  (ms n = 0 -> samples = FRAMES_PER_BUFFER) /\
  FRAMES_PER_BUFFER <= samples /\
  ms n * SAMPLE_RATE <= 1000 * samples /\
  frames_of_ms (ms n) <= samples.
Proof.
  intros Hi Hq Hty Hm k samples.
  assert (Hapi : api_event n) by (split; [exact Hty | unfold MS_MAX in Hm; lia]).
  destruct (event_run o n q Hi Hq (api_playable n Hapi))
    as (Hk & Hbusy & Hidle & Hon).
  fold k in Hk, Hbusy, Hidle, Hon.
  split.
  { intros j Hj. destruct (Hbusy j Hj) as (Hb & Eq & Ec & _).
    repeat split; try assumption; apply Hb. }
  split; [exact Hidle|]. split; [apply Hon|].
  assert (Hpos : 0 < ms n -> samples = spec_rendered_samples (ms n)).
  { intros H. subst samples k. unfold event_buffers.
    apply event_buffers_formula. lia. }
  assert (Hzero : ms n = 0 -> samples = FRAMES_PER_BUFFER).
  { intros H. subst samples k. unfold event_buffers. rewrite H. reflexivity. }
  split; [exact Hpos|]. split; [exact Hzero|].
  assert (Hone : FRAMES_PER_BUFFER <= samples).
  { subst samples. unfold FRAMES_PER_BUFFER. lia. }
  split; [exact Hone|].
  pose proof (frames_of_ms_bounds (ms n) ltac:(unfold MS_MAX in Hm; lia)) as B.
  destruct (Z.eq_dec (ms n) 0) as [E|E].
  - rewrite (Hzero E), E. vm_compute. split; discriminate.
  - rewrite (Hpos ltac:(lia)).
    unfold spec_rendered_samples, FRAMES_PER_BUFFER, SAMPLE_RATE.
    split; Z.to_euclidean_division_equations; lia.
Qed.

Lemma C3_rendered_duration_witness :
  let n := mkNote NOTE 500 (Double.of_Z 440) in
  let o := saw_voice [n] in
  idle (run (event_buffers n) o) /\
  Z.of_nat (event_buffers n) * FRAMES_PER_BUFFER = spec_rendered_samples 500.
Proof.
  cbv zeta.
  destruct (C3_rendered_duration
              (saw_voice [mkNote NOTE 500 (Double.of_Z 440)])
              (mkNote NOTE 500 (Double.of_Z 440)) [])
    as (_ & H1 & _ & H2 & _).
  - reflexivity.
  - reflexivity.
  - left; reflexivity.
  - vm_compute. split; discriminate.
  - split; [exact H1 | apply H2; reflexivity].
Defined.

(** ** The envelope (C4) *)

Lemma float_near_sound x num den :
  float_near x num den = true -> 0 < den ->
  (Rabs (SFval x - IZR num / IZR den) <= bpow (-25))%R.
Proof.
  intros H Hden.
  assert (Hd : (0 < IZR den)%R) by (apply IZR_lt; exact Hden).
  assert (E25 : bpow (-25) = (/ IZR (2 ^ 25))%R).
  { change (-25) with (- (25)). rewrite bpow_opp, bpow_IZR by lia. reflexivity. }
  assert (H25 : (0 < IZR (2 ^ 25))%R) by (apply IZR_lt; reflexivity).
  (* | c / p - num / den | <= 2^-25 from | c den - num p | 2^25 <= den p *)
  assert (Hmain : forall c p, 0 < p ->
            Z.abs (c * den - num * p) * 2 ^ 25 <= den * p ->
            (Rabs (IZR c * / IZR p - IZR num / IZR den) <= / IZR (2 ^ 25))%R).
  { intros c p Hp Hle.
    assert (Hpr : (0 < IZR p)%R) by (apply IZR_lt; exact Hp).
    apply IZR_le in Hle. rewrite !mult_IZR, abs_IZR, minus_IZR, !mult_IZR in Hle.
    replace (IZR c * / IZR p - IZR num / IZR den)%R
      with ((IZR c * IZR den - IZR num * IZR p) * / (IZR den * IZR p))%R
      by (field; split; lra).
    assert (Hdp : (0 < IZR den * IZR p)%R) by nra.
    rewrite Rabs_mult, (Rabs_pos_eq (/ _))
      by (apply Rlt_le, Rinv_0_lt_compat, Hdp).
    apply Rmult_le_reg_r with (IZR den * IZR p)%R; [exact Hdp|].
    rewrite Rmult_assoc, Rinv_l by lra.
    apply Rmult_le_reg_r with (IZR (2 ^ 25)); [exact H25|].
    replace (/ IZR (2 ^ 25) * (IZR den * IZR p) * IZR (2 ^ 25))%R
      with (IZR den * IZR p)%R by (field; lra).
    lra. }
  rewrite E25.
  destruct x as [s|s| |s m [|k|k]]; cbn [float_near] in H; try discriminate.
  - apply Z.leb_le in H. cbn [SFval].
    specialize (Hmain 0 1 ltac:(lia)).
    rewrite Rmult_0_l in Hmain. apply Hmain.
    replace (0 * den - num * 1) with (- num) by lia.
    rewrite Z.abs_opp. lia.
  - apply Z.leb_le in H. cbn [SFval].
    change (Zneg k) with (- Zpos k). rewrite bpow_opp, bpow_IZR by lia.
    assert (Hp : 0 < 2 ^ Zpos k) by (apply Z.pow_pos_nonneg; lia).
    specialize (Hmain (cond_Zopp s (Zpos m)) (2 ^ Zpos k) Hp H).
    destruct s; cbn [cond_Zopp] in Hmain; [rewrite opp_IZR in Hmain|];
      exact Hmain.
Qed.

Lemma frame_indices_In i :
  0 <= i < FRAMES_PER_BUFFER -> In i frame_indices.
Proof.
  intros H. unfold frame_indices. apply in_map_iff.
  exists (Z.to_nat i). split; [lia|]. apply in_seq.
  unfold FRAMES_PER_BUFFER in *. lia.
Qed.

(** The two ramps, for the 210 frames of a buffer, by evaluation. *)
Lemma ramps_near :
  forallb (fun i =>
             float_near (Single.to_double (buffer_ramp i FRAMES_PER_BUFFER))
                        (i + 1) FRAMES_PER_BUFFER
             && float_near
                  (Double.sub (Double.of_Z 1)
                     (Single.to_double (buffer_ramp i FRAMES_PER_BUFFER)))
                  (FRAMES_PER_BUFFER - (i + 1)) FRAMES_PER_BUFFER)
          frame_indices = true.
Proof. vm_compute. reflexivity. Qed.

Lemma getNextFrame_vol o : vol (snd (getNextFrame o)) = vol o.
Proof.
  unfold getNextFrame.
  destruct ((type (curr_note o) =? REST) || (type (curr_note o) =? WAITING)
            || (type (curr_note o) =? END)); reflexivity.
Qed.

(** The three cases of the envelope, for one voice that is idle or on an
    event when the callback begins. *)
Lemma envelope_cases (o : osc) (i : Z) :
  idle o \/ busy o ->
  0 <= i < FRAMES_PER_BUFFER ->
  let r := voice_frames (Z.to_nat i) 0 FRAMES_PER_BUFFER (refill o) in
  let v := vol (voice_frame i FRAMES_PER_BUFFER r) in
  let ramp := Single.to_double (buffer_ramp i FRAMES_PER_BUFFER) in
  (frames_played r = 0 ->
     v = ramp /\
     (Rabs (SFval v - IZR (i + 1) / IZR FRAMES_PER_BUFFER) <= bpow (-25))%R) /\
  (frames_played r <> 0 ->
   num_frames r - FRAMES_PER_BUFFER <= frames_played r ->
     v = Double.sub (Double.of_Z 1) ramp /\
     (Rabs (SFval v - (1 - IZR (i + 1) / IZR FRAMES_PER_BUFFER))
      <= bpow (-25))%R) /\
  (frames_played r <> 0 ->
   frames_played r < num_frames r - FRAMES_PER_BUFFER ->
     v = Double.of_Z 1 /\ SFval v = 1%R).
Proof.
  intros Hstate Hi r v ramp.
  destruct (voice_frames_control (Z.to_nat i) 0 FRAMES_PER_BUFFER (refill o))
    as (_ & _ & Rp & Rn & _).
  fold r in Rp, Rn.
  assert (Hv : v = envelope i FRAMES_PER_BUFFER r).
  { subst v. unfold voice_frame. rewrite getNextFrame_vol. reflexivity. }
  pose proof ramps_near as Hnear. rewrite forallb_forall in Hnear.
  specialize (Hnear i (frame_indices_In i Hi)).
  apply andb_true_iff in Hnear. destruct Hnear as [Hup Hdown].
  apply float_near_sound in Hup; [|reflexivity].
  apply float_near_sound in Hdown; [|reflexivity].
  fold ramp in Hup, Hdown.
  assert (Hdown' : (Rabs (SFval (Double.sub (Double.of_Z 1) ramp)
                          - (1 - IZR (i + 1) / IZR FRAMES_PER_BUFFER))
                    <= bpow (-25))%R).
  { replace (1 - IZR (i + 1) / IZR FRAMES_PER_BUFFER)%R
      with (IZR (FRAMES_PER_BUFFER - (i + 1)) / IZR FRAMES_PER_BUFFER)%R;
      [exact Hdown|].
    rewrite minus_IZR. unfold FRAMES_PER_BUFFER. field. }
  assert (Hcases : frames_played r = 0 \/
                   (210 <= frames_played r < 2 ^ 31 /\
                    frames_played r < num_frames r <= 2 ^ 64 - 2 ^ 31)).
  { destruct Hstate as [Hidle|Hbusy].
    - left. rewrite Rp. unfold refill. rewrite Hidle. reflexivity.
    - right. rewrite Rp, Rn, refill_busy by (destruct Hbusy; lia).
      destruct Hbusy as (B1 & B2 & _). split; assumption. }
  rewrite Hv. unfold envelope. fold ramp.
  destruct Hcases as [E0|[B1 B2]].
  - rewrite E0. cbn [Z.eqb]. split; [|split]; intros; try contradiction.
    split; [reflexivity | exact Hup]. 
  - destruct (Z.eqb_spec (frames_played r) 0) as [C|_]; [lia|].
    rewrite (to_ulong_small (frames_played r)) by lia.
    rewrite (to_ulong_small (num_frames r - FRAMES_PER_BUFFER))
      by (unfold FRAMES_PER_BUFFER; lia).
    destruct (Z.leb_spec (num_frames r - FRAMES_PER_BUFFER) (frames_played r))
      as [L|L]; (split; [|split]); intros; try lia.
    + split; [reflexivity | exact Hdown'].
    + split; [reflexivity|].
      apply (SFval_const _ 52 1); [reflexivity | lia].
Qed.

Lemma voice_frames_add a : forall b i fpb o,
  voice_frames (a + b) i fpb o
  = voice_frames b (i + Z.of_nat a) fpb (voice_frames a i fpb o).
Proof.
  induction a as [|a IH]; intros b i fpb o.
  - cbn [Nat.add voice_frames]. now rewrite Z.add_0_r.
  - change (S a + b)%nat with (S (a + b)). cbn [voice_frames].
    rewrite IH. f_equal. lia.
Qed.

Lemma bookkeep_vol fpb o : vol (bookkeep fpb o) = vol o.
Proof.
  unfold bookkeep, advance, forget.
  destruct (type (curr_note o) =? WAITING); fields;
    match goal with |- context [if ?c then _ else _] => destruct c end;
    fields; reflexivity.
Qed.

(** C4: in every state that control calls and callbacks lead to, at every
    frame [i] of [0, frames_per_buffer) of the next callback and for every
    voice (the one at index [k]): with [before] the oscillators as the
    second loop of the callback finds them at frame [i], and [after] the
    oscillators as its inner loop leaves them at that frame, the volume
    that the inner loop has set is
    - [(i + 1) / frames_per_buffer] when frames_played is 0, whatever
      frames_total is: the ramp-up is tested first, so a note of one buffer
      only ramps up;
    - [1 - (i + 1) / frames_per_buffer] when frames_played is not 0 and
      frames_played >= frames_total - frames_per_buffer;
    - 1 otherwise;
    the quotients being computed in [float], hence up to 2^-25.  The
    callback is the first loop, the frames before [i], the frames from [i]
    on and the third loop; the volume that it leaves in the oscillator is
    the one set at the last frame. *)
Theorem C4_envelope (sin : double -> double) (oscs : list osc) (i : Z)
    (k : nat) (r o' : osc) :
  well_used sin oscs ->
  0 <= i < FRAMES_PER_BUFFER ->
  let before :=
    fst (render_frames (Z.to_nat i) 0 FRAMES_PER_BUFFER (map refill oscs)) in
  let after := fst (mix_voices i FRAMES_PER_BUFFER before silence) in
  nth_error before k = Some r ->
  nth_error after k = Some o' ->
  let v := vol o' in
  let ramp := Single.to_double (buffer_ramp i FRAMES_PER_BUFFER) in
  (frames_played r = 0 ->
     v = ramp /\
     (Rabs (SFval v - IZR (i + 1) / IZR FRAMES_PER_BUFFER) <= bpow (-25))%R) /\
  (frames_played r <> 0 ->
   num_frames r - FRAMES_PER_BUFFER <= frames_played r ->
     v = Double.sub (Double.of_Z 1) ramp /\
     (Rabs (SFval v - (1 - IZR (i + 1) / IZR FRAMES_PER_BUFFER))
      <= bpow (-25))%R) /\
  (frames_played r <> 0 ->
   frames_played r < num_frames r - FRAMES_PER_BUFFER ->
     v = Double.of_Z 1 /\ SFval v = 1%R) /\
  fst (paCallback FRAMES_PER_BUFFER oscs)
  = map (bookkeep FRAMES_PER_BUFFER)
        (fst (render_frames (Z.to_nat (FRAMES_PER_BUFFER - i)) i
                            FRAMES_PER_BUFFER before)) /\
  (i = FRAMES_PER_BUFFER - 1 ->
     exists o'', nth_error (fst (paCallback FRAMES_PER_BUFFER oscs)) k = Some o''
                 /\ vol o'' = v).
Proof.
  intros Hwu Hi before after Hr Ho' v ramp.
  pose proof (well_used_voice_inv sin oscs Hwu) as Hall.
  rewrite Forall_forall in Hall.
  assert (Eb : before
               = map (voice_frames (Z.to_nat i) 0 FRAMES_PER_BUFFER)
                     (map refill oscs))
    by apply render_frames_fst.
  assert (Ea : after = map (voice_frame i FRAMES_PER_BUFFER) before)
    by apply mix_voices_fst.
  rewrite Ea, nth_error_map, Hr in Ho'. cbn [option_map] in Ho'.
  assert (Eo' : o' = voice_frame i FRAMES_PER_BUFFER r) by congruence.
  rewrite Eb, !nth_error_map in Hr.
  destruct (nth_error oscs k) as [o|] eqn:Ek; [|discriminate].
  cbn [option_map] in Hr.
  assert (Er : r = voice_frames (Z.to_nat i) 0 FRAMES_PER_BUFFER (refill o))
    by congruence.
  destruct (Hall o (nth_error_In _ _ Ek)) as [Hstate _].
  pose proof (envelope_cases o i Hstate Hi) as Hcases. cbv zeta in Hcases.
  rewrite <- Er in Hcases. subst v. rewrite Eo'.
  destruct Hcases as (H1 & H2 & H3).
  split; [exact H1|]. split; [exact H2|]. split; [exact H3|].
  assert (Hsplit : forall x,
            voice_frames (Z.to_nat FRAMES_PER_BUFFER) 0 FRAMES_PER_BUFFER x
            = voice_frames (Z.to_nat (FRAMES_PER_BUFFER - i)) i FRAMES_PER_BUFFER
                (voice_frames (Z.to_nat i) 0 FRAMES_PER_BUFFER x)).
  { intros x.
    replace (Z.to_nat FRAMES_PER_BUFFER)
      with (Z.to_nat i + Z.to_nat (FRAMES_PER_BUFFER - i))%nat by lia.
    rewrite voice_frames_add. f_equal. lia. }
  split.
  - rewrite paCallback_fst, render_frames_fst, Eb, !map_map.
    apply map_ext. intros x. unfold voice_callback. now rewrite Hsplit.
  - intros Elast. exists (voice_callback FRAMES_PER_BUFFER o). split.
    + rewrite paCallback_fst, nth_error_map, Ek. reflexivity.
    + unfold voice_callback. rewrite bookkeep_vol, Hsplit, <- Er.
      replace (Z.to_nat (FRAMES_PER_BUFFER - i)) with 1%nat
        by (rewrite Elast; unfold FRAMES_PER_BUFFER; lia).
      reflexivity.
Qed.

Lemma C4_envelope_witness :
  let oscs :=
    step Callback
      (step Callback
         (step (Play 1 10 (Double.of_Z 440))
               (initOscillators (initTables (fun x => x))))) in
  let before :=
    fst (render_frames (Z.to_nat 3) 0 FRAMES_PER_BUFFER (map refill oscs)) in
  let after := fst (mix_voices 3 FRAMES_PER_BUFFER before silence) in
  let d := init_osc [] in
  (frames_played (nth 1 before d) = 420 /\ num_frames (nth 1 before d) = 441 /\
   vol (nth 1 after d)
   = Double.sub (Double.of_Z 1)
       (Single.to_double (buffer_ramp 3 FRAMES_PER_BUFFER))) /\
  (frames_played (nth 0 before d) = 0 /\
   vol (nth 0 after d) = Single.to_double (buffer_ramp 3 FRAMES_PER_BUFFER)).
Proof.
  cbv zeta.
  set (oscs := step Callback
                 (step Callback
                    (step (Play 1 10 (Double.of_Z 440))
                          (initOscillators (initTables (fun x => x)))))).
  set (before := fst (render_frames (Z.to_nat 3) 0 FRAMES_PER_BUFFER
                        (map refill oscs))).
  set (after := fst (mix_voices 3 FRAMES_PER_BUFFER before silence)).
  assert (Hw : well_used (fun x => x) oscs).
  { apply well_used_step; [exact I|]. apply well_used_step; [exact I|].
    apply well_used_step; [cbn; lia|]. apply well_used_init. }
  assert (Hi : 0 <= 3 < FRAMES_PER_BUFFER) by (unfold FRAMES_PER_BUFFER; lia).
  split.
  - destruct (C4_envelope (fun x => x) oscs 3 1
                (nth 1 before (init_osc [])) (nth 1 after (init_osc []))
                Hw Hi)
      as (_ & H & _); [vm_compute; reflexivity | vm_compute; reflexivity |].
    split; [vm_compute; reflexivity|]. split; [vm_compute; reflexivity|].
    apply H; vm_compute; discriminate.
  - destruct (C4_envelope (fun x => x) oscs 3 0
                (nth 0 before (init_osc [])) (nth 0 after (init_osc []))
                Hw Hi)
      as (H & _); [vm_compute; reflexivity | vm_compute; reflexivity |].
    split; [vm_compute; reflexivity|].
    apply H; vm_compute; reflexivity.
Defined.

(** ** Phase accumulators stay in the table (C5) *)

Lemma getNextFrame_phase_ok o :
  hz_ok (hz (curr_note o)) ->
  phase_ok (left_phase o) -> phase_ok (right_phase o) ->
  phase_ok (left_phase (snd (getNextFrame o))) /\
  phase_ok (right_phase (snd (getNextFrame o))) /\
  curr_note (snd (getNextFrame o)) = curr_note o.
Proof.
  intros Hh Hl Hr. unfold getNextFrame.
  destruct ((type (curr_note o) =? REST) || (type (curr_note o) =? WAITING)
            || (type (curr_note o) =? END)); cbn [snd]; fields.
  - split; [assumption | split; [assumption | reflexivity]].
  - split; [|split; [|reflexivity]]; apply advance_phase_ok; assumption.
Qed.

(** C5: while the current event has a frequency in [0, 20000] Hz, phases
    that are in [0, TABLE_SIZE) before a call of getNextFrame are in
    [0, TABLE_SIZE) after it, and so after any number [n] of consecutive
    calls; the truncation of each phase is then an index of the table. *)
Theorem C5_phase_in_table (o : osc) (n : nat) :
  hz_ok (hz (curr_note o)) ->
  phase_ok (left_phase o) -> phase_ok (right_phase o) ->
  let o' := render_samples n o in
  phase_ok (left_phase o') /\ phase_ok (right_phase o') /\
  0 <= double_to_int (left_phase o') < TABLE_SIZE /\
  0 <= double_to_int (right_phase o') < TABLE_SIZE.
Proof.
  intros Hh Hl Hr o'.
  assert (H : phase_ok (left_phase o') /\ phase_ok (right_phase o') /\
              curr_note o' = curr_note o).
  { subst o'. induction n as [|n IH];
      [split; [assumption | split; [assumption | reflexivity]]|].
    unfold render_samples in *. cbn [Nat.iter].
    destruct IH as (IHl & IHr & IHc).
    set (o1 := Nat.iter n (fun o' => snd (getNextFrame o')) o) in *.
    assert (Hh1 : hz_ok (hz (curr_note o1))) by (rewrite IHc; exact Hh).
    destruct (getNextFrame_phase_ok o1 Hh1 IHl IHr) as (Gl & Gr & Gc).
    split; [exact Gl | split; [exact Gr | exact (eq_trans Gc IHc)]]. }
  destruct H as (Hl' & Hr' & _).
  split; [assumption|]. split; [assumption|].
  split; apply phase_index; assumption.
Qed.

Lemma C5_phase_in_table_witness :
  let o := refill (saw_voice [mkNote NOTE 1000 (Double.of_Z 20000)]) in
  phase_ok (left_phase (render_samples 5 o)) /\
  0 <= double_to_int (left_phase (render_samples 5 o)) < TABLE_SIZE.
Proof.
  cbv zeta.
  destruct (C5_phase_in_table
              (refill (saw_voice [mkNote NOTE 1000 (Double.of_Z 20000)])) 5)
    as (H1 & _ & H2 & _).
  - repeat split; reflexivity.
  - repeat split; reflexivity.
  - repeat split; reflexivity.
  - split; assumption.
Defined.

(** ** Unknown event tags (C6) *)

(** C6 as stated fails: an event with the unknown tag 4 on the sawtooth
    voice is not rendered as silence. *)
Lemma C6_unknown_tag_not_silent :
  let o := set_curr_note (saw_voice []) (mkNote 4 100 (Double.of_Z 440)) in
  ~ In (type (curr_note o)) [NOTE; REST; WAITING; END] /\
  fst (getNextFrame o) <> silence.
Proof.
  cbv zeta. split.
  - vm_compute. intuition discriminate.
  - vm_compute. discriminate.
Qed.

(** C6, amended: an event whose tag is not Rest, Waiting or End, an unknown
    tag included, is rendered as a Note is: both channels read the table at
    the truncated phases and both phases advance; no error is raised. *)
Theorem C6_unknown_tag_rendered_as_note (o : osc) :
  type (curr_note o) <> REST -> type (curr_note o) <> WAITING ->
  type (curr_note o) <> END ->
  getNextFrame o
  = (mkFrame (table_at (table o) (double_to_int (left_phase o)))
             (table_at (table o) (double_to_int (right_phase o))),
     set_phases o (advance_phase (left_phase o) (hz (curr_note o)))
                  (advance_phase (right_phase o) (hz (curr_note o)))) /\
  fst (getNextFrame o) = fst (getNextFrame (retag o NOTE)) /\
  left_phase (snd (getNextFrame o))
    = left_phase (snd (getNextFrame (retag o NOTE))) /\
  right_phase (snd (getNextFrame o))
    = right_phase (snd (getNextFrame (retag o NOTE))).
Proof.
  intros H1 H2 H3. unfold getNextFrame, retag; fields.
  destruct (Z.eqb_spec (type (curr_note o)) REST); [contradiction|].
  destruct (Z.eqb_spec (type (curr_note o)) WAITING); [contradiction|].
  destruct (Z.eqb_spec (type (curr_note o)) END); [contradiction|].
  cbn. repeat split.
Qed.

Lemma C6_unknown_tag_rendered_as_note_witness :
  let o := set_curr_note (saw_voice []) (mkNote 4 100 (Double.of_Z 440)) in
  fst (getNextFrame o) = fst (getNextFrame (retag o NOTE)).
Proof.
  cbv zeta.
  apply (C6_unknown_tag_rendered_as_note
           (set_curr_note (saw_voice []) (mkNote 4 100 (Double.of_Z 440))));
    vm_compute; discriminate.
Defined.

(** ** The frame count of an event (C7) *)

(** C7 as stated fails: a Note of 6 ms gets 264 frames, the product 264.6
    truncated, where rounding to the nearest integer gives 265. *)
Lemma C7_truncation_not_rounding :
  let o := refill (saw_voice [mkNote NOTE 6 (Double.of_Z 440)]) in
  ms (curr_note o) = 6 /\ num_frames o = 264 /\ spec_frames_total 6 = 265.
Proof. cbv zeta. repeat split; vm_compute; reflexivity. Qed.

(** The two double roundings of [(ms / 1000.0) * SAMPLE_RATE] can fall
    below an integral product: 350 ms is 15435 frames exactly and gets
    15434. *)
Lemma frames_of_ms_350 :
  frames_of_ms 350 = 15434 /\ 350 * SAMPLE_RATE = 15435 * 1000.
Proof. split; vm_compute; reflexivity. Qed.

Lemma refill_num_frames o :
  idle o -> num_frames (refill o) = frames_of_ms (ms (curr_note (refill o))).
Proof.
  intros Hi. unfold refill. rewrite Hi. cbn [Z.eqb Pos.eqb].
  destruct (PaUtil_ReadRingBuffer (rbuf o)) as [[n rest]|]; fields;
    match goal with |- context [if ?c then _ else _] => destruct c end;
    fields; reflexivity.
Qed.

(** C7, amended: whenever the callback loads an event into a voice, with a
    duration from 0 up to INT_MAX ms, frames_total is the double product
    [(ms / 1000.0) * SAMPLE_RATE] converted to an integer by truncation:
    it never exceeds [ms / 1000 * sample_rate], it is the floor of that
    product when the product is not an integer, and the product itself or
    one less when it is. *)
Theorem C7_frames_total_truncated (o : osc) :
  idle o ->
  let o' := refill o in
  let m := ms (curr_note o') in
  0 <= m < 2 ^ 31 ->
  num_frames o' = frames_of_ms m /\
  1000 * num_frames o' <= m * SAMPLE_RATE /\
  (num_frames o' = m * SAMPLE_RATE / 1000 \/
   ((m * SAMPLE_RATE) mod 1000 = 0 /\
    num_frames o' = m * SAMPLE_RATE / 1000 - 1)).
Proof.
  intros Hi o' m Hm.
  assert (E : num_frames o' = frames_of_ms m) by (apply refill_num_frames, Hi).
  pose proof (frames_of_ms_bounds m Hm) as B. rewrite <- E in B.
  split; [exact E|]. unfold SAMPLE_RATE. split; [lia|].
  destruct (Z.eq_dec (10 * num_frames o') (441 * m - 10)) as [C|C].
  - right. split; Z.to_euclidean_division_equations; lia.
  - left. Z.to_euclidean_division_equations; lia.
Qed.

Lemma C7_frames_total_truncated_witness :
  let o := saw_voice [mkNote NOTE 350 (Double.of_Z 440)] in
  num_frames (refill o) = frames_of_ms 350 /\
  1000 * num_frames (refill o) <= 350 * SAMPLE_RATE.
Proof.
  cbv zeta.
  destruct (C7_frames_total_truncated
              (saw_voice [mkNote NOTE 350 (Double.of_Z 440)]))
    as (H1 & H2 & _).
  - reflexivity.
  - vm_compute. split; [discriminate | reflexivity].
  - split; assumption.
Defined.

(** ** A rest of 0 ms (C8) *)

Lemma idle_step_queue o :
  idle o -> rbuf (voice_callback FRAMES_PER_BUFFER o) = tl (rbuf o).
Proof.
  intros Hi. destruct (voice_callback_fields o) as (Eq & _).
  rewrite Eq. unfold refill, PaUtil_ReadRingBuffer. rewrite Hi.
  cbn [Z.eqb Pos.eqb].
  destruct (rbuf o) as [|n rest] eqn:E; fields;
    match goal with |- context [if ?c then _ else _] => destruct c end;
    fields; rewrite ?E; reflexivity.
Qed.

(** C8: with 210 frames per buffer, an idle voice that dequeues a Rest of
    0 ms gets frames_total 0; at the end of that callback frames_played
    advances to 210, the check frames_played >= frames_total succeeds and
    the voice is idle again after this one buffer, the rest of the queue
    untouched; the next callback takes the next event. *)
Theorem C8_zero_rest_one_buffer (oscs : list osc) (k : nat) (o : osc)
    (h : double) (q : list note) :
  nth_error oscs k = Some o ->
  idle o ->
  rbuf o = mkNote REST 0 h :: q ->
  let loaded := refill o in
  let rendered :=
    voice_frames (Z.to_nat FRAMES_PER_BUFFER) 0 FRAMES_PER_BUFFER loaded in
  let o' := voice_callback FRAMES_PER_BUFFER o in
  FRAMES_PER_BUFFER = 210 /\
  type (curr_note loaded) = REST /\
  frames_played loaded = 0 /\ num_frames loaded = 0 /\
  frames_played (advance FRAMES_PER_BUFFER rendered) = 210 /\
  (num_frames rendered
     <=? to_ulong (frames_played (advance FRAMES_PER_BUFFER rendered))) = true /\
  nth_error (fst (paCallback FRAMES_PER_BUFFER oscs)) k = Some o' /\
  idle o' /\ num_frames o' = 0 /\ rbuf o' = q /\ finished o' = finished o /\
  rbuf (voice_callback FRAMES_PER_BUFFER o') = tl q.
Proof.
  intros Hk Hi Hq. cbv zeta.
  remember (voice_callback FRAMES_PER_BUFFER o) as o' eqn:Ho'.
  pose proof (voice_frames_control (Z.to_nat FRAMES_PER_BUFFER) 0
                FRAMES_PER_BUFFER (refill o)) as R.
  remember (voice_frames (Z.to_nat FRAMES_PER_BUFFER) 0 FRAMES_PER_BUFFER
              (refill o)) as rendered eqn:Hr.
  clear Hr.
  rewrite (refill_idle_event o _ q Hi Hq) in * by discriminate.
  change (frames_of_ms (ms (mkNote REST 0 h))) with 0 in *.
  destruct R as (Rq & _ & Rp & Rn & Rc & Rf). fields.
  assert (Hadv : frames_played (advance FRAMES_PER_BUFFER rendered) = 210).
  { unfold advance. rewrite Rc, Rp. reflexivity. }
  assert (Hsmall : frames_of_ms (ms (mkNote REST 0 h)) <= 2 ^ 64 - 2 ^ 31)
    by (vm_compute; discriminate).
  destruct (idle_step_event o (mkNote REST 0 h) q Hi Hq
              ltac:(discriminate) ltac:(discriminate) Hsmall)
    as ((Eq & _ & Ef) & [(_ & Hi' & Hn')|(C & _)]).
  2: { exfalso. revert C. vm_compute. discriminate. }
  rewrite <- Ho' in Eq, Ef, Hi', Hn'.
  repeat split; try assumption.
  - rewrite Hadv, Rn. reflexivity.
  - rewrite paCallback_fst, nth_error_map, Hk, Ho'. reflexivity.
  - rewrite idle_step_queue by assumption. now rewrite Eq.
Qed.

Lemma C8_zero_rest_one_buffer_witness :
  let o := saw_voice [mkNote REST 0 (Double.of_Z 0)] in
  idle (voice_callback FRAMES_PER_BUFFER o) /\
  rbuf (voice_callback FRAMES_PER_BUFFER o) = [].
Proof.
  cbv zeta.
  destruct (C8_zero_rest_one_buffer
              [saw_voice [mkNote REST 0 (Double.of_Z 0)]] 0
              (saw_voice [mkNote REST 0 (Double.of_Z 0)])
              (Double.of_Z 0) [])
    as (_ & _ & _ & _ & _ & _ & _ & Hi & _ & Hq & _);
    [reflexivity | reflexivity | reflexivity |].
  split; assumption.
Defined.

(** ** Duplicated mono (C9) *)

Lemma getNextFrame_phases_eq o :
  phases_eq o ->
  phases_eq (snd (getNextFrame o)) /\
  left (fst (getNextFrame o)) = right (fst (getNextFrame o)).
Proof.
  unfold phases_eq, getNextFrame. intros H.
  destruct ((type (curr_note o) =? REST) || (type (curr_note o) =? WAITING)
            || (type (curr_note o) =? END)); cbn [fst snd left right]; fields.
  - split; [assumption | reflexivity].
  - rewrite H. split; reflexivity.
Qed.

Lemma mix_voices_phases_eq i fpb : forall oscs acc,
  Forall phases_eq oscs -> left acc = right acc ->
  Forall phases_eq (fst (mix_voices i fpb oscs acc)) /\
  left (snd (mix_voices i fpb oscs acc)) = right (snd (mix_voices i fpb oscs acc)).
Proof.
  induction oscs as [|o rest IH]; intros acc Hall Hacc; cbn [mix_voices].
  - split; [constructor | assumption].
  - inversion Hall as [|? ? Ho Hrest]; subst.
    destruct (getNextFrame_phases_eq (set_vol o (envelope i fpb o)) Ho)
      as [Hp Hf].
    destruct (getNextFrame (set_vol o (envelope i fpb o))) as [tf o2].
    cbn [fst snd] in Hp, Hf.
    destruct (IH (mix acc tf) Hrest) as [H1 H2].
    { unfold mix; cbn [left right]. now rewrite Hacc, Hf. }
    destruct (mix_voices i fpb rest (mix acc tf)) as [rest' out].
    cbn [fst snd] in *. split; [constructor; assumption | assumption].
Qed.

Lemma render_frames_phases_eq n : forall i fpb oscs,
  Forall phases_eq oscs ->
  Forall phases_eq (fst (render_frames n i fpb oscs)) /\
  channels_equal (snd (render_frames n i fpb oscs)).
Proof.
  induction n as [|n IH]; intros i fpb oscs Hall; cbn [render_frames].
  - split; [assumption | exact I].
  - destruct (mix_voices_phases_eq i fpb oscs
                (mkFrame (Single.of_Z 0) (Single.of_Z 0)) Hall eq_refl)
      as [H1 H2].
    destruct (mix_voices i fpb oscs _) as [oscs1 f]. cbn [fst snd] in H1, H2.
    destruct (IH (i + 1) fpb oscs1 H1) as [H3 H4].
    destruct (render_frames n (i + 1) fpb oscs1) as [oscs2 buffer].
    cbn [fst snd channels_equal] in *. repeat split; assumption.
Qed.

Lemma refill_phases o : left_phase (refill o) = left_phase o /\
                        right_phase (refill o) = right_phase o.
Proof.
  unfold refill. destruct (frames_played o =? -1); [|split; reflexivity].
  destruct (PaUtil_ReadRingBuffer (rbuf o)) as [[n rest]|]; fields;
    match goal with |- context [if ?c then _ else _] => destruct c end;
    fields; split; reflexivity.
Qed.

Lemma bookkeep_phases fpb o :
  left_phase (bookkeep fpb o) = left_phase o /\
  right_phase (bookkeep fpb o) = right_phase o.
Proof.
  unfold bookkeep, advance, forget.
  destruct (type (curr_note o) =? WAITING); fields;
    match goal with |- context [if ?c then _ else _] => destruct c end;
    fields; split; reflexivity.
Qed.

Lemma paCallback_phases_eq fpb oscs :
  Forall phases_eq oscs ->
  Forall phases_eq (fst (paCallback fpb oscs)) /\
  channels_equal (snd (paCallback fpb oscs)).
Proof.
  intros Hall. unfold paCallback.
  assert (H1 : Forall phases_eq (map refill oscs)).
  { rewrite Forall_map. eapply Forall_impl; [|exact Hall].
    intros o Ho. unfold phases_eq in *.
    destruct (refill_phases o) as [-> ->]. exact Ho. }
  destruct (render_frames_phases_eq (Z.to_nat fpb) 0 fpb _ H1) as [H2 H3].
  destruct (render_frames (Z.to_nat fpb) 0 fpb (map refill oscs))
    as [oscs2 buffer].
  cbn [fst snd] in *. split; [|assumption].
  rewrite Forall_map. eapply Forall_impl; [|exact H2].
  intros o Ho. unfold phases_eq in *.
  destruct (bookkeep_phases fpb o) as [-> ->]. exact Ho.
Qed.

Lemma update_osc_phases_eq f : (forall o, phases_eq o -> phases_eq (f o)) ->
  forall oscs id, Forall phases_eq oscs -> Forall phases_eq (update_osc id f oscs).
Proof.
  intros Hf. induction oscs as [|o rest IH]; intros id Hall;
    [destruct id; constructor|].
  inversion Hall; subst.
  destruct id; cbn [update_osc]; constructor; auto.
Qed.

Lemma step_phases_eq a oscs :
  Forall phases_eq oscs -> Forall phases_eq (step a oscs).
Proof.
  intros Hall. destruct a as [id m h|id m|id|]; cbn [step].
  - unfold playOsc. destruct (NUM_OSCILLATORS <=? id); [assumption|].
    apply update_osc_phases_eq; [|assumption]. intros o Ho; exact Ho.
  - unfold restOsc. destruct (NUM_OSCILLATORS <=? id); [assumption|].
    apply update_osc_phases_eq; [|assumption]. intros o Ho; exact Ho.
  - unfold endOsc. destruct (NUM_OSCILLATORS <=? id); [assumption|].
    apply update_osc_phases_eq; [|assumption]. intros o Ho; exact Ho.
  - apply paCallback_phases_eq, Hall.
Qed.

Lemma reachable_phases_eq sin oscs :
  reachable sin oscs -> Forall phases_eq oscs.
Proof.
  induction 1 as [|a oscs _ IH].
  - repeat constructor.
  - apply step_phases_eq, IH.
Qed.

(** C9: in every state that control calls and callbacks lead to from
    initialisation, every voice has left_phase = right_phase; hence the two
    samples a voice produces are equal, and so are the left and the right
    sample of every frame of the interleaved output buffer. *)
Theorem C9_duplicated_mono (sin : double -> double) (oscs : list osc) :
  reachable sin oscs ->
  Forall phases_eq oscs /\
  (forall o, In o oscs ->
     left (fst (getNextFrame o)) = right (fst (getNextFrame o))) /\
  channels_equal (snd (paCallback FRAMES_PER_BUFFER oscs)).
Proof.
  intros Hr. pose proof (reachable_phases_eq sin oscs Hr) as Hall.
  split; [assumption|]. split.
  - intros o Hin. rewrite Forall_forall in Hall.
    apply getNextFrame_phases_eq, Hall, Hin.
  - apply paCallback_phases_eq, Hall.
Qed.

Lemma C9_duplicated_mono_witness :
  let oscs :=
    step Callback
      (step (Play 1 1000 (Double.of_Z 440))
            (initOscillators (initTables (fun x => x)))) in
  Forall phases_eq oscs /\
  channels_equal (snd (paCallback FRAMES_PER_BUFFER oscs)).
Proof.
  cbv zeta.
  destruct (C9_duplicated_mono (fun x => x)
              (step Callback
                 (step (Play 1 1000 (Double.of_Z 440))
                       (initOscillators (initTables (fun x => x))))))
    as (H1 & _ & H2).
  - apply reachable_step, reachable_step, reachable_init.
  - split; assumption.
Defined.

(** ** The noise table (C10) *)

Lemma table_at_indices (f : Z -> float) i :
  0 <= i < TABLE_SIZE -> table_at (map f table_indices) i = f i.
Proof.
  intros H. unfold table_at, table_indices.
  rewrite !length_map, length_seq, Z2Nat.id by (unfold TABLE_SIZE; lia).
  destruct (Z.leb_spec 0 i); [|lia].
  destruct (Z.ltb_spec i TABLE_SIZE); [|lia]. cbn [andb].
  rewrite nth_indep with (d' := f (Z.of_nat 0))
    by (rewrite !length_map, length_seq; unfold TABLE_SIZE in *; lia).
  rewrite map_map, (map_nth (fun k => f (Z.of_nat k))).
  rewrite seq_nth by (unfold TABLE_SIZE in *; lia).
  rewrite Nat.add_0_l, Z2Nat.id by lia. reflexivity.
Qed.

(** C10: after initTables, the noise table has the length of the sine
    table and, at every index i of [0, TABLE_SIZE), the same element, which
    is the float of sin(i / TABLE_SIZE * pi * 2) as the C library computes
    it on doubles: the "noise" waveform is the sine waveform. *)
Theorem C10_noise_is_sine (sin : double -> double) (i : Z) :
  0 <= i < TABLE_SIZE ->
  let t := initTables sin in
  length (noise t) = Z.to_nat TABLE_SIZE /\
  length (sine t) = Z.to_nat TABLE_SIZE /\
  noise t = sine t /\
  table_at (noise t) i = table_at (sine t) i /\
  table_at (sine t) i =
    Single.of_double
      (sin (Double.mul
              (Double.mul (Double.div (Double.of_Z i) (Double.of_Z TABLE_SIZE))
                          M_PI)
              (Double.of_Z 2))).
Proof.
  intros H t. subst t. unfold initTables; cbn [noise sine].
  assert (Hlen : length (map (sine_sample sin) table_indices)
                 = Z.to_nat TABLE_SIZE).
  { unfold table_indices. now rewrite !length_map, length_seq. }
  split; [exact Hlen|]. split; [exact Hlen|]. split; [reflexivity|].
  split; [reflexivity|].
  apply (table_at_indices (sine_sample sin) i H).
Qed.

Lemma C10_noise_is_sine_witness :
  table_at (noise (initTables (fun x => x))) 52
  = table_at (sine (initTables (fun x => x))) 52.
Proof.
  destruct (C10_noise_is_sine (fun x => x) 52) as (_ & _ & _ & H & _).
  - unfold TABLE_SIZE; lia.
  - exact H.
Defined.

(** * Further properties of the code *)

(** ** Lists of voices *)

Lemma Forall2_map_self {A : Type} (R : A -> A -> Prop) (f : A -> A) l :
  (forall x, In x l -> R x (f x)) -> Forall2 R l (map f l).
Proof.
  induction l as [|x l IH]; intros H; cbn [map]; constructor.
  - apply H. left; reflexivity.
  - apply IH. intros y Hy. apply H. right; exact Hy.
Qed.

Lemma refill_table o : table (refill o) = table o.
Proof.
  unfold refill. destruct (frames_played o =? -1); [|reflexivity].
  destruct (PaUtil_ReadRingBuffer (rbuf o)) as [[n rest]|]; fields;
    match goal with |- context [if ?c then _ else _] => destruct c end;
    fields; reflexivity.
Qed.

Lemma voice_callback_queue fpb o :
  rbuf (voice_callback fpb o) = rbuf (refill o) /\
  curr_note (voice_callback fpb o) = curr_note (refill o) /\
  finished (voice_callback fpb o) = finished (refill o) /\
  table (voice_callback fpb o) = table o.
Proof.
  destruct (voice_callback_control fpb o) as (Hq & Ht & _ & _ & Hc & Hf).
  assert (Hb : rbuf (bookkeep fpb (refill o)) = rbuf (refill o) /\
               curr_note (bookkeep fpb (refill o)) = curr_note (refill o) /\
               finished (bookkeep fpb (refill o)) = finished (refill o) /\
               table (bookkeep fpb (refill o)) = table (refill o)).
  { unfold bookkeep, advance, forget.
    destruct (type (curr_note (refill o)) =? WAITING); fields;
      match goal with |- context [if ?c then _ else _] => destruct c end;
      fields; repeat split. }
  destruct Hb as (Bq & Bc & Bf & Bt).
  pose proof (refill_table o) as Rt.
  repeat split; congruence.
Qed.

(** ** The size of the output buffer *)

Lemma render_frames_length n : forall i fpb oscs,
  length (snd (render_frames n i fpb oscs)) = (2 * n)%nat.
Proof.
  induction n as [|n IH]; intros i fpb oscs; cbn [render_frames].
  - reflexivity.
  - destruct (mix_voices i fpb oscs _) as [oscs1 f].
    specialize (IH (i + 1) fpb oscs1).
    destruct (render_frames n (i + 1) fpb oscs1) as [oscs2 buffer].
    cbn [snd length] in *. lia.
Qed.

(** X1: one invocation of the callback writes exactly two samples for each
    of the [framesPerBuffer] frames it is asked for, whatever the state and
    the number of the oscillators, and it leaves as many oscillators as it
    found. *)
Theorem paCallback_buffer_size (framesPerBuffer : Z) (oscs : list osc) :
  length (snd (paCallback framesPerBuffer oscs))
    = (2 * Z.to_nat framesPerBuffer)%nat /\
  length (fst (paCallback framesPerBuffer oscs)) = length oscs.
Proof.
  split.
  - unfold paCallback.
    pose proof (render_frames_length (Z.to_nat framesPerBuffer) 0
                  framesPerBuffer (map refill oscs)) as H.
    destruct (render_frames _ 0 framesPerBuffer (map refill oscs))
      as [oscs2 buffer].
    exact H.
  - rewrite paCallback_fst. apply length_map.
Qed.

(** ** The voices do not interact *)

(** X2: what a callback does to an oscillator depends on that oscillator
    alone: the states after a callback on a list of oscillators are the
    states after a callback on each part of the list. *)
Theorem paCallback_voices_independent (framesPerBuffer : Z) (a b : list osc) :
  fst (paCallback framesPerBuffer (a ++ b))
  = fst (paCallback framesPerBuffer a) ++ fst (paCallback framesPerBuffer b).
Proof. rewrite !paCallback_fst. apply map_app. Qed.

(** ** Silence *)

Lemma quiet_tag_test ty :
  quiet_tag ty -> (ty =? REST) || (ty =? WAITING) || (ty =? END) = true.
Proof.
  intros [H|[H|H]]; rewrite H; reflexivity.
Qed.

Lemma getNextFrame_quiet o :
  quiet_tag (type (curr_note o)) -> getNextFrame o = (silence, o).
Proof.
  intros H. unfold getNextFrame. rewrite (quiet_tag_test _ H). reflexivity.
Qed.

Lemma voice_frame_quiet i fpb o :
  quiet_tag (type (curr_note o)) ->
  voice_frame i fpb o = set_vol o (envelope i fpb o).
Proof.
  intros H. unfold voice_frame. rewrite getNextFrame_quiet; [reflexivity|].
  exact H.
Qed.

Lemma voice_frames_quiet n : forall i fpb o,
  quiet_tag (type (curr_note o)) ->
  left_phase (voice_frames n i fpb o) = left_phase o /\
  right_phase (voice_frames n i fpb o) = right_phase o.
Proof.
  induction n as [|n IH]; intros i fpb o H; cbn [voice_frames].
  - split; reflexivity.
  - rewrite voice_frame_quiet by exact H.
    destruct (IH (i + 1) fpb (set_vol o (envelope i fpb o)) H) as [-> ->].
    split; reflexivity.
Qed.

Lemma mix_voices_quiet i fpb : forall oscs,
  Forall (fun o => quiet_tag (type (curr_note o))) oscs ->
  snd (mix_voices i fpb oscs silence) = silence /\
  Forall (fun o => quiet_tag (type (curr_note o)))
         (fst (mix_voices i fpb oscs silence)).
Proof.
  induction oscs as [|o rest IH]; intros Hall; cbn [mix_voices].
  - split; [reflexivity | constructor].
  - inversion Hall as [|? ? Ho Hrest]; subst.
    rewrite (getNextFrame_quiet (set_vol o (envelope i fpb o))) by exact Ho.
    change (mix silence silence) with silence.
    destruct (IH Hrest) as [H1 H2].
    destruct (mix_voices i fpb rest silence) as [rest' out].
    cbn [fst snd] in *. split; [exact H1|].
    constructor; [exact Ho | exact H2].
Qed.

Lemma render_frames_quiet n : forall i fpb oscs,
  Forall (fun o => quiet_tag (type (curr_note o))) oscs ->
  snd (render_frames n i fpb oscs) = repeat (S754_zero false) (2 * n).
Proof.
  induction n as [|n IH]; intros i fpb oscs Hall; cbn [render_frames].
  - reflexivity.
  - destruct (mix_voices_quiet i fpb oscs Hall) as [H1 H2].
    change (mkFrame (Single.of_Z 0) (Single.of_Z 0)) with silence.
    destruct (mix_voices i fpb oscs silence) as [oscs1 f].
    cbn [fst snd] in H1, H2. subst f.
    specialize (IH (i + 1) fpb oscs1 H2).
    destruct (render_frames n (i + 1) fpb oscs1) as [oscs2 buffer].
    cbn [snd] in *. rewrite IH.
    replace (2 * S n)%nat with (S (S (2 * n))) by lia. reflexivity.
Qed.

Lemma silent_refill o : silent o -> quiet_tag (type (curr_note (refill o))).
Proof.
  unfold silent, refill, PaUtil_ReadRingBuffer.
  destruct (frames_played o =? -1); [|intros H; exact H].
  destruct (rbuf o) as [|n rest]; fields.
  - intros _. right; left; reflexivity.
  - intros H. destruct (Z.eqb_spec (type n) END) as [E|E]; fields.
    + right; left; reflexivity.
    + exact H.
Qed.

(** X3: when no voice will sound, because each one is resting, or is idle
    with nothing or with a Rest or an End event next in its queue, the
    callback fills the whole buffer with the sample +0.0, and the phase of
    every oscillator is after the callback what it was before: a rest does
    not reset the position in the waveform. *)
Theorem silent_voices_silent_buffer (framesPerBuffer : Z) (oscs : list osc) :
  Forall silent oscs ->
  snd (paCallback framesPerBuffer oscs)
    = repeat (S754_zero false) (2 * Z.to_nat framesPerBuffer) /\
  Forall2 (fun o o' => left_phase o' = left_phase o /\
                       right_phase o' = right_phase o)
          oscs (fst (paCallback framesPerBuffer oscs)).
Proof.
  intros Hall. split.
  - unfold paCallback.
    assert (Hq : Forall (fun o => quiet_tag (type (curr_note o)))
                        (map refill oscs)).
    { rewrite Forall_map. eapply Forall_impl; [|exact Hall].
      apply silent_refill. }
    pose proof (render_frames_quiet (Z.to_nat framesPerBuffer) 0
                  framesPerBuffer _ Hq) as H.
    destruct (render_frames _ 0 framesPerBuffer (map refill oscs))
      as [oscs2 buffer].
    exact H.
  - rewrite paCallback_fst. apply Forall2_map_self. intros o Hin.
    rewrite Forall_forall in Hall. specialize (Hall o Hin).
    unfold voice_callback.
    destruct (bookkeep_phases framesPerBuffer
                (voice_frames (Z.to_nat framesPerBuffer) 0 framesPerBuffer
                   (refill o))) as [-> ->].
    destruct (voice_frames_quiet (Z.to_nat framesPerBuffer) 0 framesPerBuffer
                (refill o) (silent_refill o Hall)) as [-> ->].
    apply refill_phases.
Qed.

Lemma silent_voices_silent_buffer_witness :
  snd (paCallback FRAMES_PER_BUFFER
         (initOscillators (initTables (fun x => x))))
  = repeat (S754_zero false) (2 * Z.to_nat FRAMES_PER_BUFFER).
Proof.
  apply (silent_voices_silent_buffer FRAMES_PER_BUFFER
           (initOscillators (initTables (fun x => x)))).
  repeat constructor.
Defined.

(** ** The queue and the semaphore across a callback *)

Lemma refill_queue o :
  rbuf (refill o) = (if frames_played o =? -1 then tl (rbuf o) else rbuf o) /\
  curr_note (refill o)
    = (if frames_played o =? -1 then next_event (rbuf o) else curr_note o) /\
  (finished (refill o) + count_end (rbuf (refill o))
   = finished o + count_end (rbuf o))%nat.
Proof.
  unfold refill, PaUtil_ReadRingBuffer, next_event, count_end.
  destruct (frames_played o =? -1); [|repeat split].
  destruct (rbuf o) as [|n rest] eqn:E; fields.
  - change (type waiting_note =? END) with false. fields.
    rewrite E. repeat split.
  - cbn [tl filter].
    destruct (type n =? END); fields; unfold sem_post; rewrite ?E;
      cbn [filter length]; repeat split; try lia.
    all: destruct (type n =? END) eqn:E2; cbn [length]; lia.
Qed.

(** X4: the semaphore of a voice is posted once for each End event that
    the voice takes from its queue and at no other occasion: across a
    callback, for every voice, the posts made so far plus the End events
    still queued stay the same number, and the semaphore grows by at most
    one. *)
Theorem one_post_per_End_event (framesPerBuffer : Z) (oscs : list osc) :
  Forall2 (fun o o' =>
             (finished o' + count_end (rbuf o')
              = finished o + count_end (rbuf o))%nat /\
             (finished o <= finished o' <= S (finished o))%nat)
          oscs (fst (paCallback framesPerBuffer oscs)).
Proof.
  rewrite paCallback_fst. apply Forall2_map_self. intros o _.
  destruct (voice_callback_queue framesPerBuffer o) as (-> & _ & -> & _).
  destruct (refill_queue o) as (Hq & _ & Hs).
  split; [exact Hs|].
  rewrite Hq in Hs. unfold count_end in Hs.
  destruct (frames_played o =? -1); [|lia].
  destruct (rbuf o) as [|n rest]; cbn [tl filter] in Hs; [lia|].
  destruct (type n =? END); cbn [length] in Hs; lia.
Qed.

(** X5: a callback takes at most one event from the queue of a voice, the
    oldest one, and only when the voice is not on an event
    (frames_played = -1); the voice is then on that event, or waiting when
    the queue was empty or the event was End.  A voice that is on an event
    leaves its queue and its event alone. *)
Theorem callback_takes_oldest_event (framesPerBuffer : Z) (oscs : list osc) :
  Forall2 (fun o o' =>
             rbuf o' = (if frames_played o =? -1 then tl (rbuf o) else rbuf o) /\
             curr_note o'
             = (if frames_played o =? -1 then next_event (rbuf o)
                else curr_note o))
          oscs (fst (paCallback framesPerBuffer oscs)).
Proof.
  rewrite paCallback_fst. apply Forall2_map_self. intros o _.
  destruct (voice_callback_queue framesPerBuffer o) as (-> & -> & _ & _).
  destruct (refill_queue o) as (Hq & Hc & _). split; assumption.
Qed.

(** ** The control calls *)

Lemma queue_grown_refl o : queue_grown o o.
Proof. split; [destruct o; reflexivity | left; reflexivity]. Qed.

Lemma queue_grown_enqueue n o : queue_grown o (enqueue n o).
Proof.
  unfold queue_grown, enqueue, PaUtil_WriteRingBuffer; fields.
  split; [reflexivity|].
  destruct (Z.of_nat (length (rbuf o)) <? RBUF_SIZE);
    [right; exists n; reflexivity | left; reflexivity].
Qed.

Lemma Forall2_same {A : Type} (R : A -> A -> Prop) l :
  (forall x, R x x) -> Forall2 R l l.
Proof. intros H. induction l; constructor; auto. Qed.

Lemma update_osc_grown n : forall oscs k,
  Forall2 queue_grown oscs (update_osc k (enqueue n) oscs).
Proof.
  induction oscs as [|o rest IH]; intros [|k]; cbn [update_osc];
    constructor; auto using queue_grown_refl, queue_grown_enqueue.
  apply Forall2_same, queue_grown_refl.
Qed.

Lemma enqueue_control_call n id :
  control_call (fun oscs => if NUM_OSCILLATORS <=? id then oscs
                            else update_osc (Z.to_nat id) (enqueue n) oscs) id.
Proof.
  intros oscs.
  destruct (Z.leb_spec NUM_OSCILLATORS id) as [L|L].
  - split; [apply Forall2_same, queue_grown_refl|]. split; reflexivity.
  - split; [apply update_osc_grown|]. split; [lia|].
    intros k Hk. apply update_osc_other, Hk.
Qed.

(** X6: a control call, playOsc, restOsc or endOsc, changes nothing of the
    playback state: every oscillator is after the call what it was before
    but for its queue, which is the same or has one more event at its
    tail; the oscillators other than the one addressed are left as they
    are, and a call with an id of NUM_OSCILLATORS or more changes
    nothing. *)
Theorem control_calls_only_enqueue (id ms : Z) (hz : double) :
  control_call (playOsc id ms hz) id /\
  control_call (restOsc id ms) id /\
  control_call (endOsc id) id.
Proof.
  split; [|split].
  - apply (enqueue_control_call (mkNote NOTE (to_int ms) hz) id).
  - apply (enqueue_control_call (mkNote REST (to_int ms) (Double.of_Z 0)) id).
  - apply (enqueue_control_call (mkNote END 0 (Double.of_Z 0)) id).
Qed.



(** ** The tables of the oscillators *)

Lemma update_osc_map {B : Type} (g : osc -> B) f :
  (forall o, g (f o) = g o) ->
  forall oscs k, map g (update_osc k f oscs) = map g oscs.
Proof.
  intros H. induction oscs as [|o rest IH]; intros [|k]; cbn [update_osc map];
    try reflexivity.
  - now rewrite H.
  - now rewrite IH.
Qed.

Lemma step_tables a oscs : map table (step a oscs) = map table oscs.
Proof.
  destruct a as [id m h|id m|id|]; cbn [step].
  - unfold playOsc. destruct (NUM_OSCILLATORS <=? id); [reflexivity|].
    apply update_osc_map. reflexivity.
  - unfold restOsc. destruct (NUM_OSCILLATORS <=? id); [reflexivity|].
    apply update_osc_map. reflexivity.
  - unfold endOsc. destruct (NUM_OSCILLATORS <=? id); [reflexivity|].
    apply update_osc_map. reflexivity.
  - rewrite paCallback_fst, map_map. apply map_ext.
    intros o. apply voice_callback_queue.
Qed.

Lemma exec_tables s : forall oscs, map table (exec s oscs) = map table oscs.
Proof.
  induction s as [|a s IH]; intros oscs; [reflexivity|].
  unfold exec in *. cbn [fold_left]. rewrite IH. apply step_tables.
Qed.

(** X8: whatever control calls and callbacks have run since
    initialisation, there are two oscillators, the table of the first is
    the sine table of initTables and the table of the second its sawtooth
    table: no call changes the waveform of an oscillator. *)
Theorem waveforms_are_fixed (sin : double -> double) (oscs : list osc) :
  reachable sin oscs ->
  map table oscs = [sine (initTables sin); saw (initTables sin)].
Proof.
  induction 1 as [|a oscs _ IH]; [reflexivity|].
  rewrite step_tables. exact IH.
Qed.

Lemma waveforms_are_fixed_witness :
  map table (step Callback
               (step (Play 0 100 (Double.of_Z 440))
                     (initOscillators (initTables (fun x => x)))))
  = [sine (initTables (fun x => x)); saw (initTables (fun x => x))].
Proof.
  apply (waveforms_are_fixed (fun x => x)).
  apply reachable_step, reachable_step, reachable_init.
Defined.

(** ** Table reads stay inside the table *)

Lemma hz_ok_zero : hz_ok (Double.of_Z 0).
Proof. repeat split; reflexivity. Qed.

Lemma phase_inv_refill o : phase_inv o -> phase_inv (refill o).
Proof.
  intros (Hl & Hr & Hh & Hq). unfold phase_inv.
  destruct (refill_phases o) as [-> ->].
  destruct (refill_queue o) as (-> & -> & _).
  split; [exact Hl|]. split; [exact Hr|].
  destruct (frames_played o =? -1); [|split; assumption].
  unfold next_event.
  destruct (rbuf o) as [|n rest]; cbn [tl].
  - split; [exact hz_ok_zero | constructor].
  - inversion Hq as [|? ? Hn Hrest]; subst. split; [|exact Hrest].
    destruct (type n =? END); [exact hz_ok_zero | exact Hn].
Qed.

Lemma phase_inv_voice_frame i fpb o :
  phase_inv o -> phase_inv (voice_frame i fpb o).
Proof.
  intros (Hl & Hr & Hh & Hq). unfold phase_inv.
  destruct (voice_frame_control i fpb o) as (-> & _).
  unfold voice_frame.
  destruct (getNextFrame_phase_ok (set_vol o (envelope i fpb o)) Hh Hl Hr)
    as (Gl & Gr & Gc).
  rewrite Gc.
  split; [exact Gl | split; [exact Gr | split; [exact Hh | exact Hq]]].
Qed.

Lemma phase_inv_voice_frames n : forall i fpb o,
  phase_inv o -> phase_inv (voice_frames n i fpb o).
Proof.
  induction n as [|n IH]; intros i fpb o H; cbn [voice_frames]; [exact H|].
  apply IH, phase_inv_voice_frame, H.
Qed.

Lemma phase_inv_bookkeep fpb o : phase_inv o -> phase_inv (bookkeep fpb o).
Proof.
  intros (Hl & Hr & Hh & Hq). unfold phase_inv.
  destruct (bookkeep_phases fpb o) as [-> ->].
  assert (E : rbuf (bookkeep fpb o) = rbuf o /\
              curr_note (bookkeep fpb o) = curr_note o).
  { unfold bookkeep, advance, forget.
    destruct (type (curr_note o) =? WAITING); fields;
      match goal with |- context [if ?c then _ else _] => destruct c end;
      fields; split; reflexivity. }
  destruct E as [-> ->].
  split; [exact Hl | split; [exact Hr | split; [exact Hh | exact Hq]]].
Qed.

Lemma phase_inv_callback fpb o :
  phase_inv o -> phase_inv (voice_callback fpb o).
Proof.
  intros H. unfold voice_callback.
  apply phase_inv_bookkeep, phase_inv_voice_frames, phase_inv_refill, H.
Qed.

Lemma phase_inv_enqueue n o :
  hz_ok (hz n) -> phase_inv o -> phase_inv (enqueue n o).
Proof.
  intros Hn (Hl & Hr & Hh & Hq).
  unfold phase_inv, enqueue, PaUtil_WriteRingBuffer; fields.
  split; [exact Hl|]. split; [exact Hr|]. split; [exact Hh|].
  destruct (Z.of_nat (length (rbuf o)) <? RBUF_SIZE); [|exact Hq].
  apply Forall_app. split; [exact Hq | constructor; [exact Hn | constructor]].
Qed.

Lemma step_phase_inv a oscs :
  in_range a -> Forall phase_inv oscs -> Forall phase_inv (step a oscs).
Proof.
  intros Ha Hall. destruct a as [id m h|id m|id|]; cbn [step in_range] in *.
  - unfold playOsc. destruct (NUM_OSCILLATORS <=? id); [assumption|].
    apply update_osc_Forall; [|assumption]. intros o Ho.
    apply phase_inv_enqueue; assumption.
  - unfold restOsc. destruct (NUM_OSCILLATORS <=? id); [assumption|].
    apply update_osc_Forall; [|assumption]. intros o Ho.
    apply phase_inv_enqueue; [exact hz_ok_zero | assumption].
  - unfold endOsc. destruct (NUM_OSCILLATORS <=? id); [assumption|].
    apply update_osc_Forall; [|assumption]. intros o Ho.
    apply phase_inv_enqueue; [exact hz_ok_zero | assumption].
  - rewrite paCallback_fst, Forall_map.
    eapply Forall_impl; [|exact Hall]. apply phase_inv_callback.
Qed.

Lemma exec_phase_inv s : forall oscs,
  Forall in_range s -> Forall phase_inv oscs -> Forall phase_inv (exec s oscs).
Proof.
  induction s as [|a s IH]; intros oscs Hs Hall; [exact Hall|].
  inversion Hs as [|? ? Ha Hrest]; subst.
  unfold exec in *. cbn [fold_left]. apply IH; [exact Hrest|].
  apply step_phase_inv; assumption.
Qed.

Lemma init_phase_inv sin : Forall phase_inv (initOscillators (initTables sin)).
Proof.
  repeat constructor; reflexivity.
Qed.

Lemma init_table_length sin :
  Forall (fun t => length t = Z.to_nat TABLE_SIZE)
         (map table (initOscillators (initTables sin))).
Proof.
  repeat constructor; cbn; unfold table_indices;
    now rewrite !length_map, length_seq.
Qed.

(** X9: as long as the notes played have a frequency in [0, 20000] Hz,
    every table read of the callback is inside the table of the voice:
    after any control calls and callbacks since initialisation, and at
    every frame [n] of the next callback, the truncated left and right
    phases of every oscillator are indices of its table, which has
    TABLE_SIZE entries. *)
Theorem table_reads_in_bounds (sin : double -> double) (s : list action)
    (n : nat) :
  Forall in_range s ->
  Forall (fun o =>
            length (table o) = Z.to_nat TABLE_SIZE /\
            lookups_in_table
              (voice_frames n 0 FRAMES_PER_BUFFER (refill o)))
         (exec s (initOscillators (initTables sin))).
Proof.
  intros Hs.
  pose proof (exec_phase_inv s _ Hs (init_phase_inv sin)) as Hinv.
  pose proof (init_table_length sin) as Hlen.
  rewrite <- (exec_tables s) in Hlen. rewrite Forall_map in Hlen.
  rewrite Forall_forall in *. intros o Hin.
  specialize (Hinv o Hin). specialize (Hlen o Hin). cbv beta in Hlen.
  split; [exact Hlen|].
  pose proof (phase_inv_voice_frames n 0 FRAMES_PER_BUFFER _
                (phase_inv_refill o Hinv)) as (Hl & Hr & _).
  destruct (voice_frames_control n 0 FRAMES_PER_BUFFER (refill o))
    as (_ & Ht & _).
  unfold lookups_in_table. rewrite Ht, refill_table, Hlen.
  rewrite Z2Nat.id by (unfold TABLE_SIZE; lia).
  split; apply phase_index; assumption.
Qed.

Lemma table_reads_in_bounds_witness :
  Forall (fun o =>
            length (table o) = Z.to_nat TABLE_SIZE /\
            lookups_in_table
              (voice_frames 7 0 FRAMES_PER_BUFFER (refill o)))
         (exec [Play 0 100 (Double.of_Z 440); Callback]
               (initOscillators (initTables (fun x => x)))).
Proof.
  apply (table_reads_in_bounds (fun x => x)
           [Play 0 100 (Double.of_Z 440); Callback] 7).
  repeat constructor; reflexivity.
Defined.

(** ** The tags of the events *)

Lemma api_tags_refill o : api_tags o -> api_tags (refill o).
Proof.
  intros [Hc Hq]. unfold api_tags.
  destruct (refill_queue o) as (-> & -> & _).
  destruct (frames_played o =? -1); [|split; assumption].
  unfold next_event.
  destruct (rbuf o) as [|n rest]; cbn [tl].
  - split; [right; right; left; reflexivity | constructor].
  - inversion Hq as [|? ? Hn Hrest]; subst. split; [|exact Hrest].
    destruct (Z.eqb_spec (type n) END) as [E|E].
    + right; right; left; reflexivity.
    + destruct Hn as [Hn|[Hn|[Hn|[]]]]; rewrite <- Hn.
      * left; reflexivity.
      * right; left; reflexivity.
      * congruence.
Qed.

Lemma api_tags_callback fpb o : api_tags o -> api_tags (voice_callback fpb o).
Proof.
  intros H. apply api_tags_refill in H. unfold api_tags in *.
  destruct (voice_callback_queue fpb o) as (-> & -> & _). exact H.
Qed.

Lemma api_tags_enqueue n o :
  In (type n) [NOTE; REST; END] -> api_tags o -> api_tags (enqueue n o).
Proof.
  intros Hn [Hc Hq]. unfold api_tags, enqueue, PaUtil_WriteRingBuffer; fields.
  split; [exact Hc|].
  destruct (Z.of_nat (length (rbuf o)) <? RBUF_SIZE); [|exact Hq].
  apply Forall_app. split; [exact Hq | constructor; [exact Hn | constructor]].
Qed.

Lemma step_api_tags a oscs :
  Forall api_tags oscs -> Forall api_tags (step a oscs).
Proof.
  intros Hall. destruct a as [id m h|id m|id|]; cbn [step].
  - unfold playOsc. destruct (NUM_OSCILLATORS <=? id); [assumption|].
    apply update_osc_Forall; [|assumption]. intros o Ho.
    apply api_tags_enqueue; [left; reflexivity | exact Ho].
  - unfold restOsc. destruct (NUM_OSCILLATORS <=? id); [assumption|].
    apply update_osc_Forall; [|assumption]. intros o Ho.
    apply api_tags_enqueue; [right; left; reflexivity | exact Ho].
  - unfold endOsc. destruct (NUM_OSCILLATORS <=? id); [assumption|].
    apply update_osc_Forall; [|assumption]. intros o Ho.
    apply api_tags_enqueue; [right; right; left; reflexivity | exact Ho].
  - rewrite paCallback_fst, Forall_map.
    eapply Forall_impl; [|exact Hall]. apply api_tags_callback.
Qed.

(** X10: in every state that control calls and callbacks lead to from
    initialisation, the event of a voice is a Note, a Rest or Waiting and
    the queued events are Notes, Rests and End events; and at every frame
    [n] of the next callback getNextFrame finds a Note, a Rest or Waiting:
    its test for END never succeeds, and no tag outside the enumeration
    reaches it. *)
Theorem only_api_tags_are_rendered (sin : double -> double) (oscs : list osc) :
  reachable sin oscs ->
  Forall api_tags oscs /\
  Forall (fun o => forall n,
            In (type (curr_note (voice_frames n 0 FRAMES_PER_BUFFER (refill o))))
               [NOTE; REST; WAITING])
         oscs.
Proof.
  intros Hr.
  assert (Hall : Forall api_tags oscs).
  { induction Hr as [|a oscs _ IH].
    - repeat constructor.
    - apply step_api_tags, IH. }
  split; [exact Hall|].
  eapply Forall_impl; [|exact Hall]. intros o Ho n.
  destruct (voice_frames_control n 0 FRAMES_PER_BUFFER (refill o))
    as (_ & _ & _ & _ & -> & _).
  apply api_tags_refill, Ho.
Qed.

Lemma only_api_tags_are_rendered_witness :
  Forall api_tags
    (step Callback
       (step (End 0) (initOscillators (initTables (fun x => x))))).
Proof.
  apply (only_api_tags_are_rendered (fun x => x)).
  apply reachable_step, reachable_step, reachable_init.
Defined.

(** ** Durations *)

(** X11: the frame count of an event grows with its duration, by at least
    44 frames for each millisecond (the sample rate is 44.1 frames per
    millisecond); a duration of 0 ms has 0 frames. *)
Theorem frames_of_ms_increasing (m1 m2 : Z) :
  0 <= m1 -> m1 < m2 -> m2 < 2 ^ 31 ->
  frames_of_ms m1 + 44 * (m2 - m1) <= frames_of_ms m2 /\
  frames_of_ms 0 = 0.
Proof.
  intros H0 H12 H2.
  pose proof (frames_of_ms_bounds m1 ltac:(lia)) as B1.
  pose proof (frames_of_ms_bounds m2 ltac:(lia)) as B2.
  split; [lia | reflexivity].
Qed.

Lemma frames_of_ms_increasing_witness :
  frames_of_ms 10 + 44 * (350 - 10) <= frames_of_ms 350.
Proof.
  apply (frames_of_ms_increasing 10 350); lia.
Defined.

(** X12: an event of more than [MS_MAX] ms (about thirteen and a half
    hours) is not played to its end.  The voice is on it for
    [CUT_BUFFERS] callbacks, the buffers that fit below INT_MAX frames,
    whatever its duration, and is idle after them, with fewer samples
    rendered than the frame count of the event. *)
Theorem long_event_is_cut_short (o : osc) (n : note) (q : list note) :
  idle o -> rbuf o = n :: q ->
  type n = NOTE \/ type n = REST ->
  MS_MAX < ms n < 2 ^ 31 ->
  let k := Z.to_nat CUT_BUFFERS in
  (forall j, (0 < j < k)%nat -> busy (run j o) /\ curr_note (run j o) = n) /\
  idle (run k o) /\ rbuf (run k o) = q /\
  CUT_BUFFERS * FRAMES_PER_BUFFER < frames_of_ms (ms n).
Proof.
  intros Hi Hq Hty Hm k.
  assert (Hapi : api_event n) by (split; [exact Hty | unfold MS_MAX in Hm; lia]).
  pose proof (frames_of_ms_bounds (ms n) ltac:(unfold MS_MAX in Hm; lia)) as B.
  pose proof (frames_of_ms_range (ms n)) as R.
  assert (Hbig : 2147483765 <= frames_of_ms (ms n))
    by (unfold MS_MAX in Hm; lia).
  assert (Hk : event_buffers n = k).
  { subst k. unfold event_buffers. f_equal.
    unfold buffers_of, buffers_left, CUT_BUFFERS.
    rewrite Z.min_r by lia. reflexivity. }
  destruct (event_run o n q Hi Hq (api_playable n Hapi))
    as (_ & Hbusy & Hidle & Hon).
  rewrite Hk in Hbusy, Hidle, Hon.
  split.
  { intros j Hj. destruct (Hbusy j Hj) as (Hb & _ & Ec & _).
    split; assumption. }
  split; [exact Hidle|]. split; [apply Hon|].
  unfold CUT_BUFFERS, FRAMES_PER_BUFFER. lia.
Qed.

Lemma long_event_is_cut_short_witness :
  let o := saw_voice [mkNote NOTE (MS_MAX + 1) (Double.of_Z 440)] in
  idle (run (Z.to_nat CUT_BUFFERS) o) /\
  CUT_BUFFERS * FRAMES_PER_BUFFER < frames_of_ms (MS_MAX + 1).
Proof.
  cbv zeta.
  destruct (long_event_is_cut_short
              (saw_voice [mkNote NOTE (MS_MAX + 1) (Double.of_Z 440)])
              (mkNote NOTE (MS_MAX + 1) (Double.of_Z 440)) [])
    as (_ & H1 & _ & H2).
  - reflexivity.
  - reflexivity.
  - left; reflexivity.
  - cbn [ms]. unfold MS_MAX. lia.
  - split; [exact H1 | exact H2].
Defined.

(** ** A voice with nothing to do *)

Lemma envelope_set_vol i fpb o v :
  envelope i fpb (set_vol o v) = envelope i fpb o.
Proof. reflexivity. Qed.

Lemma voice_frames_quiet_state n : forall i fpb o,
  quiet_tag (type (curr_note o)) ->
  voice_frames (S n) i fpb o = set_vol o (envelope (i + Z.of_nat n) fpb o).
Proof.
  induction n as [|n IH]; intros i fpb o H.
  - cbn [voice_frames]. rewrite voice_frame_quiet by exact H.
    now rewrite Z.add_0_r.
  - change (voice_frames (S (S n)) i fpb o)
      with (voice_frames (S n) (i + 1) fpb (voice_frame i fpb o)).
    rewrite voice_frame_quiet by exact H.
    rewrite IH by exact H.
    rewrite envelope_set_vol.
    replace (i + 1 + Z.of_nat n) with (i + Z.of_nat (S n)) by lia.
    reflexivity.
Qed.

Lemma idle_empty_callback o :
  idle o -> rbuf o = [] ->
  voice_callback FRAMES_PER_BUFFER o
  = mkOsc [] (table o) (Double.of_Z 1) (left_phase o) (right_phase o)
          (-1) 0 waiting_note (finished o).
Proof.
  intros Hi Hq. unfold voice_callback.
  rewrite (refill_idle_empty o Hi Hq).
  change (Z.to_nat FRAMES_PER_BUFFER) with (S 209).
  rewrite voice_frames_quiet_state by (right; left; reflexivity).
  unfold envelope; fields. cbn [Z.eqb].
  change (Single.to_double (buffer_ramp (0 + Z.of_nat 209) FRAMES_PER_BUFFER))
    with (Double.of_Z 1).
  unfold bookkeep, advance; fields.
  change (type waiting_note =? WAITING) with true. cbv iota.
  unfold forget; fields.
  change (0 <=? to_ulong 0) with true. cbv iota.
  unfold set_frames; fields. rewrite Hq. reflexivity.
Qed.

(** X13: a voice that is idle with an empty queue stays so for any number
    of callbacks, and after the first one the callbacks change nothing at
    all: the voice is waiting, frames_played is -1 (so that the queue is
    looked at again in every callback), the frame count is 0, the volume
    is 1, and the table, the phases and the semaphore are what they
    were. *)
Theorem idle_voice_is_stationary (o : osc) (k : nat) :
  idle o -> rbuf o = [] ->
  run (S k) o
  = mkOsc [] (table o) (Double.of_Z 1) (left_phase o) (right_phase o)
          (-1) 0 waiting_note (finished o).
Proof.
  intros Hi Hq. revert o Hi Hq. induction k as [|k IH]; intros o Hi Hq.
  - rewrite run_S, run_0. apply idle_empty_callback; assumption.
  - rewrite run_S, (idle_empty_callback o Hi Hq).
    rewrite IH by reflexivity. reflexivity.
Qed.

Lemma idle_voice_is_stationary_witness :
  run 3 (saw_voice [])
  = mkOsc [] saw_table (Double.of_Z 1) (Double.of_Z 0) (Double.of_Z 0)
          (-1) 0 waiting_note 0.
Proof.
  apply (idle_voice_is_stationary (saw_voice []) 2); reflexivity.
Defined.

(** ** The sawtooth table *)

Lemma float_close_sound k x num den :
  float_close k x num den = true -> 0 < den -> 0 <= k ->
  (Rabs (SFval x - IZR num / IZR den) <= bpow (- k))%R.
Proof.
  intros H Hden Hk.
  assert (Hd : (0 < IZR den)%R) by (apply IZR_lt; exact Hden).
  assert (Ek : bpow (- k) = (/ IZR (2 ^ k))%R).
  { rewrite bpow_opp, bpow_IZR by lia. reflexivity. }
  assert (H2k : (0 < IZR (2 ^ k))%R).
  { apply IZR_lt. apply Z.pow_pos_nonneg; lia. }
  assert (Hmain : forall c p, 0 < p ->
            Z.abs (c * den - num * p) * 2 ^ k <= den * p ->
            (Rabs (IZR c * / IZR p - IZR num / IZR den) <= / IZR (2 ^ k))%R).
  { intros c p Hp Hle.
    assert (Hpr : (0 < IZR p)%R) by (apply IZR_lt; exact Hp).
    apply IZR_le in Hle. rewrite !mult_IZR, abs_IZR, minus_IZR, !mult_IZR in Hle.
    replace (IZR c * / IZR p - IZR num / IZR den)%R
      with ((IZR c * IZR den - IZR num * IZR p) * / (IZR den * IZR p))%R
      by (field; split; lra).
    assert (Hdp : (0 < IZR den * IZR p)%R) by nra.
    rewrite Rabs_mult, (Rabs_pos_eq (/ _))
      by (apply Rlt_le, Rinv_0_lt_compat, Hdp).
    apply Rmult_le_reg_r with (IZR den * IZR p)%R; [exact Hdp|].
    rewrite Rmult_assoc, Rinv_l by lra.
    apply Rmult_le_reg_r with (IZR (2 ^ k)); [exact H2k|].
    replace (/ IZR (2 ^ k) * (IZR den * IZR p) * IZR (2 ^ k))%R
      with (IZR den * IZR p)%R by (field; lra).
    lra. }
  rewrite Ek.
  destruct x as [s|s| |s m [|e|e]]; cbn [float_close] in H; try discriminate.
  - apply Z.leb_le in H. cbn [SFval].
    specialize (Hmain 0 1 ltac:(lia)).
    rewrite Rmult_0_l in Hmain. apply Hmain.
    replace (0 * den - num * 1) with (- num) by lia.
    rewrite Z.abs_opp. lia.
  - apply Z.leb_le in H. cbn [SFval].
    change (Zneg e) with (- Zpos e). rewrite bpow_opp, bpow_IZR by lia.
    assert (Hp : 0 < 2 ^ Zpos e) by (apply Z.pow_pos_nonneg; lia).
    specialize (Hmain (cond_Zopp s (Zpos m)) (2 ^ Zpos e) Hp H).
    destruct s; cbn [cond_Zopp] in Hmain; [rewrite opp_IZR in Hmain|];
      exact Hmain.
Qed.

Lemma table_indices_In i : 0 <= i < TABLE_SIZE -> In i table_indices.
Proof.
  intros H. unfold table_indices. apply in_map_iff.
  exists (Z.to_nat i). split; [lia|]. apply in_seq.
  unfold TABLE_SIZE in *. lia.
Qed.

(** The 210 entries of the sawtooth table, by evaluation. *)
Lemma saw_entries_close :
  forallb (saw_entry_close 24) table_indices = true.
Proof. vm_compute. reflexivity. Qed.

Lemma saw_entry_real i :
  0 <= i < TABLE_SIZE ->
  (Rabs (SFval (table_at saw_table i) - (1 - 2 * IZR i / 210))
   <= / 16777216)%R.
Proof.
  intros Hi. pose proof saw_entries_close as H.
  rewrite forallb_forall in H. specialize (H i (table_indices_In i Hi)).
  apply float_close_sound in H; [|reflexivity|lia].
  change (- (24)) with (- 24) in H.
  assert (E : bpow (-24) = (/ 16777216)%R).
  { change (-24) with (- (24)). rewrite bpow_opp, bpow_IZR by lia. reflexivity. }
  rewrite E in H.
  replace (1 - 2 * IZR i / 210)%R
    with (IZR (TABLE_SIZE - 2 * i) / IZR TABLE_SIZE)%R; [exact H|].
  unfold TABLE_SIZE. rewrite minus_IZR, mult_IZR. field.
Qed.

(** X14: the sawtooth table that initTables computes is a falling ramp:
    entry [i] is [1 - 2 i / TABLE_SIZE] up to 2^-24, the first entry is 1
    exactly, every entry is in (-1, 1], and each entry is below the one
    before it. *)
Theorem saw_table_is_a_falling_ramp (sin : double -> double) (i : Z) :
  0 <= i < TABLE_SIZE ->
  let x := SFval (table_at (saw (initTables sin)) i) in
  (Rabs (x - (1 - 2 * IZR i / IZR TABLE_SIZE)) <= bpow (-24))%R /\
  (-1 < x <= 1)%R /\
  (i = 0 -> table_at (saw (initTables sin)) i = Single.of_Z 1 /\ x = 1%R) /\
  (i + 1 < TABLE_SIZE ->
     (SFval (table_at (saw (initTables sin)) (i + 1)) < x)%R).
Proof.
  intros Hi x.
  change (saw (initTables sin)) with saw_table in *.
  assert (E : bpow (-24) = (/ 16777216)%R).
  { change (-24) with (- (24)). rewrite bpow_opp, bpow_IZR by lia. reflexivity. }
  pose proof (saw_entry_real i Hi) as Hx. fold x in Hx.
  assert (Hx' : (- / 16777216 <= x - (1 - 2 * IZR i / 210) <= / 16777216)%R).
  { revert Hx. unfold Rabs. destruct (Rcase_abs _); lra. }
  assert (H0 : i = 0 -> table_at saw_table i = Single.of_Z 1 /\ x = 1%R).
  { intros ->. split; [reflexivity|]. subst x.
    change (table_at saw_table 0) with (S754_finite false 8388608 (- (23))).
    apply (SFval_const _ 23 1); [reflexivity | lia]. }
  assert (Hlo : (0 <= IZR i)%R) by (apply IZR_le; lia).
  assert (Hhi : (IZR i <= 209)%R) by (apply IZR_le; unfold TABLE_SIZE in Hi; lia).
  split; [rewrite E; unfold TABLE_SIZE; exact Hx|].
  split; [|split; [exact H0|]].
  - split; [lra|].
    destruct (Z.eq_dec i 0) as [Z0|NZ]; [destruct (H0 Z0); lra|].
    assert (1 <= IZR i)%R by (apply IZR_le; lia). lra.
  - intros Hn.
    pose proof (saw_entry_real (i + 1) ltac:(lia)) as Hy.
    rewrite plus_IZR in Hy.
    revert Hy. unfold Rabs. destruct (Rcase_abs _); lra.
Qed.

Lemma saw_table_is_a_falling_ramp_witness :
  (-1 < SFval (table_at (saw (initTables (fun x => x))) 209) <= 1)%R.
Proof.
  destruct (saw_table_is_a_falling_ramp (fun x => x) 209) as (_ & H & _).
  - unfold TABLE_SIZE; lia.
  - exact H.
Defined.

(** ** The phase step of a note *)

Lemma bpow_m43 : bpow (-43) = (512 * eps64)%R.
Proof.
  change (-43) with (- (43)). rewrite bpow_opp, bpow_IZR by lia.
  change (2 ^ 43) with 8796093022208. unfold eps64. lra.
Qed.

Lemma advance_phase_real p h :
  phase_ok p -> hz_ok h ->
  let x := (SFval p + SFval h / 210)%R in
  let p' := SFval (advance_phase p h) in
  (0 <= p' < 210)%R /\
  ((x < 210 - bpow (-43))%R -> (Rabs (p' - x) <= bpow (-43))%R) /\
  ((210 + bpow (-43) <= x)%R -> (Rabs (p' - (x - 210)) <= bpow (-43))%R) /\
  ((Rabs (p' - x) <= bpow (-43))%R \/ (Rabs (p' - (x - 210)) <= bpow (-43))%R).
Proof.
  intros Hp Hh x p'.
  pose proof (advance_phase_ok p h Hp Hh) as Hok.
  apply phase_ok_real in Hok. destruct Hok as [Fq Vq].
  pose proof (Fin_nonneg _ _ _ Fq) as Hq0. fold p' in Vq, Hq0.
  apply phase_ok_real in Hp. destruct Hp as [Fp Vp].
  apply hz_ok_real in Hh. destruct Hh as [Fh Vh].
  destruct const_210 as [F210 V210]. destruct double_prec_ok as [P1 P2].
  pose proof (Fin_nonneg _ _ p Fp) as Hp0.
  pose proof (Fin_nonneg _ _ h Fh) as Hh0.
  rewrite bpow_m43. unfold eps64.
  subst p'. unfold advance_phase in *.
  destruct (Double_div_real h (Double.of_Z TABLE_SIZE) Fh F210)
    as [Fd Nd]; rewrite ?V210; try lra.
  unfold near64, eps64 in Nd. rewrite V210 in Nd.
  set (d := Double.div h (Double.of_Z TABLE_SIZE)) in *.
  destruct (Double_add_real p d Fp Fd) as [Fs Ns]; [lra|].
  unfold near64, eps64 in Ns.
  set (s := Double.add p d) in *.
  unfold wrap_phase, Double.geb in *.
  destruct (SFleb_real _ _ P1 (Double.of_Z TABLE_SIZE) s F210 Fs) as [Hge Hlt].
  destruct (SFleb (Double.of_Z TABLE_SIZE) s).
  - specialize (Hge eq_refl). rewrite V210 in Hge.
    destruct (Double_sub_real s (Double.of_Z TABLE_SIZE) Fs F210)
      as [Fr Nr]; rewrite ?V210; try lra.
    unfold near64, eps64 in Nr. rewrite V210 in Nr.
    set (r := SFval (Double.sub s (Double.of_Z TABLE_SIZE))) in *.
    assert (Hr : (- (512 * / 4503599627370496) <= r - (x - 210)
                  <= 512 * / 4503599627370496)%R) by (subst x; lra).
    assert (Habs : (Rabs (r - (x - 210)) <= 512 * / 4503599627370496)%R).
    { unfold Rabs. destruct (Rcase_abs _); lra. }
    split; [lra|]. split; [intros C; exfalso; subst x; lra|].
    split; [intros _; exact Habs | right; exact Habs].
  - specialize (Hlt eq_refl). rewrite V210 in Hlt.
    set (r := SFval s) in *.
    assert (Hr : (- (512 * / 4503599627370496) <= r - x
                  <= 512 * / 4503599627370496)%R) by (subst x; lra).
    assert (Habs : (Rabs (r - x) <= 512 * / 4503599627370496)%R).
    { unfold Rabs. destruct (Rcase_abs _); lra. }
    split; [lra|]. split; [intros _; exact Habs|].
    split; [intros C; exfalso; subst x; lra | left; exact Habs].
Qed.

(** X15: each sample of a Note, or of an event with a tag outside the
    enumeration, moves both phases on by hz / TABLE_SIZE, and by that less
    TABLE_SIZE when the sum reaches TABLE_SIZE, up to the rounding of the
    double operations (2^-43), for phases in [0, TABLE_SIZE) and a
    frequency in [0, 20000] Hz; the new phases are in [0, TABLE_SIZE)
    again. *)
Theorem note_phase_step (o : osc) :
  type (curr_note o) <> REST -> type (curr_note o) <> WAITING ->
  type (curr_note o) <> END ->
  phase_ok (left_phase o) -> phase_ok (right_phase o) ->
  hz_ok (hz (curr_note o)) ->
  let step_of p p' :=
    let x := (SFval p + SFval (hz (curr_note o)) / 210)%R in
    (0 <= SFval p' < 210)%R /\
    ((x < 210 - bpow (-43))%R -> (Rabs (SFval p' - x) <= bpow (-43))%R) /\
    ((210 + bpow (-43) <= x)%R ->
       (Rabs (SFval p' - (x - 210)) <= bpow (-43))%R) /\
    ((Rabs (SFval p' - x) <= bpow (-43))%R \/
     (Rabs (SFval p' - (x - 210)) <= bpow (-43))%R) in
  step_of (left_phase o) (left_phase (snd (getNextFrame o))) /\
  step_of (right_phase o) (right_phase (snd (getNextFrame o))).
Proof.
  intros H1 H2 H3 Hl Hr Hh. cbv zeta.
  unfold getNextFrame.
  destruct (Z.eqb_spec (type (curr_note o)) REST); [contradiction|].
  destruct (Z.eqb_spec (type (curr_note o)) WAITING); [contradiction|].
  destruct (Z.eqb_spec (type (curr_note o)) END); [contradiction|].
  cbn [orb snd]; fields.
  split; [exact (advance_phase_real _ _ Hl Hh)
         | exact (advance_phase_real _ _ Hr Hh)].
Qed.

Lemma note_phase_step_witness :
  let o := refill (saw_voice [mkNote NOTE 1000 (Double.of_Z 440)]) in
  (0 <= SFval (left_phase (snd (getNextFrame o))) < 210)%R.
Proof.
  cbv zeta.
  destruct (note_phase_step
              (refill (saw_voice [mkNote NOTE 1000 (Double.of_Z 440)])))
    as ((H & _) & _).
  - vm_compute; discriminate.
  - vm_compute; discriminate.
  - vm_compute; discriminate.
  - repeat split; reflexivity.
  - repeat split; reflexivity.
  - repeat split; reflexivity.
  - exact H.
Defined.

(** ** Starting and stopping the synthesizer *)

(** X16: initSynth returns, with the tables and the oscillators
    initialised, exactly when Pa_Initialize, Pa_OpenStream and
    Pa_StartStream report no error and there is a default output device;
    the calls are then these four, the stream being opened for 2 channels
    at 44100 Hz with 210 frames per buffer.  In every other case the
    process exits with status -1: the calls are the first [n] of the four,
    the last of them being the one that failed, then the printing of a
    message, and the calls of [error], which asks Pa_GetErrorText for the
    text of the error code and prints it; no other function of PortAudio
    is called after the failure.  The error code passed to [error] is the
    result of the call that failed, and paNoError when there is no output
    device.  Pa_StartStream is called only when the stream was opened.
    initSynth never blocks. *)
Theorem initSynth_outcome (pa : portaudio) (sin : double -> double) :
  let trace := fst (initSynth pa sin) in
  snd (initSynth pa sin)
    = (if init_ok pa
       then Returns (initTables sin, initOscillators (initTables sin))
       else Exits (-1)) /\
  (init_ok pa = true -> trace = init_calls pa) /\
  (init_ok pa = false ->
     exists n msg err,
       (1 <= n <= 4)%nat /\
       trace = firstn n (init_calls pa) ++ error_calls pa msg err /\
       (n = 1%nat -> err = initialize_result pa /\ err <> paNoError pa) /\
       (n = 2%nat -> err = paNoError pa /\
                     default_output_device pa = paNoDevice pa) /\
       (n = 3%nat -> err = open_stream_result pa /\ err <> paNoError pa) /\
       (n = 4%nat -> err = start_stream_result pa /\ err <> paNoError pa)) /\
  (In Pa_StartStream trace ->
     initialize_result pa = paNoError pa /\
     default_output_device pa <> paNoDevice pa /\
     open_stream_result pa = paNoError pa).
Proof.
  cbv zeta.
  unfold initSynth, init_ok, init_calls, error_calls, check, error, perform,
    exit, ret, bind, SAMPLE_RATE, FRAMES_PER_BUFFER.
  destruct (Z.eqb_spec (initialize_result pa) (paNoError pa)) as [E1|E1];
    cbn [andb negb app fst snd].
  2: { split; [reflexivity|]. split; [discriminate|]. split.
       - intros _. exists 1%nat. do 2 eexists.
         split; [lia|]. split; [reflexivity|].
         repeat split; try discriminate; assumption.
       - cbn [In]. intuition discriminate. }
  destruct (Z.eqb_spec (default_output_device pa) (paNoDevice pa)) as [E2|E2];
    cbn [andb negb app fst snd].
  { split; [reflexivity|]. split; [discriminate|]. split.
    - intros _. exists 2%nat. do 2 eexists.
      split; [lia|]. split; [reflexivity|].
      repeat split; try discriminate; assumption.
    - cbn [In]. intuition discriminate. }
  destruct (Z.eqb_spec (open_stream_result pa) (paNoError pa)) as [E3|E3];
    cbn [andb negb app fst snd].
  2: { split; [reflexivity|]. split; [discriminate|]. split.
       - intros _. exists 3%nat. do 2 eexists.
         split; [lia|]. split; [reflexivity|].
         repeat split; try discriminate; assumption.
       - cbn [In]. intuition discriminate. }
  destruct (Z.eqb_spec (start_stream_result pa) (paNoError pa)) as [E4|E4];
    cbn [andb negb app fst snd].
  - split; [reflexivity|]. split; [reflexivity|]. split; [discriminate|].
    intros _. repeat split; assumption.
  - split; [reflexivity|]. split; [discriminate|]. split.
    + intros _. exists 4%nat. do 2 eexists.
      split; [lia|]. split; [reflexivity|].
      repeat split; try discriminate; assumption.
    + intros _. repeat split; assumption.
Qed.

Lemma termSynth_loop_blocks : forall oscs i,
  Exists (fun o => finished o = 0%nat) oscs ->
  snd (termSynth_loop i oscs) = Blocks.
Proof.
  induction oscs as [|o rest IH]; intros i H; [inversion H|].
  cbn [termSynth_loop]. unfold termSynth_wait.
  destruct (finished o) as [|c] eqn:Ef; cbn [sem_wait]; [reflexivity|].
  assert (Hrest : Exists (fun o => finished o = 0%nat) rest).
  { inversion H as [? ? C|? ? C]; subst; [congruence | exact C]. }
  unfold perform, bind, ret. specialize (IH (S i) Hrest).
  destruct (termSynth_loop (S i) rest) as [t [a| |]];
    cbn [fst snd] in *; try discriminate; reflexivity.
Qed.

Lemma termSynth_loop_only_frees : forall oscs i c,
  In c (fst (termSynth_loop i oscs)) -> exists j, c = free j.
Proof.
  induction oscs as [|o rest IH]; intros i c H; [destruct H|].
  cbn [termSynth_loop] in H.
  destruct (termSynth_wait o); [|destruct H].
  unfold perform, bind, ret in H. specialize (IH (S i) c).
  destruct (termSynth_loop (S i) rest) as [t [a| |]]; cbn [fst app In] in *;
    try rewrite app_nil_r in H;
    (destruct H as [H|H]; [exists i; congruence | apply IH, H]).
Qed.


Lemma termSynth_blocks pa oscs :
  Exists (fun o => finished o = 0%nat) oscs ->
  snd (termSynth pa oscs) = Blocks /\
  forall c, In c (fst (termSynth pa oscs)) -> exists j, c = free j.
Proof.
  intros H. unfold termSynth.
  pose proof (termSynth_loop_only_frees oscs 0) as Hfree.
  pose proof (termSynth_loop_blocks oscs 0 H) as E1.
  destruct (termSynth_loop 0 oscs) as [t [a| |]]; cbn [fst snd] in *;
    try discriminate; cbn [bind fst snd]; (split; [reflexivity | exact Hfree]).
Qed.


(** ** termSynth without endOsc *)

Lemma nth_error_update_osc f : forall oscs j k o',
  nth_error (update_osc j f oscs) k = Some o' ->
  (j = k /\ exists o, nth_error oscs k = Some o /\ o' = f o) \/
  (j <> k /\ nth_error oscs k = Some o').
Proof.
  induction oscs as [|o rest IH]; intros [|j] [|k] o' H;
    cbn [update_osc nth_error] in H; try discriminate.
  - left. split; [reflexivity|]. exists o. split; [reflexivity | congruence].
  - right. split; [discriminate | exact H].
  - right. split; [discriminate | exact H].
  - destruct (IH j k o' H) as [[E (o0 & H1 & H2)]|[E H1]].
    + left. split; [congruence|]. exists o0. split; assumption.
    + right. split; [congruence | exact H1].
Qed.

(** The semaphore of voice [k] is 0 and its queue has no End event. *)
Lemma not_ended_step a oscs k :
  ~ ends_voice k a ->
  (forall o, nth_error oscs k = Some o -> finished o = 0%nat /\ no_end (rbuf o)) ->
  forall o, nth_error (step a oscs) k = Some o ->
            finished o = 0%nat /\ no_end (rbuf o).
Proof.
  intros Ha Hinv o Ho.
  assert (Henq : forall id n, type n <> END ->
            nth_error (update_osc (Z.to_nat id) (enqueue n) oscs) k = Some o ->
            finished o = 0%nat /\ no_end (rbuf o)).
  { intros id n Hn H.
    destruct (nth_error_update_osc _ _ _ _ _ H) as [[_ (o0 & H1 & ->)]|[_ H1]];
      [|apply Hinv, H1].
    destruct (Hinv o0 H1) as [Hf Hq].
    destruct (enqueue_state o0 n) as (_ & _ & _ & Ef & Eq).
    split; [congruence|].
    destruct Eq as [-> | ->]; [|exact Hq].
    apply Forall_app. split; [exact Hq | constructor; [exact Hn | constructor]]. }
  destruct a as [id m h|id m|id|]; cbn [step ends_voice] in *.
  - unfold playOsc in Ho.
    destruct (NUM_OSCILLATORS <=? id); [apply Hinv, Ho|].
    eapply Henq; [|exact Ho]. discriminate.
  - unfold restOsc in Ho.
    destruct (NUM_OSCILLATORS <=? id); [apply Hinv, Ho|].
    eapply Henq; [|exact Ho]. discriminate.
  - unfold endOsc in Ho.
    destruct (Z.leb_spec NUM_OSCILLATORS id) as [L|L]; [apply Hinv, Ho|].
    destruct (nth_error_update_osc _ _ _ _ _ Ho) as [[E _]|[_ H1]];
      [exfalso; apply Ha; split; assumption | apply Hinv, H1].
  - rewrite paCallback_fst, nth_error_map in Ho.
    destruct (nth_error oscs k) as [o0|] eqn:E; [|discriminate].
    cbn [option_map] in Ho.
    assert (E' : voice_callback FRAMES_PER_BUFFER o0 = o) by congruence.
    destruct (Hinv o0 eq_refl) as [Hf Hq].
    destruct (no_end_step o0 Hq) as [Ef Hq']. rewrite <- E'.
    split; [congruence | exact Hq'].
Qed.

Lemma not_ended_exec s k : forall oscs,
  Forall (fun a => ~ ends_voice k a) s ->
  (forall o, nth_error oscs k = Some o -> finished o = 0%nat /\ no_end (rbuf o)) ->
  forall o, nth_error (exec s oscs) k = Some o ->
            finished o = 0%nat /\ no_end (rbuf o).
Proof.
  induction s as [|a s IH]; intros oscs Hs Hinv; [exact Hinv|].
  inversion Hs as [|? ? Ha Hrest]; subst.
  unfold exec in *. cbn [fold_left]. apply IH; [exact Hrest|].
  apply not_ended_step; assumption.
Qed.

Lemma exec_length s : forall oscs, length (exec s oscs) = length oscs.
Proof.
  intros oscs. rewrite <- (length_map table (exec s oscs)), exec_tables.
  apply length_map.
Qed.

(** X18: termSynth cannot return unless endOsc has been called for every
    oscillator.  If, since initialisation, no endOsc call was made for
    oscillator [k] (0 or 1), whatever else was called and however many
    callbacks have run, the semaphore of that oscillator is 0, a wait on
    it blocks, and termSynth blocks without a call of PortAudio: the
    stream is not stopped. *)
Theorem termSynth_blocks_without_endOsc (pa : portaudio)
    (sin : double -> double) (s : list action) (k : nat) :
  (k < 2)%nat ->
  Forall (fun a => ~ ends_voice k a) s ->
  let oscs := exec s (initOscillators (initTables sin)) in
  (exists o, nth_error oscs k = Some o /\
             finished o = 0%nat /\ termSynth_wait o = None) /\
  snd (termSynth pa oscs) = Blocks /\
  forallb (fun c => negb (is_pa_call c)) (fst (termSynth pa oscs)) = true.
Proof.
  intros Hk Hs oscs.
  assert (Hlen : length oscs = 2%nat) by (subst oscs; apply exec_length).
  destruct (nth_error oscs k) as [o|] eqn:Eo;
    [|apply nth_error_None in Eo; lia].
  assert (Hinv : finished o = 0%nat /\ no_end (rbuf o)).
  { apply (not_ended_exec s k (initOscillators (initTables sin)) Hs);
      [|exact Eo].
    intros o0 H0. unfold initOscillators in H0.
    destruct k as [|[|k]]; cbn [nth_error] in H0; try lia;
      match type of H0 with
      | Some ?x = Some _ => assert (E0 : o0 = x) by congruence
      end; rewrite E0; (split; [reflexivity | constructor]). }
  destruct Hinv as [Hf _].
  assert (Hex : Exists (fun o => finished o = 0%nat) oscs).
  { apply Exists_exists. exists o. split; [|exact Hf].
    eapply nth_error_In, Eo. }
  destruct (termSynth_blocks pa oscs Hex) as [Hb Hfree].
  split.
  { exists o. split; [reflexivity|]. split; [exact Hf|].
    unfold termSynth_wait. rewrite Hf. reflexivity. }
  split; [exact Hb|].
  apply forallb_forall. intros c Hc.
  destruct (Hfree c Hc) as [j ->]. reflexivity.
Qed.

Lemma termSynth_blocks_without_endOsc_witness :
  snd (termSynth (mkPortaudio 0 (-1) (fun _ => String.EmptyString) 0 0 0 0 0 0)
         (exec [Play 0 10 (Double.of_Z 440); End 0; Callback]
               (initOscillators (initTables (fun x => x)))))
  = Blocks.
Proof.
  destruct (termSynth_blocks_without_endOsc
              (mkPortaudio 0 (-1) (fun _ => String.EmptyString) 0 0 0 0 0 0)
              (fun x => x)
              [Play 0 10 (Double.of_Z 440); End 0; Callback] 1)
    as (_ & H & _).
  - lia.
  - repeat constructor; cbn [ends_voice]; intuition discriminate.
  - exact H.
Defined.

(** ** The state of a voice between callbacks *)

Lemma on_api_event_busy o : on_api_event o -> busy o.
Proof.
  intros ([Hty|Hty] & Hm & Hn & Hp & Hlt & _);
    pose proof (frames_of_ms_small _ Hm); unfold busy, FRAMES_PER_BUFFER in *;
    rewrite Hty; (split; [lia|]); (split; [lia | discriminate]).
Qed.

Lemma between_callbacks_callback o :
  between_callbacks o -> between_callbacks (voice_callback FRAMES_PER_BUFFER o).
Proof.
  intros [[Hi|Hon] Hq].
  - destruct (rbuf o) as [|n q] eqn:E.
    + destruct (idle_step_empty o Hi E) as ((Eq & _) & Hi' & _).
      split; [left; exact Hi' | rewrite Eq; constructor].
    + inversion Hq as [|? ? Hn Hrest]; subst.
      destruct Hn as [Hn|Hn].
      * destruct (api_playable n Hn) as (P1 & P2 & P3).
        destruct (idle_step_event o n q Hi E P1 P2 P3)
          as ((Eq & Ec & _) & [(_ & Hi' & _)|(C & _ & Ep & En)]);
          (split; [|rewrite Eq; exact Hrest]); [left; exact Hi'|].
        right. unfold on_api_event. rewrite Ec, Ep, En.
        destruct Hn as [Hty Hm]. unfold FRAMES_PER_BUFFER.
        split; [exact Hty|]. split; [exact Hm|]. split; [reflexivity|].
        split; [lia|]. split; [lia | reflexivity].
      * destruct (idle_step_end o n q Hi E Hn) as ((Eq & _) & Hi' & _).
        split; [left; exact Hi' | rewrite Eq; exact Hrest].
  - pose proof (on_api_event_busy o Hon) as Hb.
    destruct Hon as (Hty & Hm & Hn & Hp & Hlt & Hmod).
    destruct (voice_callback_fields o) as (Eq & Ec & _ & Ep & En).
    rewrite refill_busy in Eq, Ec, Ep, En
      by (unfold FRAMES_PER_BUFFER in Hp; lia).
    destruct Hb as (B1 & B2 & B3).
    destruct (bookkeep_event o ltac:(lia) (proj2 B2) B3) as [Hstop Hgo].
    split; [|rewrite Eq; exact Hq].
    destruct (Z_le_gt_dec (Z.min (num_frames o) (2 ^ 31)) (frames_played o + 210))
      as [C|C].
    + left. destruct (Hstop C) as [E1 _]. unfold idle. congruence.
    + right. destruct Hgo as [E1 E2]; [lia|].
      unfold on_api_event. rewrite Ec, Ep, En, E1, E2.
      unfold FRAMES_PER_BUFFER in *.
      split; [exact Hty|]. split; [exact Hm|]. split; [exact Hn|].
      split; [lia|]. split; [lia|].
      Z.to_euclidean_division_equations; lia.
Qed.

Lemma between_callbacks_enqueue o n :
  between_callbacks o -> queued_ok n -> between_callbacks (enqueue n o).
Proof.
  intros [Hs Hq] Hn. split; [exact Hs|].
  unfold enqueue, PaUtil_WriteRingBuffer; fields.
  destruct (Z.of_nat (length (rbuf o)) <? RBUF_SIZE); [|exact Hq].
  apply Forall_app. split; [exact Hq | constructor; [exact Hn | constructor]].
Qed.

Lemma step_between_callbacks a oscs :
  api_action a -> Forall between_callbacks oscs ->
  Forall between_callbacks (step a oscs).
Proof.
  intros Ha Hall. destruct a as [id m h|id m|id|]; cbn [step api_action] in *.
  - unfold playOsc. destruct (NUM_OSCILLATORS <=? id); [assumption|].
    apply update_osc_Forall; [|assumption]. intros o Ho.
    apply between_callbacks_enqueue; [exact Ho|].
    left. split; [left; reflexivity|]. cbn [ms]. rewrite to_int_small; lia.
  - unfold restOsc. destruct (NUM_OSCILLATORS <=? id); [assumption|].
    apply update_osc_Forall; [|assumption]. intros o Ho.
    apply between_callbacks_enqueue; [exact Ho|].
    left. split; [right; reflexivity|]. cbn [ms]. rewrite to_int_small; lia.
  - unfold endOsc. destruct (NUM_OSCILLATORS <=? id); [assumption|].
    apply update_osc_Forall; [|assumption]. intros o Ho.
    apply between_callbacks_enqueue; [exact Ho|]. right. reflexivity.
  - rewrite paCallback_fst, Forall_map.
    eapply Forall_impl; [|exact Hall]. apply between_callbacks_callback.
Qed.

(** X19: while the durations passed to playOsc and restOsc fit an [int],
    every voice is, between any two callbacks, in one of two states.
    Either it is idle (frames_played = -1), or it is on a Note or a Rest
    with frames_total the frame count of the duration of that event and
    frames_played a whole number of buffers, at least one, below
    frames_total and below 2^31: the counter is never seen at 0, negative,
    or at or past the end of the event. *)
Theorem voice_state_between_callbacks (sin : double -> double)
    (oscs : list osc) :
  well_used sin oscs ->
  Forall (fun o => idle o \/ on_api_event o) oscs.
Proof.
  intros Hw.
  assert (Hall : Forall between_callbacks oscs).
  { induction Hw as [|a oscs Ha _ IH].
    - repeat constructor.
    - apply step_between_callbacks; assumption. }
  eapply Forall_impl; [|exact Hall]. intros o [H _]. exact H.
Qed.

Lemma voice_state_between_callbacks_witness :
  Forall (fun o => idle o \/ on_api_event o)
    (step Callback
       (step (Play 0 1000 (Double.of_Z 440))
             (initOscillators (initTables (fun x => x))))).
Proof.
  apply (voice_state_between_callbacks (fun x => x)).
  apply well_used_step; [exact I|].
  apply well_used_step; [cbn; lia|].
  apply well_used_init.
Defined.

(** ** Posts and endOsc calls *)

Lemma count_end_app q n :
  count_end (q ++ [n])
  = (count_end q + (if (type n =? END)%Z then 1 else 0))%nat.
Proof.
  unfold count_end. rewrite filter_app, length_app. cbn [filter].
  destruct (type n =? END); reflexivity.
Qed.

Lemma posts_step a oscs k c :
  (forall o, nth_error oscs k = Some o ->
             (finished o + count_end (rbuf o) <= c)%nat) ->
  forall o, nth_error (step a oscs) k = Some o ->
    (finished o + count_end (rbuf o)
     <= c + (if ends_voiceb k a then 1 else 0))%nat.
Proof.
  intros Hinv o Ho.
  assert (Henq : forall id n,
            nth_error (update_osc (Z.to_nat id) (enqueue n) oscs) k = Some o ->
            (finished o + count_end (rbuf o)
             <= c + (if (type n =? END)%Z && (Z.to_nat id =? k)%nat
                     then 1 else 0))%nat).
  { intros id n H.
    destruct (nth_error_update_osc _ _ _ _ _ H) as [[E (o0 & H1 & ->)]|[_ H1]];
      [|specialize (Hinv o H1); lia].
    specialize (Hinv o0 H1).
    destruct (enqueue_state o0 n) as (_ & _ & _ & Ef & Eq).
    rewrite Ef. rewrite E, Nat.eqb_refl, andb_true_r.
    destruct Eq as [-> | ->]; [rewrite count_end_app|];
      destruct (type n =? END); lia. }
  destruct a as [id m h|id m|id|]; cbn [step ends_voiceb] in *.
  - unfold playOsc in Ho.
    destruct (NUM_OSCILLATORS <=? id); [specialize (Hinv o Ho); lia|].
    apply Henq in Ho. cbn [type] in Ho. exact Ho.
  - unfold restOsc in Ho.
    destruct (NUM_OSCILLATORS <=? id); [specialize (Hinv o Ho); lia|].
    apply Henq in Ho. cbn [type] in Ho. exact Ho.
  - unfold endOsc in Ho.
    destruct (Z.leb_spec NUM_OSCILLATORS id) as [L|L].
    + specialize (Hinv o Ho). lia.
    + apply Henq in Ho. cbn [type] in Ho.
      destruct (Z.ltb_spec id NUM_OSCILLATORS); [|lia]. exact Ho.
  - rewrite paCallback_fst, nth_error_map in Ho.
    destruct (nth_error oscs k) as [o0|] eqn:E; [|discriminate].
    cbn [option_map] in Ho.
    assert (E' : voice_callback FRAMES_PER_BUFFER o0 = o) by congruence.
    specialize (Hinv o0 eq_refl). rewrite <- E'.
    destruct (voice_callback_queue FRAMES_PER_BUFFER o0) as (-> & _ & -> & _).
    destruct (refill_queue o0) as (_ & _ & Hs). lia.
Qed.

Lemma posts_exec s k : forall oscs c,
  (forall o, nth_error oscs k = Some o ->
             (finished o + count_end (rbuf o) <= c)%nat) ->
  forall o, nth_error (exec s oscs) k = Some o ->
    (finished o + count_end (rbuf o) <= c + endOsc_calls k s)%nat.
Proof.
  induction s as [|a s IH]; intros oscs c Hinv o Ho.
  - unfold endOsc_calls. cbn [filter length]. specialize (Hinv o Ho). lia.
  - unfold exec in *. cbn [fold_left] in Ho.
    pose proof (IH (step a oscs) _ (posts_step a oscs k c Hinv) o Ho) as H.
    unfold endOsc_calls in *. cbn [filter].
    destruct (ends_voiceb k a); cbn [length]; lia.
Qed.

(** X20: the semaphore of an oscillator is never posted more often than
    endOsc was called for that oscillator: after any control calls and
    callbacks since initialisation, the posts made on oscillator [k] and
    the End events still in its queue are together at most the endOsc
    calls for [k]. *)
Theorem posts_bounded_by_endOsc_calls (sin : double -> double)
    (s : list action) (k : nat) (o : osc) :
  nth_error (exec s (initOscillators (initTables sin))) k = Some o ->
  (finished o + count_end (rbuf o) <= endOsc_calls k s)%nat.
Proof.
  apply (posts_exec s k (initOscillators (initTables sin)) 0).
  intros o0 Ho. unfold initOscillators in Ho.
  destruct k as [|[|[|k]]]; cbn [nth_error] in Ho; try discriminate;
    match type of Ho with
    | Some ?x = Some _ => assert (E0 : o0 = x) by congruence
    end; rewrite E0; reflexivity.
Qed.

Lemma posts_bounded_by_endOsc_calls_witness :
  match nth_error (exec [End 0; Callback; Play 0 5 (Double.of_Z 440)]
                        (initOscillators (initTables (fun x => x)))) 0 with
  | Some o => (finished o + count_end (rbuf o) <= 1)%nat
  | None => True
  end.
Proof.
  destruct (nth_error _ 0) as [o|] eqn:E; [|exact I].
  exact (posts_bounded_by_endOsc_calls (fun x => x) _ 0 o E).
Defined.

(** ** Silent voices in the mix *)

Lemma add_zero_settled prec emax z :
  SFadd prec emax (SFadd prec emax (S754_zero false) z) (S754_zero false)
  = SFadd prec emax (S754_zero false) z.
Proof. destruct z as [[|]|[|]| |s m e]; reflexivity. Qed.

Lemma mix_silence_settled tf : settled (mix silence tf).
Proof.
  unfold settled, mix, silence; cbn [left right].
  change (Single.div (Single.of_Z 0) (Single.of_Z NUM_OSCILLATORS))
    with (S754_zero false).
  change (Single.of_Z 0) with (S754_zero false).
  unfold Single.add. now rewrite !add_zero_settled.
Qed.

Lemma mix_voices_settled i fpb : forall oscs acc,
  Forall (fun o => quiet_tag (type (curr_note o))) oscs ->
  settled acc -> snd (mix_voices i fpb oscs acc) = acc.
Proof.
  induction oscs as [|o rest IH]; intros acc Hall Hacc; cbn [mix_voices].
  - reflexivity.
  - inversion Hall as [|? ? Ho Hrest]; subst.
    rewrite (getNextFrame_quiet (set_vol o (envelope i fpb o))) by exact Ho.
    rewrite Hacc. specialize (IH acc Hrest Hacc).
    destruct (mix_voices i fpb rest acc) as [rest' out]. exact IH.
Qed.

Lemma mix_voices_app i fpb : forall a b acc,
  snd (mix_voices i fpb (a ++ b) acc)
  = snd (mix_voices i fpb b (snd (mix_voices i fpb a acc))).
Proof.
  induction a as [|o a IH]; intros b acc; cbn [app mix_voices]; [reflexivity|].
  destruct (getNextFrame (set_vol o (envelope i fpb o))) as [tf o2].
  specialize (IH b (mix acc tf)).
  destruct (mix_voices i fpb (a ++ b) (mix acc tf)) as [r1 out1].
  destruct (mix_voices i fpb a (mix acc tf)) as [r2 out2].
  exact IH.
Qed.

Lemma mix_voices_among_quiet i fpb pre o post :
  Forall (fun o => quiet_tag (type (curr_note o))) pre ->
  Forall (fun o => quiet_tag (type (curr_note o))) post ->
  snd (mix_voices i fpb (pre ++ o :: post) silence)
  = snd (mix_voices i fpb [o] silence).
Proof.
  intros Hpre Hpost. rewrite mix_voices_app.
  destruct (mix_voices_quiet i fpb pre Hpre) as [-> _].
  cbn [mix_voices].
  destruct (getNextFrame (set_vol o (envelope i fpb o))) as [tf o2].
  pose proof (mix_voices_settled i fpb post (mix silence tf) Hpost
                (mix_silence_settled tf)) as H.
  destruct (mix_voices i fpb post (mix silence tf)) as [r out]. exact H.
Qed.

Lemma voice_frame_keeps_quiet i fpb l :
  Forall (fun o => quiet_tag (type (curr_note o))) l ->
  Forall (fun o => quiet_tag (type (curr_note o))) (map (voice_frame i fpb) l).
Proof.
  intros H. rewrite Forall_map. eapply Forall_impl; [|exact H].
  intros o Ho.
  destruct (voice_frame_control i fpb o) as (_ & _ & _ & _ & -> & _). exact Ho.
Qed.

Lemma render_frames_among_quiet n : forall i fpb pre o post,
  Forall (fun o => quiet_tag (type (curr_note o))) pre ->
  Forall (fun o => quiet_tag (type (curr_note o))) post ->
  snd (render_frames n i fpb (pre ++ o :: post))
  = snd (render_frames n i fpb [o]).
Proof.
  induction n as [|n IH]; intros i fpb pre o post Hpre Hpost;
    cbn [render_frames]; [reflexivity|].
  pose proof (mix_voices_among_quiet i fpb pre o post Hpre Hpost) as Hf.
  pose proof (mix_voices_fst i fpb (pre ++ o :: post) silence) as H1.
  pose proof (mix_voices_fst i fpb [o] silence) as H2.
  change (mkFrame (Single.of_Z 0) (Single.of_Z 0)) with silence.
  destruct (mix_voices i fpb (pre ++ o :: post) silence) as [oscs1 f1].
  destruct (mix_voices i fpb [o] silence) as [oscs1' f1'].
  cbn [fst snd] in Hf, H1, H2. subst f1' oscs1 oscs1'.
  rewrite map_app. cbn [map].
  specialize (IH (i + 1) fpb (map (voice_frame i fpb) pre) (voice_frame i fpb o)
                 (map (voice_frame i fpb) post)
                 (voice_frame_keeps_quiet i fpb pre Hpre)
                 (voice_frame_keeps_quiet i fpb post Hpost)).
  destruct (render_frames n (i + 1) fpb
              (map (voice_frame i fpb) pre
               ++ voice_frame i fpb o :: map (voice_frame i fpb) post))
    as [oscs2 buffer].
  destruct (render_frames n (i + 1) fpb [voice_frame i fpb o])
    as [oscs2' buffer'].
  cbn [snd] in *. now rewrite IH.
Qed.

(** X21: voices that do not sound add nothing to the mix: when every
    oscillator but one is resting, or idle with nothing or with a Rest or
    an End event next in its queue, the buffer that the callback writes
    is, sample for sample, the buffer it writes for that one oscillator
    alone. *)
Theorem silent_voices_are_neutral (framesPerBuffer : Z)
    (pre post : list osc) (o : osc) :
  Forall silent pre -> Forall silent post ->
  snd (paCallback framesPerBuffer (pre ++ o :: post))
  = snd (paCallback framesPerBuffer [o]).
Proof.
  intros Hpre Hpost. unfold paCallback.
  assert (Hq : forall l, Forall silent l ->
            Forall (fun o => quiet_tag (type (curr_note o))) (map refill l)).
  { intros l Hl. rewrite Forall_map. eapply Forall_impl; [|exact Hl].
    apply silent_refill. }
  pose proof (render_frames_among_quiet (Z.to_nat framesPerBuffer) 0
                framesPerBuffer (map refill pre) (refill o) (map refill post)
                (Hq pre Hpre) (Hq post Hpost)) as H.
  rewrite map_app. cbn [map].
  destruct (render_frames (Z.to_nat framesPerBuffer) 0 framesPerBuffer
              (map refill pre ++ refill o :: map refill post))
    as [oscs2 buffer].
  destruct (render_frames (Z.to_nat framesPerBuffer) 0 framesPerBuffer
              [refill o]) as [oscs2' buffer'].
  exact H.
Qed.

Lemma silent_voices_are_neutral_witness :
  let t := initTables (fun x => x) in
  let voice := saw_voice [mkNote NOTE 1000 (Double.of_Z 440)] in
  snd (paCallback FRAMES_PER_BUFFER [init_osc (sine t); voice])
  = snd (paCallback FRAMES_PER_BUFFER [voice]).
Proof.
  cbv zeta.
  apply (silent_voices_are_neutral FRAMES_PER_BUFFER
           [init_osc (sine (initTables (fun x => x)))] []
           (saw_voice [mkNote NOTE 1000 (Double.of_Z 440)])).
  - repeat constructor.
  - constructor.
Defined.

(** ** Sequences of events *)

Lemma drain_run : forall evs o q,
  idle o -> rbuf o = evs ++ q -> Forall api_event evs ->
  idle (run (drain_time evs) o) /\ rbuf (run (drain_time evs) o) = q /\
  finished (run (drain_time evs) o) = finished o.
Proof.
  induction evs as [|n evs IH]; intros o q Hi Hq Hall.
  - cbn [drain_time]. rewrite run_0. repeat split; assumption.
  - inversion Hall as [|? ? Hn Hrest]; subst.
    cbn [drain_time]. rewrite run_add.
    destruct (event_run o n (evs ++ q) Hi Hq (api_playable n Hn))
      as (_ & _ & Hidle & (Eq & _ & Ef)).
    destruct (IH _ q Hidle Eq Hrest) as (H1 & H2 & H3).
    split; [exact H1|]. split; [exact H2 | congruence].
Qed.

(** X22: the events of a queue are played back to back, in the order of
    the queue, each for the callbacks of its own duration.  On an idle
    voice whose queue holds the Notes and Rests [before], then the Note or
    Rest [n], then [after]: at callback [j] of [n] (counted from 1, after
    the callbacks that the events [before] take together) the voice is on
    [n], the queue is [after], the semaphore is untouched, and the voice is
    idle again exactly after the last of these callbacks. *)
Theorem events_play_back_to_back (o : osc) (before after : list note)
    (n : note) (j : nat) :
  idle o -> rbuf o = before ++ n :: after ->
  Forall api_event before -> api_event n ->
  (0 < j <= event_buffers n)%nat ->
  let o' := run (drain_time before + j) o in
  curr_note o' = n /\ rbuf o' = after /\ finished o' = finished o /\
  (idle o' <-> j = event_buffers n).
Proof.
  intros Hi Hq Hb Hn Hj o'. subst o'. rewrite run_add.
  destruct (drain_run before o (n :: after) Hi Hq Hb) as (Hi1 & Hq1 & Hf1).
  set (o1 := run (drain_time before) o) in *.
  destruct (event_run o1 n after Hi1 Hq1 (api_playable n Hn))
    as (_ & Hbusy & Hidle & Hlast).
  destruct (Nat.eq_dec j (event_buffers n)) as [E|E].
  - rewrite E. destruct Hlast as (Eq & Ec & Ef).
    split; [exact Ec|]. split; [exact Eq|]. split; [congruence|].
    split; [reflexivity | intros _; exact Hidle].
  - destruct (Hbusy j ltac:(lia)) as (Hbz & Eq & Ec & Ef).
    split; [exact Ec|]. split; [exact Eq|]. split; [congruence|].
    split; [|contradiction].
    intros C. unfold idle in C. destruct Hbz as [Hbz _]. lia.
Qed.

Lemma events_play_back_to_back_witness :
  let rest := mkNote REST 10 (Double.of_Z 0) in
  let n := mkNote NOTE 5 (Double.of_Z 440) in
  curr_note (run (drain_time [rest] + 1) (saw_voice [rest; n])) = n.
Proof.
  cbv zeta.
  destruct (events_play_back_to_back
              (saw_voice [mkNote REST 10 (Double.of_Z 0);
                          mkNote NOTE 5 (Double.of_Z 440)])
              [mkNote REST 10 (Double.of_Z 0)] []
              (mkNote NOTE 5 (Double.of_Z 440)) 1)
    as (H & _).
  - reflexivity.
  - reflexivity.
  - constructor; [|constructor].
    split; [right; reflexivity | vm_compute; split; [discriminate | reflexivity]].
  - split; [left; reflexivity | vm_compute; split; [discriminate | reflexivity]].
  - vm_compute. lia.
  - exact H.
Defined.

(** ** The completion signal after endOsc *)

Lemma short_event_api n : short_event n -> api_event n.
Proof. intros [Hty Hm]. unfold MS_MAX in Hm. split; [exact Hty | lia]. Qed.

Lemma short_event_rendered n :
  short_event n ->
  frames_of_ms (ms n) <= Z.of_nat (event_buffers n) * FRAMES_PER_BUFFER.
Proof.
  intros [_ Hm]. unfold MS_MAX in Hm.
  pose proof (frames_of_ms_bounds (ms n) ltac:(lia)) as B.
  unfold event_buffers, buffers_of, buffers_left, FRAMES_PER_BUFFER.
  set (nf := frames_of_ms (ms n)) in *.
  assert (Hmin : Z.min nf (2 ^ 31) = nf \/
                 (Z.min nf (2 ^ 31) = 2 ^ 31 /\ 2 ^ 31 < nf)) by lia.
  rewrite Z2Nat.id by (Z.to_euclidean_division_equations; lia).
  destruct Hmin as [->|[-> Hbig]]; Z.to_euclidean_division_equations; lia.
Qed.

Lemma enqueue_end_pending o :
  idle o \/ busy o -> Forall api_event (rbuf o) ->
  (length (rbuf o) < 1024)%nat ->
  let o1 := enqueue (mkNote END 0 (Double.of_Z 0)) o in
  end_pending o1 (rbuf o) /\ settle_time o1 = settle_time o /\
  finished o1 = finished o.
Proof.
  intros Hs Hq Hlen o1.
  assert (Eq : rbuf o1 = rbuf o ++ [mkNote END 0 (Double.of_Z 0)]).
  { subst o1. unfold enqueue, PaUtil_WriteRingBuffer, RBUF_SIZE; fields.
    destruct (Z.ltb_spec (Z.of_nat (length (rbuf o))) 1024); [reflexivity | lia]. }
  split; [|split; reflexivity].
  split; [exact Hs|]. split; [exact Hq|].
  exists (mkNote END 0 (Double.of_Z 0)), [].
  split; [reflexivity|]. split; [constructor | exact Eq].
Qed.

(** X23: the completion signal, for events that the counter frames_played
    can count (at most [MS_MAX] ms each).  Oscillator [k] is idle or on
    such an event, its queue holds such Notes and Rests and has room, and
    endOsc is called for it.  Whatever calls and callbacks follow, with no
    further endOsc for [k], and with [n] the callbacks that the event in
    progress and the queued events take: the semaphore is not posted
    during the first [n] callbacks; after them the voice is idle with End
    the oldest event of its queue; callback [n + 1] posts, and nothing
    posts again.  Every queued event has by then been given at least the
    samples of its frame count, and so has the event in progress.  A wait
    on a semaphore that started at 0 blocks up to callback [n], returns
    after callback [n + 1], and a second wait would block. *)
Theorem completion_signal_after_endOsc (oscs : list osc) (k : nat) (o : osc)
    (s : list action) :
  nth_error oscs k = Some o ->
  Z.of_nat k < NUM_OSCILLATORS ->
  idle o \/ (on_api_event o /\ ms (curr_note o) <= MS_MAX) ->
  Forall short_event (rbuf o) ->
  (length (rbuf o) < 1024)%nat ->
  Forall (fun a => ~ ends_voice k a) s ->
  let n := (settle_time o + drain_time (rbuf o))%nat in
  let c := callbacks s in
  exists o',
    nth_error (exec s (step (End (Z.of_nat k)) oscs)) k = Some o' /\
    ((c <= n)%nat -> finished o' = finished o) /\
    ((c = n)%nat ->
       idle o' /\ exists e later, type e = END /\ rbuf o' = e :: later) /\
    ((n < c)%nat -> finished o' = S (finished o)) /\
    Forall (fun e => frames_of_ms (ms e)
                     <= Z.of_nat (event_buffers e) * FRAMES_PER_BUFFER)
           (rbuf o) /\
    (frames_played o <> -1 ->
       num_frames o
       <= frames_played o + Z.of_nat (settle_time o) * FRAMES_PER_BUFFER) /\
    (finished o = 0%nat ->
       ((c <= n)%nat -> termSynth_wait o' = None) /\
       ((n < c)%nat ->
          exists o'', termSynth_wait o' = Some o'' /\
                      termSynth_wait o'' = None)).
Proof.
  intros Hk Hid Hstate Hq Hlen Hs n c.
  set (o1 := enqueue (mkNote END 0 (Double.of_Z 0)) o).
  set (vs := flat_map (voice_view k) s).
  exists (voice_exec vs o1).
  assert (Hs1 : idle o \/ busy o).
  { destruct Hstate as [Hi|[Hon _]]; [left; exact Hi|].
    right. apply on_api_event_busy, Hon. }
  assert (Hq1 : Forall api_event (rbuf o)).
  { eapply Forall_impl; [|exact Hq]. apply short_event_api. }
  destruct (enqueue_end_pending o Hs1 Hq1 Hlen) as (Hp & Et & Ef).
  fold o1 in Hp, Et, Ef.
  destruct (end_pending_exec vs o1 (rbuf o) (view_not_end k s Hs) Hp)
    as [Hbefore Hafter].
  unfold vs in Hbefore, Hafter. rewrite view_renders, Et, Ef in Hbefore, Hafter.
  fold vs c n in Hbefore, Hafter.
  split.
  { assert (H1 : nth_error (step (End (Z.of_nat k)) oscs) k = Some o1).
    { rewrite (step_view _ _ _ _ Hk). cbn [voice_view]. unfold targets.
      rewrite Nat2Z.id, Nat.eqb_refl.
      destruct (Z.ltb_spec (Z.of_nat k) NUM_OSCILLATORS); [|lia].
      reflexivity. }
    apply exec_view, H1. }
  split; [intros H; apply Hbefore, H|]. split.
  { intros H. destruct Hbefore as (_ & evs' & Hp' & Et'); [lia|].
    destruct (end_pending_post (voice_exec vs o1) evs' Hp' ltac:(lia))
      as (Hi & -> & _).
    split; [exact Hi|].
    destruct Hp' as (_ & _ & e & later & He & _ & Hq').
    exists e, later. split; assumption. }
  split; [exact Hafter|]. split.
  { eapply Forall_impl; [|exact Hq]. apply short_event_rendered. }
  split.
  { intros Hfp. destruct Hstate as [Hi|[Hon Hm]]; [contradiction|].
    destruct (settle_time_busy o (on_api_event_busy o Hon)) as [-> _].
    destruct Hon as (_ & Hm0 & Hn & Hp' & Hlt & Hmod).
    unfold MS_MAX in Hm.
    pose proof (frames_of_ms_bounds (ms (curr_note o)) ltac:(lia)) as B.
    rewrite <- Hn in B. unfold buffers_left, FRAMES_PER_BUFFER in *.
    assert (Hmin : Z.min (num_frames o) (2 ^ 31) = num_frames o \/
                   (Z.min (num_frames o) (2 ^ 31) = 2 ^ 31 /\
                    2 ^ 31 < num_frames o)) by lia.
    rewrite Z2Nat.id by (Z.to_euclidean_division_equations; lia).
    destruct Hmin as [->|[-> Hbig]]; Z.to_euclidean_division_equations; lia. }
  intros H0. split.
  - intros H. unfold termSynth_wait.
    destruct Hbefore as [-> _]; [exact H|]. rewrite H0. reflexivity.
  - intros H. unfold termSynth_wait. rewrite (Hafter H), H0.
    cbn [sem_wait]. eexists. split; [reflexivity|]. reflexivity.
Qed.

Lemma completion_signal_after_endOsc_witness :
  let oscs :=
    step (Play 0 5 (Double.of_Z 440))
         (initOscillators (initTables (fun x => x))) in
  let s := [Callback; Rest 0 7; Play 1 9 (Double.of_Z 220); Callback; Callback] in
  exists o',
    nth_error (exec s (step (End 0) oscs)) 0 = Some o' /\
    finished o' = 1%nat.
Proof.
  cbv zeta.
  destruct (completion_signal_after_endOsc
              (step (Play 0 5 (Double.of_Z 440))
                    (initOscillators (initTables (fun x => x))))
              0
              (enqueue (mkNote NOTE 5 (Double.of_Z 440))
                       (init_osc (sine (initTables (fun x => x)))))
              [Callback; Rest 0 7; Play 1 9 (Double.of_Z 220);
               Callback; Callback])
    as (o' & H1 & _ & _ & H2 & _).
  - reflexivity.
  - unfold NUM_OSCILLATORS; lia.
  - left; reflexivity.
  - constructor; [|constructor].
    split; [left; reflexivity | vm_compute; split; discriminate].
  - cbn. lia.
  - repeat constructor; cbn [ends_voice]; intuition discriminate.
  - exists o'. split; [exact H1|]. apply H2. vm_compute. lia.
Defined.
